(** * 1mrc, python-service/main.py: the event-ingestion handler

    A shallow embedding of [python-service/main.py]: the byte-level request
    decoding ([bytes.split], the [REQ_RE_LEN] pattern, [StreamReader.read]),
    the sharded set of user identifiers, the two ctypes counters, the
    request handler [handle], and the asyncio scheduling of several handlers
    over the shared module state. *)

From Stdlib Require Import ZArith List Bool Lia.
From Stdlib Require Import Strings.String Strings.Byte.
From Stdlib Require Import Floats.SpecFloat.
From stdpp Require Import base relations list strings pretty.
Import ListNotations.
Open Scope Z_scope.
Set Warnings "-register-all".

(** ** Byte strings *)

Definition bytes := list byte.

#[global] Instance byte_eq_dec : EqDecision byte := Byte.byte_eq_dec.

(** A [bytes] literal whose characters are all printable. *)
Definition lit (s : string) : bytes := list_byte_of_string s.

Definition CRLF : bytes := [x0d; x0a].

(** [l.startswith(p)] *)
Fixpoint starts_with (p l : bytes) : bool :=
  match p, l with
  | [], _ => true
  | _ :: _, [] => false
  | x :: p', y :: l' => Byte.eqb x y && starts_with p' l'
  end.

(** [p in l] on bytes: [p] occurs in [l] as a contiguous run. *)
Fixpoint contains (p l : bytes) : bool :=
  starts_with p l ||
  match l with
  | [] => false
  | _ :: l' => contains p l'
  end.

(** [l.partition(sep)] without the separator: the bytes before and after
    the leftmost occurrence of [sep], [None] when [sep] does not occur. *)
Fixpoint partition (sep l : bytes) : option (bytes * bytes) :=
  if starts_with sep l then Some ([], drop (length sep) l)
  else match l with
       | [] => None
       | x :: l' =>
           match partition sep l' with
           | Some (h, t) => Some (x :: h, t)
           | None => None
           end
       end.

(** [l.split(sep)] for a non-empty [sep]: cut at the occurrences of [sep]
    found from left to right, each search resuming after the previous
    occurrence.  Every cut consumes at least one byte, so [length l] rounds
    are enough. *)
Fixpoint split_n (fuel : nat) (sep l : bytes) : list bytes :=
  match fuel with
  | O => [l]
  | S fuel' =>
      match partition sep l with
      | None => [l]
      | Some (h, t) => h :: split_n fuel' sep t
      end
  end.

Definition split (sep l : bytes) : list bytes := split_n (length l) sep l.

(** [l.count(sep)]: the number of occurrences found by the same scan. *)
Definition count (sep l : bytes) : nat := Nat.pred (length (split sep l)).

(** ** The [REQ_RE_LEN] pattern

    [re.compile(rb"(?i)^Content-Length:\s*(\d+)", re.MULTILINE)]. *)

Definition byte_in (lo hi c : byte) : bool :=
  (Byte.to_N lo <=? Byte.to_N c)%N && (Byte.to_N c <=? Byte.to_N hi)%N.

(** [\d] on bytes: the ASCII digits. *)
Definition is_digit (c : byte) : bool := byte_in "0" "9" c.

(** [\s] on bytes: space, [\t], [\n], [\v], [\f], [\r]. *)
Definition is_space (c : byte) : bool :=
  Byte.eqb c " " || byte_in x09 x0d c.

(** ASCII lower-casing, which is what [(?i)] compares under on bytes. *)
Definition lower (c : byte) : byte :=
  if byte_in "A" "Z" c
  then match Byte.of_N (Byte.to_N c + 32) with Some c' => c' | None => c end
  else c.

(** [l] starts with [p], ignoring ASCII case. *)
Fixpoint istarts_with (p l : bytes) : bool :=
  match p, l with
  | [], _ => true
  | _ :: _, [] => false
  | x :: p', y :: l' => Byte.eqb (lower x) (lower y) && istarts_with p' l'
  end.

Fixpoint take_while (f : byte -> bool) (l : bytes) : bytes :=
  match l with
  | x :: l' => if f x then x :: take_while f l' else []
  | [] => []
  end.

Fixpoint drop_while (f : byte -> bool) (l : bytes) : bytes :=
  match l with
  | x :: l' => if f x then drop_while f l' else l
  | [] => []
  end.

Definition CONTENT_LENGTH : bytes := lit "Content-Length:".

(** The pattern tried at one position (already known to be a line start):
    the captured group 1.  [\s] and [\d] are disjoint, so the greedy [\s*]
    never has to give a byte back. *)
Definition match_here (l : bytes) : option bytes :=
  if istarts_with CONTENT_LENGTH l then
    match take_while is_digit
            (drop_while is_space (drop (length CONTENT_LENGTH) l)) with
    | [] => None
    | ds => Some ds
    end
  else None.

(** [REQ_RE_LEN.search]: the leftmost match.  With [re.MULTILINE], [^]
    holds at the start of the buffer and right after every [\n]. *)
Fixpoint search_from (line_start : bool) (l : bytes) : option bytes :=
  match (if line_start then match_here l else None) with
  | Some g => Some g
  | None =>
      match l with
      | [] => None
      | c :: l' => search_from (Byte.eqb c x0a) l'
      end
  end.

Definition REQ_RE_LEN_search (data : bytes) : option bytes :=
  search_from true data.

(** [int(ds.decode())] for a run of ASCII digits. *)
Definition digit_val (c : byte) : Z := Z.of_N (Byte.to_N c) - 48.

Definition int_of_digits (ds : bytes) : Z :=
  fold_left (fun acc c => 10 * acc + digit_val c) ds 0.

(** ** Python values and exceptions *)

Inductive exn :=
  | ValueError | TypeError | AttributeError | IndexError
  | JSONDecodeError | UnicodeDecodeError
  | ZeroDivisionError | OverflowError | ConnectionResetError.

(** What [orjson.loads] can return.  A Python [float] is an IEEE 754
    binary64 number, kept in the canonical form of [prec = 53],
    [emax = 1024]; a [str] is kept as its UTF-8 text. *)
Inductive pyobj :=
  | PNone
  | PBool (b : bool)
  | PInt (z : Z)
  | PFloat (f : spec_float)
  | PStr (s : string)
  | PList (l : list pyobj)
  | PDict (d : list (string * pyobj)).

(** The error monad of expressions that may raise. *)
Definition raising (A : Type) : Type := exn + A.

#[global] Instance raising_ret : MRet raising := fun A a => inr a.
#[global] Instance raising_bind : MBind raising := fun A B k m =>
  match m with
  | inl e => inl e
  | inr a => k a
  end.

(** *** Floats *)

Definition f64_add : spec_float -> spec_float -> spec_float := SFadd 53 1024.
Definition f64_div : spec_float -> spec_float -> spec_float := SFdiv 53 1024.

(** [float(z)] rounded to nearest, ties to even. *)
Definition f64_of_Z (z : Z) : spec_float := binary_normalize 53 1024 z 0 false.

Definition f64_zero : spec_float := S754_zero false.

(** Storing a Python float into a [c_float] (typecode ["f"]) is the C cast
    [(float)x]: rounding to binary32. *)
Definition c_float_set (x : spec_float) : spec_float :=
  match x with
  | S754_finite s m e => binary_round 24 128 s m e
  | _ => x
  end.

(** Reading a [c_float] gives the Python float of the same value. *)
Definition c_float_get (x : spec_float) : spec_float :=
  match x with
  | S754_finite s m e => binary_round 53 1024 s m e
  | _ => x
  end.

(** Storing a Python int into a [c_int] (typecode ["i"]) keeps the low 32
    bits, read back as a signed number; ctypes does no overflow check. *)
Definition c_int_set (v : Z) : Z := (v + 2^31) mod 2^32 - 2^31.

(** [x / n] for a float [x] and an int [n] that came out of a [c_int]:
    [n] converts to float exactly; a zero divisor raises. *)
Definition truediv (x : spec_float) (n : Z) : raising spec_float :=
  if n =? 0 then inl ZeroDivisionError else inr (f64_div x (f64_of_Z n)).

(** *** Equality and hashing of the values that can be set members *)

(** The integer a float is equal to, when there is one. *)
Definition float_to_Z (f : spec_float) : option Z :=
  match f with
  | S754_zero _ => Some 0
  | S754_finite s m e =>
      if 0 <=? e then Some (cond_Zopp s (Zpos m * 2 ^ e))
      else if Zpos m mod 2 ^ (- e) =? 0
           then Some (cond_Zopp s (Zpos m / 2 ^ (- e)))
           else None
  | _ => None
  end.

(** [bool], [int] and [float] compare by numeric value. *)
Definition num_of (o : pyobj) : option (Z + spec_float) :=
  match o with
  | PBool b => Some (inl (Z.b2z b))
  | PInt z => Some (inl z)
  | PFloat f => Some (inr f)
  | _ => None
  end.

Definition num_eq (a b : Z + spec_float) : bool :=
  match a, b with
  | inl x, inl y => x =? y
  | inl x, inr f | inr f, inl x =>
      match float_to_Z f with
      | Some y => x =? y
      | None => false
      end
  | inr f, inr g => SFeqb f g
  end.

(** [a == b] on hashable values ([None], numbers, strings); lists and
    dicts are unhashable and never reach a set. *)
Definition py_eq (a b : pyobj) : bool :=
  match a, b with
  | PNone, PNone => true
  | PStr s, PStr t => String.eqb s t
  | _, _ =>
      match num_of a, num_of b with
      | Some x, Some y => num_eq x y
      | _, _ => false
      end
  end.

(** CPython's numeric hash: reduction modulo the Mersenne prime
    [2^61 - 1], with [-1] replaced by [-2]. *)
Definition HASH_MODULUS : Z := 2^61 - 1.

Definition fix_hash (h : Z) : Z := if h =? -1 then -2 else h.

Definition hash_int (z : Z) : Z :=
  fix_hash (Z.sgn z * (Z.abs z mod HASH_MODULUS)).

(** A float equal to an integer hashes like that integer; the others hash
    [m * 2^e] modulo [2^61 - 1], where [2^61 = 1]. *)
Definition hash_float (f : spec_float) : Z :=
  match float_to_Z f with
  | Some z => hash_int z
  | None =>
      match f with
      | S754_finite s m e =>
          fix_hash (cond_Zopp s ((Zpos m * 2 ^ (e mod 61)) mod HASH_MODULUS))
      | S754_infinity s => cond_Zopp s 314159
      | _ => 0
      end
  end.

(** ** What the handler takes from the interpreter and from orjson

    [loads b] is [orjson.loads(b.decode())]; [hash_str] is the [str] hash
    of this process (seeded at start-up), [hash_none] is [hash(None)];
    [float_of_str] is [float(s)] on a string; [repr_float] is the text an
    f-string gives a float. *)
Record env := {
  loads : bytes -> raising pyobj;
  hash_str : string -> Z;
  hash_none : Z;
  float_of_str : string -> raising spec_float;
  repr_float : spec_float -> bytes
}.

Section Values.
Context (E : env).

(** [hash(o)] *)
Definition py_hash (o : pyobj) : raising Z :=
  match o with
  | PNone => inr (hash_none E)
  | PBool b => inr (hash_int (Z.b2z b))
  | PInt z => inr (hash_int z)
  | PFloat f => inr (hash_float f)
  | PStr s => inr (hash_str E s)
  | PList _ | PDict _ => inl TypeError
  end.

(** [float(o)] *)
Definition py_float (o : pyobj) : raising spec_float :=
  match o with
  | PBool b => inr (f64_of_Z (Z.b2z b))
  | PInt z =>
      match f64_of_Z z with
      | S754_infinity _ => inl OverflowError
      | f => inr f
      end
  | PFloat f => inr f
  | PStr s => float_of_str E s
  | PNone | PList _ | PDict _ => inl TypeError
  end.

(** The value a dict holds under [key], if any. *)
Fixpoint dict_lookup (key : string) (d : list (string * pyobj)) : option pyobj :=
  match d with
  | [] => None
  | (k, v) :: d' => if String.eqb k key then Some v else dict_lookup key d'
  end.

(** [o.get(key, default)]: only a dict has the method. *)
Definition py_get (o : pyobj) (key : string) (default : pyobj) : raising pyobj :=
  match o with
  | PDict d => inr (match dict_lookup key d with Some v => v | None => default end)
  | _ => inl AttributeError
  end.

End Values.

(** ** The connection's reader

    What the peer sends reaches [StreamReader.read] in deliveries; the
    connection may also break.  After the last delivery the peer has
    closed its side (end of file). *)

Inductive delivery :=
  | Data (bs : bytes)
  | Reset.

Definition reader := list delivery.

(** [await reader.read(n)] for [n > 0]: waits until some bytes are buffered
    or end of file, and returns at most [n] of the buffered bytes; the rest
    stays buffered.  At end of file it returns [b""].  The peer is taken
    to close its side after the last delivery, so the wait always ends;
    [await_read] below also has the peer that stays silent. *)
Fixpoint read (n : nat) (rd : reader) : raising bytes * reader :=
  match rd with
  | [] => (inr [], [])
  | Reset :: rd' => (inl ConnectionResetError, rd')
  | Data [] :: rd' => read n rd'
  | Data bs :: rd' =>
      (inr (take n bs),
       if (length bs <=? n)%nat then rd' else Data (drop n bs) :: rd')
  end.

(** ** Module state *)

Definition NUM_SHARDS : Z := 1024.

(** [req_total] is a [Value("i", 0)] and [req_sum] a [Value("f", 0)];
    [shards] are Python sets, kept as lists without two equal members;
    [locks] records which [asyncio.Lock] is held. *)
Record globals := {
  req_total : Z;
  req_sum : spec_float;
  shards : list (list pyobj);
  locks : list bool
}.

Definition initial : globals := {|
  req_total := 0;
  req_sum := S754_zero false;
  shards := replicate (Z.to_nat NUM_SHARDS) [];
  locks := replicate (Z.to_nat NUM_SHARDS) false
|}.

Definition set_req_total (v : Z) (g : globals) : globals :=
  {| req_total := c_int_set v; req_sum := req_sum g;
     shards := shards g; locks := locks g |}.

Definition set_req_sum (x : spec_float) (g : globals) : globals :=
  {| req_total := req_total g; req_sum := c_float_set x;
     shards := shards g; locks := locks g |}.

Definition set_shards (s : list (list pyobj)) (g : globals) : globals :=
  {| req_total := req_total g; req_sum := req_sum g;
     shards := s; locks := locks g |}.

Definition set_locks (l : list bool) (g : globals) : globals :=
  {| req_total := req_total g; req_sum := req_sum g;
     shards := shards g; locks := l |}.

(** ** Code that runs on the module state

    A stretch of the coroutine either returns, raises, or suspends on a
    lock that is held ([Blocked]); the module state it leaves is kept in
    every case. *)

Inductive result (A : Type) :=
  | Ok (a : A)
  | Raise (e : exn)
  | Blocked.
Arguments Ok {A} a.
Arguments Raise {A} e.
Arguments Blocked {A}.

Definition M (A : Type) : Type := globals -> result A * globals.

#[global] Instance M_ret : MRet M := fun A a g => (Ok a, g).
#[global] Instance M_bind : MBind M := fun A B k m g =>
  match m g with
  | (Ok a, g') => k a g'
  | (Raise e, g') => (Raise e, g')
  | (Blocked, g') => (Blocked, g')
  end.

#[global] Instance M_fmap : FMap M := fun A B f m g =>
  match m g with
  | (Ok a, g') => (Ok (f a), g')
  | (Raise e, g') => (Raise e, g')
  | (Blocked, g') => (Blocked, g')
  end.

Definition lift {A} (r : raising A) : M A := fun g =>
  match r with
  | inl e => (Raise e, g)
  | inr a => (Ok a, g)
  end.

Definition get : M globals := fun g => (Ok g, g).
Definition modify (f : globals -> globals) : M unit := fun g => (Ok tt, f g).

(** [try: m  except Exception: h] *)
Definition try_except {A} (m : M A) (h : M A) : M A := fun g =>
  match m g with
  | (Raise _, g') => h g'
  | r => r
  end.

(** ** The shard store *)

(** [s.add(u)] *)
Definition set_add (u : pyobj) (s : list pyobj) : list pyobj :=
  if existsb (py_eq u) s then s else s ++ [u].

Definition acquire (i : nat) : M unit := fun g =>
  match locks g !! i with
  | None => (Raise IndexError, g)
  | Some true => (Blocked, g)
  | Some false => (Ok tt, set_locks (<[i := true]> (locks g)) g)
  end.

Definition release (i : nat) : M unit :=
  modify (fun g => set_locks (<[i := false]> (locks g)) g).

(** [async with locks[i]: m]: the lock is given back on every way out. *)
Definition with_lock {A} (i : nat) (m : M A) : M A := fun g =>
  match acquire i g with
  | (Ok _, g1) => let '(r, g2) := m g1 in (r, snd (release i g2))
  | (Raise e, g1) => (Raise e, g1)
  | (Blocked, g1) => (Blocked, g1)
  end.

(** [shards[i].add(user_id)] *)
Definition shard_add (i : nat) (user_id : pyobj) : M unit := fun g =>
  match shards g !! i with
  | None => (Raise IndexError, g)
  | Some s => (Ok tt, set_shards (<[i := set_add user_id s]> (shards g)) g)
  end.

Section Service.
Context (E : env).

(** [shard_index(user_id)]; Python's [%] with a positive modulus is the
    floor remainder. *)
Definition shard_index (user_id : pyobj) : raising Z :=
  h ← py_hash E user_id; mret (h mod NUM_SHARDS).

Definition add_unique_user (user_id : pyobj) : M unit :=
  i ← lift (shard_index user_id);
  with_lock (Z.to_nat i) (shard_add (Z.to_nat i) user_id).

(** [sum(len(s) for s in shards)] *)
Definition unique_count (g : globals) : nat :=
  sum_list (length <$> shards g).

(** ** Responses *)

Definition QUOTE : bytes := [x22].

Definition HTTP_200_PREF : bytes :=
  lit "HTTP/1.1 200 OK" ++ CRLF ++
  lit "Content-Type: application/json" ++ CRLF ++
  lit "Connection: close" ++ CRLF ++
  lit "Content-Length: ".

Definition HTTP_404 : bytes :=
  lit "HTTP/1.1 404 Not Found" ++ CRLF ++
  lit "Connection: close" ++ CRLF ++
  lit "Content-Length: 9" ++ CRLF ++ CRLF ++
  lit "Not Found".

Definition HTTP_500 : bytes :=
  lit "HTTP/1.1 500 Internal Server Error" ++ CRLF ++
  lit "Connection: close" ++ CRLF ++
  lit "Content-Length: 21" ++ CRLF ++ CRLF ++
  lit "Internal Server Error".

Definition GET_STATS : bytes := lit "GET /stats ".
Definition POST_EVENT : bytes := lit "POST /event ".

(** [str(z).encode()] *)
Definition str_of_Z (z : Z) : bytes := lit (pretty z).

Definition field (name : string) (v : bytes) : bytes :=
  QUOTE ++ lit name ++ QUOTE ++ lit ":" ++ v.

(** The f-string of both success paths, with its four holes. *)
Definition format_stats (total : Z) (unique : nat) (sum avg : spec_float) : bytes :=
  lit "{" ++ field "totalRequests" (str_of_Z total) ++
  lit "," ++ field "uniqueUsers" (str_of_Z (Z.of_nat unique)) ++
  lit "," ++ field "sum" (repr_float E sum) ++
  lit "," ++ field "avg" (repr_float E avg) ++ lit "}".

Definition ok_response (body_response : bytes) : bytes :=
  HTTP_200_PREF ++ str_of_Z (Z.of_nat (length body_response)) ++
  CRLF ++ CRLF ++ body_response.

(** The success response both routes build from the module state and the
    average they have computed. *)
Definition stats_response (g : globals) (avg : spec_float) : bytes :=
  ok_response
    (format_stats (req_total g) (unique_count g) (c_float_get (req_sum g)) avg).

(** ** The handler *)

(** Lines 56-62, the [GET /stats] branch. *)
Definition get_stats : M bytes :=
  g ← get;
  avg ← lift (if negb (req_total g =? 0)
              then truediv (c_float_get (req_sum g)) (req_total g)
              else mret f64_zero);
  mret (stats_response g avg).

(** Lines 68-75: the body bytes that came with the headers and the number
    of bytes still owed.  Unpacking the [split] needs exactly two parts. *)
Definition parse_event (data_bin : bytes) : raising (bytes * Z) :=
  match split (CRLF ++ CRLF) data_bin with
  | [_; body_sofar] =>
      let content_length :=
        match REQ_RE_LEN_search data_bin with
        | Some ds => int_of_digits ds
        | None => 0
        end in
      mret (body_sofar, content_length - Z.of_nat (length body_sofar))
  | _ => inl ValueError
  end.

(** Lines 79-90: decode the body, update the aggregates, build the reply. *)
Definition post_event (body_sofar : bytes) : M bytes :=
  body ← lift (loads E body_sofar);
  user_id ← lift (py_get body "userId" PNone);
  add_unique_user user_id;;
  value ← lift (py_get body "value" (PInt 0));
  x ← lift (py_float E value);
  modify (fun g => set_req_sum (f64_add (c_float_get (req_sum g)) x) g);;
  modify (fun g => set_req_total (req_total g + 1) g);;
  g ← get;
  avg ← lift (truediv (c_float_get (req_sum g)) (req_total g));
  mret (stats_response g avg).

(** [handle(reader, writer)], lines 51-99 and 102: the response handed to
    [writer.write], on a connection whose reads all return.  The rest of
    the [finally] block is in [serve] below. *)
Definition handle (rd : reader) : M bytes :=
  try_except
    (let '(r, rd1) := read 2048 rd in
     data_bin ← lift r;
     if contains GET_STATS data_bin then get_stats
     else if contains POST_EVENT data_bin then
       try_except
         ('(body_sofar, remaining) ← lift (parse_event data_bin);
          body_sofar ← (if 0 <? remaining
                        then more ← lift (fst (read (Z.to_nat remaining) rd1));
                             mret (body_sofar ++ more)
                        else mret body_sofar);
          post_event body_sofar)
         (mret HTTP_500)
     else mret HTTP_404)
    (mret HTTP_500).

(** ** The handler as a coroutine

    [asyncio] runs every handler on one thread and switches between them
    only where one awaits something that is not ready: the two
    [reader.read] calls and the acquisition of a held lock.  A task is a
    handler stopped at such a point; [resume] runs it to the next one. *)

Inductive task :=
  | Accepted (rd : reader)
      (* line 52, in [reader.read(2048)] *)
  | ReadingBody (rd : reader) (body_sofar : bytes) (remaining : Z)
      (* line 77, in [reader.read(remaining)] *)
  | WaitingLock
      (* line 38, on a lock another task holds *)
  | Finished (response : bytes).
      (* the response is written and the connection closed *)

Definition settle (r : result task * globals) : task * globals :=
  match r with
  | (Ok t, g) => (t, g)
  | (Raise _, g) => (Finished HTTP_500, g)
  | (Blocked, g) => (WaitingLock, g)
  end.

Definition resume (t : task) (g : globals) : task * globals :=
  match t with
  | Accepted rd =>
      settle
        (try_except
           (let '(r, rd1) := read 2048 rd in
            data_bin ← lift r;
            if contains GET_STATS data_bin then Finished <$> get_stats
            else if contains POST_EVENT data_bin then
              try_except
                ('(body_sofar, remaining) ← lift (parse_event data_bin);
                 if 0 <? remaining
                 then mret (ReadingBody rd1 body_sofar remaining)
                 else Finished <$> post_event body_sofar)
                (mret (Finished HTTP_500))
            else mret (Finished HTTP_404))
           (mret (Finished HTTP_500)) g)
  | ReadingBody rd body_sofar remaining =>
      settle
        (try_except
           (try_except
              (more ← lift (fst (read (Z.to_nat remaining) rd));
               Finished <$> post_event (body_sofar ++ more))
              (mret (Finished HTTP_500)))
           (mret (Finished HTTP_500)) g)
  | WaitingLock => (WaitingLock, g)
  | Finished response => (Finished response, g)
  end.

Definition suspended (t : task) : bool :=
  match t with
  | Accepted _ | ReadingBody _ _ _ => true
  | WaitingLock | Finished _ => false
  end.

(** One turn of the event loop: some task whose awaited read is ready is
    resumed, on the module state as the previous turn left it. *)
Inductive turn : globals * list task -> globals * list task -> Prop :=
  | turn_resume g ts i t t' g' :
      ts !! i = Some t ->
      suspended t = true ->
      resume t g = (t', g') ->
      turn (g, ts) (g', <[i := t']> ts).

(** Handlers run one after the other, each to its end. *)
Fixpoint serial (rds : list reader) (g : globals) : list (result bytes) * globals :=
  match rds with
  | [] => ([], g)
  | rd :: rds' =>
      let '(r, g1) := handle rd g in
      let '(rs, g2) := serial rds' g1 in
      (r :: rs, g2)
  end.

(** The module states the service can be in: after any number of
    connections handled from the state at start-up. *)
Inductive reachable : globals -> Prop :=
  | reachable_initial : reachable initial
  | reachable_handle g rd r g' :
      reachable g -> handle rd g = (r, g') -> reachable g'.

(** ** What one connection does to the module state *)

(** The bytes [handle] hands to the JSON decoder, when it gets that far. *)
Definition request_body (rd : reader) : option bytes :=
  match read 2048 rd with
  | (inl _, _) => None
  | (inr data_bin, rd1) =>
      if contains GET_STATS data_bin then None
      else if contains POST_EVENT data_bin then
        match parse_event data_bin with
        | inl _ => None
        | inr (body_sofar, remaining) =>
            if 0 <? remaining then
              match fst (read (Z.to_nat remaining) rd1) with
              | inl _ => None
              | inr more => Some (body_sofar ++ more)
              end
            else Some body_sofar
        end
      else None
  end.

Inductive effect :=
  | Untouched
  | UserOnly (user_id : pyobj)
  | Applied (user_id : pyobj) (x : spec_float).

(** How far lines 79-82 get on a body. *)
Definition body_effect (b : bytes) : effect :=
  match loads E b with
  | inl _ => Untouched
  | inr body =>
      match py_get body "userId" PNone with
      | inl _ => Untouched
      | inr user_id =>
          match py_hash E user_id with
          | inl _ => Untouched
          | inr _ =>
              match py_get body "value" (PInt 0) ≫= py_float E with
              | inl _ => UserOnly user_id
              | inr x => Applied user_id x
              end
          end
      end
  end.

Definition effect_of (rd : reader) : effect :=
  match request_body rd with
  | Some b => body_effect b
  | None => Untouched
  end.

(** The store after [add_unique_user(user_id)] has run through. *)
Definition add_user (user_id : pyobj) (g : globals) : globals :=
  match shard_index user_id with
  | inl _ => g
  | inr i =>
      match shards g !! Z.to_nat i with
      | Some s =>
          set_shards (<[Z.to_nat i := set_add user_id s]> (shards g)) g
      | None => g
      end
  end.

Definition record_event (x : spec_float) (g : globals) : globals :=
  set_req_total (req_total g + 1)
    (set_req_sum (f64_add (c_float_get (req_sum g)) x) g).

Definition apply_effect (e : effect) (g : globals) : globals :=
  match e with
  | Untouched => g
  | UserOnly u => add_user u g
  | Applied u x => record_event x (add_user u g)
  end.

Definition is_applied (e : effect) : bool :=
  match e with
  | Applied _ _ => true
  | _ => false
  end.

(** Lines 84-90 on the state the update has left: the reply, unless the
    average divides by zero. *)
Definition reply (g : globals) : result bytes :=
  match truediv (c_float_get (req_sum g)) (req_total g) with
  | inl e => Raise e
  | inr avg => Ok (stats_response g avg)
  end.

(** ** Invariants of the module state *)

(** Both lists keep their [NUM_SHARDS] entries and no lock is held. *)
Record wf (g : globals) : Prop := {
  wf_shards : length (shards g) = Z.to_nat NUM_SHARDS;
  wf_locks : locks g = replicate (Z.to_nat NUM_SHARDS) false
}.

(** [u in s] *)
Definition member (u : pyobj) (s : list pyobj) : bool := existsb (py_eq u) s.

(** Every member sits in the shard its hash selects. *)
Definition placed (g : globals) : Prop :=
  forall i s u, shards g !! i = Some s -> In u s ->
    shard_index u = inr (Z.of_nat i).

(** No shard holds two equal members. *)
Fixpoint distinct (s : list pyobj) : Prop :=
  match s with
  | [] => True
  | u :: s' => member u s' = false /\ distinct s'
  end.

(** The range of a [c_int]. *)
Definition int32 (z : Z) : Prop := - 2 ^ 31 <= z < 2 ^ 31.

End Service.

(** ** A concrete interpreter and JSON decoder

    The handler above is stated over any [env].  To run it on request
    bytes, this module supplies one: a strict UTF-8 check followed by an
    RFC 8259 parser returning Python values the way [orjson.loads] does,
    [float(str)] on ASCII text, [repr(float)], and a [str] hash. *)
Module Runtime.

Definition byte_of_Z (z : Z) : byte :=
  match Byte.of_N (Z.to_N z) with
  | Some c => c
  | None => x00
  end.

Definition Z_of_byte (c : byte) : Z := Z.of_N (Byte.to_N c).

(** [bytes.decode()] accepts exactly well-formed UTF-8: no overlong forms,
    no surrogates, nothing above U+10FFFF. *)
Definition is_cont (c : byte) : bool := byte_in x80 xbf c.

Fixpoint utf8_valid (l : bytes) : bool :=
  match l with
  | [] => true
  | c0 :: l1 =>
      if byte_in x00 x7f c0 then utf8_valid l1
      else if byte_in xc2 xdf c0 then
        match l1 with
        | c1 :: l2 => is_cont c1 && utf8_valid l2
        | _ => false
        end
      else if byte_in xe0 xef c0 then
        match l1 with
        | c1 :: c2 :: l3 =>
            (if Byte.eqb c0 xe0 then byte_in xa0 xbf c1
             else if Byte.eqb c0 xed then byte_in x80 x9f c1
             else is_cont c1)
            && is_cont c2 && utf8_valid l3
        | _ => false
        end
      else if byte_in xf0 xf4 c0 then
        match l1 with
        | c1 :: c2 :: c3 :: l4 =>
            (if Byte.eqb c0 xf0 then byte_in x90 xbf c1
             else if Byte.eqb c0 xf4 then byte_in x80 x8f c1
             else is_cont c1)
            && is_cont c2 && is_cont c3 && utf8_valid l4
        | _ => false
        end
      else false
  end.

(** The UTF-8 form of a code point. *)
Definition utf8_encode (cp : Z) : bytes :=
  if cp <? 128 then [byte_of_Z cp]
  else if cp <? 2048 then
    [byte_of_Z (192 + cp / 64); byte_of_Z (128 + cp mod 64)]
  else if cp <? 65536 then
    [byte_of_Z (224 + cp / 4096); byte_of_Z (128 + (cp / 64) mod 64);
     byte_of_Z (128 + cp mod 64)]
  else
    [byte_of_Z (240 + cp / 262144); byte_of_Z (128 + (cp / 4096) mod 64);
     byte_of_Z (128 + (cp / 64) mod 64); byte_of_Z (128 + cp mod 64)].

(** *** Decimal text to binary64, correctly rounded *)

(** The float nearest to [d * 10^e10] for [d >= 0], with the sign [neg]. *)
Definition f64_of_decimal (neg : bool) (d e10 : Z) : spec_float :=
  if d =? 0 then S754_zero neg
  else if 0 <=? e10
       then binary_normalize 53 1024 (cond_Zopp neg (d * 10 ^ e10)) 0 false
       else let '(q, e, loc) :=
              SFdiv_core_binary 53 1024 d 0 (10 ^ (- e10)) 0 in
            binary_round_aux 53 1024 neg q e loc.

(** *** JSON *)

Definition json_ws (c : byte) : bool :=
  Byte.eqb c " " || Byte.eqb c x09 || Byte.eqb c x0a || Byte.eqb c x0d.

Definition hex_val (c : byte) : option Z :=
  if is_digit c then Some (Z_of_byte c - 48)
  else if byte_in "a" "f" c then Some (Z_of_byte c - 87)
  else if byte_in "A" "F" c then Some (Z_of_byte c - 55)
  else None.

(** Four hex digits. *)
Definition hex4 (l : bytes) : option (Z * bytes) :=
  match l with
  | a :: b :: c :: d :: l' =>
      a ← hex_val a; b ← hex_val b; c ← hex_val c; d ← hex_val d;
      Some (((a * 16 + b) * 16 + c) * 16 + d, l')
  | _ => None
  end.

(** One escape after the backslash: the bytes it stands for and how many
    input bytes it spans. *)
Definition parse_escape (l : bytes) : option (bytes * nat) :=
  match l with
  | [] => None
  | c :: l' =>
      if Byte.eqb c x22 then Some ([x22], 1%nat)
      else if Byte.eqb c x5c then Some ([x5c], 1%nat)
      else if Byte.eqb c "/" then Some ([c], 1%nat)
      else if Byte.eqb c "b" then Some ([x08], 1%nat)
      else if Byte.eqb c "f" then Some ([x0c], 1%nat)
      else if Byte.eqb c "n" then Some ([x0a], 1%nat)
      else if Byte.eqb c "r" then Some ([x0d], 1%nat)
      else if Byte.eqb c "t" then Some ([x09], 1%nat)
      else if Byte.eqb c "u" then
        '(hi, l1) ← hex4 l';
        if (55296 <=? hi) && (hi <=? 56319) then
          (* a high surrogate needs its low half *)
          match l1 with
          | b1 :: b2 :: l2 =>
              if Byte.eqb b1 x5c && Byte.eqb b2 "u" then
                '(lo, _) ← hex4 l2;
                if (56320 <=? lo) && (lo <=? 57343)
                then Some (utf8_encode
                             (65536 + (hi - 55296) * 1024 + (lo - 56320)),
                           11%nat)
                else None
              else None
          | _ => None
          end
        else if (56320 <=? hi) && (hi <=? 57343) then None
        else Some (utf8_encode hi, 5%nat)
      else None
  end.

(** The rest of a string after its opening quote. *)
Fixpoint parse_string (fuel : nat) (acc l : bytes) : option (string * bytes) :=
  match fuel with
  | O => None
  | S fuel' =>
      match l with
      | [] => None
      | c :: l' =>
          if Byte.eqb c x22 then Some (string_of_list_byte acc, l')
          else if Byte.eqb c x5c then
            '(bs, n) ← parse_escape l';
            parse_string fuel' (acc ++ bs) (drop n l')
          else if byte_in x00 x1f c then None
          else parse_string fuel' (acc ++ [c]) l'
      end
  end.

(** A number: an integer literal inside the 64-bit range is an [int],
    every other number a [float]; one too large for a float is refused. *)
Definition parse_number (l : bytes) : option (pyobj * bytes) :=
  let '(neg, l1) :=
    match l with
    | c :: l' => if Byte.eqb c "-" then (true, l') else (false, l)
    | [] => (false, l)
    end in
  let ip := take_while is_digit l1 in
  let l2 := drop_while is_digit l1 in
  if match ip with
     | [] => true
     | c :: _ :: _ => Byte.eqb c "0"
     | _ => false
     end then None
  else
    '(fp, l3) ←
      match l2 with
      | c :: l' =>
          if Byte.eqb c "." then
            match take_while is_digit l' with
            | [] => None
            | fp => Some (fp, drop_while is_digit l')
            end
          else Some ([], l2)
      | [] => Some ([], l2)
      end;
    '(ex, l4) ←
      match l3 with
      | c :: l' =>
          if Byte.eqb c "e" || Byte.eqb c "E" then
            let '(eneg, l'') :=
              match l' with
              | s :: r => if Byte.eqb s "-" then (true, r)
                          else if Byte.eqb s "+" then (false, r)
                          else (false, l')
              | [] => (false, l')
              end in
            match take_while is_digit l'' with
            | [] => None
            | ed => Some (Some (cond_Zopp eneg (int_of_digits ed)),
                          drop_while is_digit l'')
            end
          else Some (None, l3)
      | [] => Some (None, l3)
      end;
    let d := int_of_digits (ip ++ fp) in
    let z := cond_Zopp neg d in
    let is_int :=
      match fp, ex with
      | [], None => (- 2 ^ 63 <=? z) && (z <? 2 ^ 64)
      | _, _ => false
      end in
    if is_int then Some (PInt z, l4)
    else
      match f64_of_decimal neg d
              (match ex with Some e => e | None => 0 end
               - Z.of_nat (length fp)) with
      | S754_infinity _ => None
      | f => Some (PFloat f, l4)
      end.

(** [d[k] = v] *)
Fixpoint dict_set (k : string) (v : pyobj) (d : list (string * pyobj))
  : list (string * pyobj) :=
  match d with
  | [] => [(k, v)]
  | (k', v') :: d' =>
      if String.eqb k' k then (k', v) :: d' else (k', v') :: dict_set k v d'
  end.

Definition expect (c : byte) (l : bytes) : option bytes :=
  match l with
  | c' :: l' => if Byte.eqb c c' then Some l' else None
  | [] => None
  end.

Definition skip_ws : bytes -> bytes := drop_while json_ws.

Fixpoint parse_value (fuel depth : nat) (l : bytes) : option (pyobj * bytes) :=
  match fuel with
  | O => None
  | S fuel' =>
      let l := skip_ws l in
      match l with
      | [] => None
      | c :: l' =>
          if starts_with (lit "null") l then Some (PNone, drop 4 l)
          else if starts_with (lit "true") l then Some (PBool true, drop 4 l)
          else if starts_with (lit "false") l then Some (PBool false, drop 5 l)
          else if Byte.eqb c x22 then
            '(s, r) ← parse_string (S (length l')) [] l';
            Some (PStr s, r)
          else if Byte.eqb c "[" then
            match depth, skip_ws l' with
            | S depth', c1 :: r1 =>
                if Byte.eqb c1 "]" then Some (PList [], r1)
                else '(xs, r) ← parse_elems fuel' depth' l'; Some (PList xs, r)
            | _, _ => None
            end
          else if Byte.eqb c "{" then
            match depth, skip_ws l' with
            | S depth', c1 :: r1 =>
                if Byte.eqb c1 "}" then Some (PDict [], r1)
                else '(d, r) ← parse_members fuel' depth' [] l'; Some (PDict d, r)
            | _, _ => None
            end
          else parse_number l
      end
  end
with parse_elems (fuel depth : nat) (l : bytes) : option (list pyobj * bytes) :=
  match fuel with
  | O => None
  | S fuel' =>
      '(x, r) ← parse_value fuel' depth l;
      match skip_ws r with
      | c :: r' =>
          if Byte.eqb c "]" then Some ([x], r')
          else if Byte.eqb c "," then
            '(xs, r'') ← parse_elems fuel' depth r'; Some (x :: xs, r'')
          else None
      | [] => None
      end
  end
with parse_members (fuel depth : nat) (d : list (string * pyobj)) (l : bytes)
  : option (list (string * pyobj) * bytes) :=
  match fuel with
  | O => None
  | S fuel' =>
      r0 ← expect x22 (skip_ws l);
      '(k, r1) ← parse_string (S (length r0)) [] r0;
      r2 ← expect ":" (skip_ws r1);
      '(v, r3) ← parse_value fuel' depth r2;
      let d := dict_set k v d in
      match skip_ws r3 with
      | c :: r' =>
          if Byte.eqb c "}" then Some (d, r')
          else if Byte.eqb c "," then parse_members fuel' depth d r'
          else None
      | [] => None
      end
  end.

(** [orjson.loads(b.decode())]; orjson refuses a document whose arrays and
    objects are nested more than 1024 deep. *)
Definition json_loads (b : bytes) : raising pyobj :=
  if utf8_valid b then
    match parse_value (S (length b)) 1024 b with
    | Some (v, r) =>
        match skip_ws r with
        | [] => inr v
        | _ => inl JSONDecodeError
        end
    | None => inl JSONDecodeError
    end
  else inl UnicodeDecodeError.

(** *** [float(s)] on ASCII text *)

(** After a digit: [(["_"] digit)*]. *)
Fixpoint digitpart_rest (l : bytes) : bytes * bytes :=
  match l with
  | [] => ([], [])
  | c :: l' =>
      if is_digit c then
        let '(ds, r) := digitpart_rest l' in (c :: ds, r)
      else if Byte.eqb c "_" then
        match l' with
        | d :: l'' =>
            if is_digit d then
              let '(ds, r) := digitpart_rest l'' in (d :: ds, r)
            else ([], l)
        | [] => ([], l)
        end
      else ([], l)
  end.

Definition digitpart (l : bytes) : option (bytes * bytes) :=
  match l with
  | c :: l' =>
      if is_digit c then
        let '(ds, r) := digitpart_rest l' in Some (c :: ds, r)
      else None
  | [] => None
  end.

(** [float] drops the ASCII white space around the number: space and
    [\t] to [\r], not the separators [\x1c] to [\x1f]. *)
Definition strip (l : bytes) : bytes :=
  rev (drop_while is_space (rev (drop_while is_space l))).

Definition ieq (p l : bytes) : bool :=
  (length p =? length l)%nat && istarts_with p l.

Definition take_sign (l : bytes) : bool * bytes :=
  match l with
  | c :: l' => if Byte.eqb c "-" then (true, l')
               else if Byte.eqb c "+" then (false, l')
               else (false, l)
  | [] => (false, l)
  end.

Definition py_float_of_str (s : string) : raising spec_float :=
  let '(neg, l) := take_sign (strip (list_byte_of_string s)) in
  if ieq (lit "inf") l || ieq (lit "infinity") l then inr (S754_infinity neg)
  else if ieq (lit "nan") l then inr S754_nan
  else
    let '(ip, l1) :=
      match digitpart l with
      | Some r => r
      | None => ([], l)
      end in
    let '(fp, l2) :=
      match l1 with
      | c :: r =>
          if Byte.eqb c "." then
            match digitpart r with
            | Some r' => r'
            | None => ([], r)
            end
          else ([], l1)
      | [] => ([], l1)
      end in
    match ip ++ fp with
    | [] => inl ValueError
    | ds =>
        let ex :=
          match l2 with
          | [] => Some 0
          | c :: r =>
              if Byte.eqb c "e" || Byte.eqb c "E" then
                let '(eneg, r') := take_sign r in
                match digitpart r' with
                | Some (ed, []) => Some (cond_Zopp eneg (int_of_digits ed))
                | _ => None
                end
              else None
          end in
        match ex with
        | Some e =>
            inr (f64_of_decimal neg (int_of_digits ds)
                   (e - Z.of_nat (length fp)))
        | None => inl ValueError
        end
    end.

(** *** [repr(x)]: the shortest digits that read back as [x] *)

(** [v = num / den > 0]; the least [k] with [v < 10^k], searched upwards
    from a [k] known to be below it. *)
Fixpoint decpt_from (fuel : nat) (num den k : Z) : Z :=
  match fuel with
  | O => k
  | S fuel' =>
      if 0 <=? k
      then if num <? den * 10 ^ k then k else decpt_from fuel' num den (k + 1)
      else if num * 10 ^ (- k) <? den then k
           else decpt_from fuel' num den (k + 1)
  end.

Definition scaled (num den e10 : Z) : Z * Z :=
  if 0 <=? e10 then (num * 10 ^ e10, den) else (num, den * 10 ^ (- e10)).

(** The [p]-digit candidates around [num/den] whose exponent of the last
    digit is [k - p], and the one, if any, that reads back as [x]. *)
Definition try_digits (x : spec_float) (num den k : Z) (p : Z) : option (Z * Z) :=
  let '(n, d) := scaled num den (p - k) in
  let lo := n / d in
  let r := n mod d in
  let reads D :=
    match f64_of_decimal false D (k - p), x with
    | S754_finite _ m1 e1, S754_finite _ m2 e2 =>
        Pos.eqb m1 m2 && (e1 =? e2)
    | _, _ => false
    end in
  let up := (d <? 2 * r) || ((d =? 2 * r) && Z.odd lo) in
  if r =? 0 then if reads lo then Some (lo, k - p) else None
  else
    match reads lo, reads (lo + 1) with
    | true, true => Some (if up then lo + 1 else lo, k - p)
    | true, false => Some (lo, k - p)
    | false, true => Some (lo + 1, k - p)
    | false, false => None
    end.

Fixpoint shortest (fuel : nat) (x : spec_float) (num den k p : Z) : Z * Z :=
  match fuel with
  | O => (0, 0)
  | S fuel' =>
      match try_digits x num den k p with
      | Some r => r
      | None => shortest fuel' x num den k (p + 1)
      end
  end.

(** Drop trailing zeros of [D], raising the exponent. *)
Fixpoint strip_zeros (fuel : nat) (D e10 : Z) : Z * Z :=
  match fuel with
  | O => (D, e10)
  | S fuel' =>
      if (D mod 10 =? 0) && negb (D =? 0)
      then strip_zeros fuel' (D / 10) (e10 + 1)
      else (D, e10)
  end.

Definition zeros (n : Z) : bytes := replicate (Z.to_nat n) ("0"%byte).

Definition py_repr_float (x : spec_float) : bytes :=
  match x with
  | S754_nan => lit "nan"
  | S754_infinity s => (if s then lit "-" else []) ++ lit "inf"
  | S754_zero s => (if s then lit "-" else []) ++ lit "0.0"
  | S754_finite s m e =>
      let '(num, den) :=
        if 0 <=? e then (Zpos m * 2 ^ e, 1) else (Zpos m, 2 ^ (- e)) in
      (* [2^(bits-1) <= v < 2^bits], and [log10 2 < 0.30103] *)
      let bits := Zpos (digits2_pos m) + e in
      let k := decpt_from 8 num den (bits * 30103 / 100000 - 1) in
      let '(D, e10) :=
        let '(D, e10) := shortest 17 x num den k 1 in
        strip_zeros 20 D e10 in
      let ds := str_of_Z D in
      let n := Z.of_nat (length ds) in
      let decpt := n + e10 in
      (if s then lit "-" else []) ++
      (if (decpt <=? -4) || (16 <? decpt) then
         take 1 ds ++
         (match drop 1 ds with
          | [] => []
          | fr => lit "." ++ fr
          end) ++ lit "e" ++
         (let ex := decpt - 1 in
          (if ex <? 0 then lit "-" else lit "+") ++
          (if Z.abs ex <? 10 then lit "0" else []) ++ str_of_Z (Z.abs ex))
       else if decpt <=? 0 then lit "0." ++ zeros (- decpt) ++ ds
       else if n <=? decpt then ds ++ zeros (decpt - n) ++ lit ".0"
       else take (Z.to_nat decpt) ds ++ lit "." ++ drop (Z.to_nat decpt) ds)
  end.

(** *** A [str] hash

    CPython seeds its string hash (SipHash) when the process starts, so
    the hash of a string differs from process to process.  FNV-1a over the
    UTF-8 bytes, read as a signed 64-bit number, stands in for the hash of
    one process: the shard a string falls into under it is that of this
    stand-in, and the general statements are over any [hash_str]. *)
Definition fnv1a (l : bytes) : Z :=
  fold_left
    (fun h c => (Z.lxor h (Z_of_byte c) * 1099511628211) mod 2 ^ 64)
    l 14695981039346656037.

Definition py_hash_str (s : string) : Z :=
  let h := fnv1a (list_byte_of_string s) in
  fix_hash (if h <? 2 ^ 63 then h else h - 2 ^ 64).

Definition cpython : env := {|
  loads := json_loads;
  hash_str := py_hash_str;
  hash_none := 4238894112;
  float_of_str := py_float_of_str;
  repr_float := py_repr_float
|}.

End Runtime.

(** ** Requests as a client sends them *)
Module Client.

Definition json_str (s : string) : bytes := QUOTE ++ lit s ++ QUOTE.

(** [{"userId":"<user>","value":<value>}] *)
Definition event (user : string) (value : bytes) : bytes :=
  lit "{" ++ json_str "userId" ++ lit ":" ++ json_str user ++ lit "," ++
  json_str "value" ++ lit ":" ++ value ++ lit "}".

(** The head of a [POST /event] request announcing [n] body bytes. *)
Definition post_head (n : nat) : bytes :=
  lit "POST /event HTTP/1.1" ++ CRLF ++
  lit "Host: 127.0.0.1:8080" ++ CRLF ++
  lit "Content-Type: application/json" ++ CRLF ++
  lit "Content-Length: " ++ str_of_Z (Z.of_nat n) ++ CRLF ++ CRLF.

Definition post (body : bytes) : bytes := post_head (length body) ++ body.

Definition get (path : string) : bytes :=
  lit "GET " ++ lit path ++ lit " HTTP/1.1" ++ CRLF ++
  lit "Host: 127.0.0.1:8080" ++ CRLF ++ CRLF.

(** A connection on which the whole request arrives at once. *)
Definition send (request : bytes) : reader := [Data request].

End Client.

(** ** Connections used as examples *)
Module Scenario.
Import Runtime.

Definition write (user : string) (value : string) : reader :=
  Client.send (Client.post (Client.event user (lit value))).

Definition stats : reader := Client.send (Client.get "/stats").

Definition unknown : reader := Client.send (Client.get "/health").

(** The peer resets the connection before sending anything. *)
Definition broken : reader := [Reset].

(** A write whose [value] is [null]. *)
Definition bad_value : reader := write "carol" "null".

(** A write whose body is the empty object. *)
Definition no_fields : reader := Client.send (Client.post (lit "{}")).

(** A write whose JSON has a blank line between two tokens. *)
Definition blank_line_body : bytes :=
  lit "{" ++ Client.json_str "userId" ++ lit ":" ++ Client.json_str "alice" ++
  lit "," ++ CRLF ++ CRLF ++ Client.json_str "value" ++ lit ":10}".

Definition blank_line : reader := Client.send (Client.post blank_line_body).

(** One write whose 29 body bytes reach the service in three deliveries:
    10 with the headers, 10 more, then the last 9. *)
Definition alice_10 : bytes := Client.event "alice" (lit "10").

Definition three_deliveries : reader :=
  [Data (Client.post_head (length alice_10) ++ take 10 alice_10);
   Data (take 10 (drop 10 alice_10));
   Data (drop 20 alice_10)].

(** The same bytes with the rest of the body in one delivery. *)
Definition two_deliveries : reader :=
  [Data (Client.post_head (length alice_10) ++ take 10 alice_10);
   Data (drop 10 alice_10)].

(** A write whose body starts with a line break, so that the blank line
    after the headers is followed by one more [\r\n]. *)
Definition leading_break : reader :=
  Client.send (Client.post (CRLF ++ Client.event "alice" (lit "10"))).

(** A write whose [value] is a string that is not a number. *)
Definition text_value : reader :=
  Client.send
    (Client.post (Client.event "dave" (Client.json_str "ten"))).

End Scenario.

(** ** Counting responses *)

(** A response with the success status line. *)
Definition is_200 (r : result bytes) : bool :=
  match r with
  | Ok response => starts_with HTTP_200_PREF response
  | _ => false
  end.

(** One more connection sending [rd]'s bytes, keeping track of whether
    every response so far was a success. *)
Definition again (E : env) (rd : reader) (st : bool * globals) : bool * globals :=
  let '(r, g') := handle E rd st.2 in (st.1 && is_200 r, g').

(** ** Schedules *)

(** The [i]-th of the connections [rds]. *)
Definition pick (rds : list reader) (i : nat) : reader :=
  match rds !! i with
  | Some rd => rd
  | None => []
  end.

Definition finished (t : task) : bool :=
  match t with
  | Finished _ => true
  | _ => false
  end.

(** The turns a task still needs at most. *)
Definition turns_left (t : task) : nat :=
  match t with
  | Accepted _ => 2
  | ReadingBody _ _ _ => 1
  | WaitingLock | Finished _ => 0
  end.

(** Where the handler of connection [rd] can be stopped: before its first
    read, or before its second read with what the first one gave it, or at
    its end.  It is never found waiting for a lock. *)
Definition task_of (rd : reader) (t : task) : Prop :=
  match t with
  | Accepted rd' => rd' = rd
  | ReadingBody rd1 body_sofar remaining =>
      exists data,
        read 2048 rd = (inr data, rd1) /\
        contains GET_STATS data = false /\ contains POST_EVENT data = true /\
        parse_event data = inr (body_sofar, remaining) /\ 0 < remaining
  | WaitingLock => False
  | Finished _ => True
  end.

(** The handlers of [rds], started together on the state [g0], have
    reached the system [sys] when those that are finished, taken in the
    [order] in which they finished, account for the module state and for
    the responses as if they had run one after the other. *)
Record serialised (E : env) (rds : list reader) (g0 : globals)
    (sys : globals * list task) (order : list nat) : Prop := {
  ser_nodup : NoDup order;
  ser_wf : wf sys.1;
  ser_state : (serial E (pick rds <$> order) g0).2 = sys.1;
  ser_length : length sys.2 = length rds;
  ser_tasks : forall i rd t,
    rds !! i = Some rd -> sys.2 !! i = Some t ->
    task_of rd t /\ (finished t = true <-> i ∈ order);
  ser_responses : forall k i,
    order !! k = Some i ->
    exists response,
      sys.2 !! i = Some (Finished response) /\
      (serial E (pick rds <$> order) g0).1 !! k = Some (Ok response)
}.

(** The turn of task [i], if it is waiting for a read. *)
Definition turn_at (E : env) (i : nat) (sys : globals * list task)
  : option (globals * list task) :=
  match sys.2 !! i with
  | Some t =>
      if suspended t
      then Some ((resume E t sys.1).2, <[i := (resume E t sys.1).1]> sys.2)
      else None
  | None => None
  end.

(** A schedule given by the tasks that take the turns, in order. *)
Fixpoint schedule (E : env) (turns : list nat) (sys : globals * list task)
  : option (globals * list task) :=
  match turns with
  | [] => Some sys
  | i :: turns' =>
      match turn_at E i sys with
      | Some sys' => schedule E turns' sys'
      | None => None
      end
  end.

(** Two clients at once: the first sends its body in two deliveries, the
    second sends everything at once and is served between the two reads of
    the first. *)
Module Concurrent.

Definition two_clients : list reader :=
  [Scenario.two_deliveries; Scenario.write "bob" "1"].

Definition interleaved : globals * list task :=
  match schedule Runtime.cpython [0; 1; 0]%nat
          (initial, Accepted <$> two_clients) with
  | Some sys => sys
  | None => (initial, [])
  end.

End Concurrent.

(** The state after [n] connections that each send [rd]'s bytes, starting
    from the state at start-up, with the flag of [again]. *)
Definition writes (E : env) (rd : reader) (n : N) : bool * globals :=
  N.iter n (again E rd) (true, initial).

(** The connections among [rds] whose event is applied in full. *)
Definition applied_count (E : env) (rds : list reader) : nat :=
  length (filter (fun rd => is_applied (effect_of E rd) = true) rds).

(** ** The whole coroutine

    [read] and [handle] describe a connection whose peer closes its side
    after its last delivery, up to the response handed to [writer.write].
    Here the peer may also keep the connection open and stay silent, and
    the [finally] block of lines 101-108 is included. *)

(** Nothing is buffered and nothing more is delivered. *)
Definition exhausted (rd : reader) : bool :=
  forallb (fun d => match d with Data [] => true | _ => false end) rd.

(** [await reader.read(n)] when the peer, after its last delivery, closes
    its side ([closes]) or stays silent; a read that then finds nothing
    buffered returns [b""] in the first case and never returns in the
    second. *)
Fixpoint await_read (closes : bool) (n : nat) (rd : reader)
  : result bytes * reader :=
  match rd with
  | [] => (if closes then Ok [] else Blocked, [])
  | Reset :: rd' => (Raise ConnectionResetError, rd')
  | Data [] :: rd' => await_read closes n rd'
  | Data bs :: rd' =>
      (Ok (take n bs),
       if (length bs <=? n)%nat then rd' else Data (drop n bs) :: rd')
  end.

(** An awaited call that returns, raises or never returns. *)
Definition awaited {A} (r : result A) : M A := fun g => (r, g).

(** Lines 51-99: the [try] block with its [except]. *)
Definition respond (E : env) (closes : bool) (rd : reader) : M bytes :=
  try_except
    (let '(r, rd1) := await_read closes 2048 rd in
     data_bin ← awaited r;
     if contains GET_STATS data_bin then get_stats E
     else if contains POST_EVENT data_bin then
       try_except
         ('(body_sofar, remaining) ← lift (parse_event data_bin);
          body_sofar ← (if 0 <? remaining
                        then more ← awaited
                               (fst (await_read closes (Z.to_nat remaining) rd1));
                             mret (body_sofar ++ more)
                        else mret body_sofar);
          post_event E body_sofar)
         (mret HTTP_500)
     else mret HTTP_404)
    (mret HTTP_500).

(** What the two awaits on the writer come to.  [writer.write] and
    [writer.close] only pass the bytes and the request on to the
    transport. *)
Record writer := {
  drain : result unit;
  wait_closed : result unit
}.

(** What has become of a connection: the bytes handed to [writer.write],
    and how the coroutine ended. *)
Record served := {
  written : option bytes;
  ended : result unit
}.

(** [handle(reader, writer)], lines 47-108.  [await writer.drain()] is
    outside every [try]; what [writer.wait_closed()] raises is dropped. *)
Definition serve (E : env) (closes : bool) (rd : reader) (w : writer)
    (g : globals) : served * globals :=
  match respond E closes rd g with
  | (Ok response, g') =>
      ({| written := Some response;
          ended := match drain w with
                   | Ok _ =>
                       match wait_closed w with
                       | Blocked => Blocked
                       | _ => Ok tt
                       end
                   | r => r
                   end |}, g')
  | (Raise e, g') => ({| written := None; ended := Raise e |}, g')
  | (Blocked, g') => ({| written := None; ended := Blocked |}, g')
  end.

Module Peer.
(** A peer that connects and sends nothing. *)
Definition silent : reader := [].

(** A writer whose connection is reset before the response is drained. *)
Definition reset_writer : writer :=
  {| drain := Raise ConnectionResetError; wait_closed := Ok tt |}.

Definition good_writer : writer := {| drain := Ok tt; wait_closed := Ok tt |}.
End Peer.

(** ** Where a request has no length header

    [header_free line_start l]: no line of [l] begins with the header name
    of [REQ_RE_LEN], in any case, and the last line of [l] cannot grow into
    one either: at every line start of [l] the bytes that follow differ
    from [Content-Length:] somewhere inside [l]. *)

Fixpoint imismatch (p l : bytes) : bool :=
  match p, l with
  | x :: p', y :: l' => negb (Byte.eqb (lower x) (lower y)) || imismatch p' l'
  | _, _ => false
  end.

Fixpoint header_free (line_start : bool) (l : bytes) : bool :=
  match l with
  | [] => true
  | c :: l' =>
      (if line_start then imismatch CONTENT_LENGTH l else true) &&
      header_free (Byte.eqb c x0a) l'
  end.

(** ** More connections used as examples *)
Module Edge.

(** A write for a user whose name is the marker of the statistics route. *)
Definition marker_in_body : reader :=
  Client.send (Client.post (Client.event "GET /stats " (lit "1"))).

(** A write whose [userId] is a JSON array. *)
Definition list_user_body : bytes :=
  lit "{" ++ Client.json_str "userId" ++ lit ":[1]," ++
  Client.json_str "value" ++ lit ":1}".

Definition list_user : reader := Client.send (Client.post list_user_body).

(** A request head with the length header in another case and with more
    blanks. *)
Definition loose_header : bytes :=
  (lit "POST /event HTTP/1.1" ++ CRLF) ++ lit "content-LENGTH:" ++ lit "   " ++
  lit "12" ++ CRLF.

End Edge.

(** * rust-service/load_test.py: the load-test client

    The counters of [LoadTestClient] and the code that changes them:
    [send_event], [run_batch], [get_stats] and the batching of
    [run_load_test].  What the network does is given from outside; the
    random events of [generate_event], printing and timing are left out. *)
Module LoadTest.

(** The three counters a [LoadTestClient] keeps; Python ints do not
    overflow. *)
Record client := {
  total_requests : Z;
  successful_requests : Z;
  failed_requests : Z
}.

(** [LoadTestClient()] *)
Definition init : client :=
  {| total_requests := 0; successful_requests := 0; failed_requests := 0 |}.

Definition count_total (c : client) : client :=
  {| total_requests := total_requests c + 1;
     successful_requests := successful_requests c;
     failed_requests := failed_requests c |}.

Definition count_successful (c : client) : client :=
  {| total_requests := total_requests c;
     successful_requests := successful_requests c + 1;
     failed_requests := failed_requests c |}.

Definition count_failed (c : client) : client :=
  {| total_requests := total_requests c;
     successful_requests := successful_requests c;
     failed_requests := failed_requests c + 1 |}.

(** What [session.post] makes of one event: it raises before any response
    has arrived (connection refused, timeout), or a response with some
    status arrives and the body of the [async with] runs; leaving the
    block then either succeeds or raises in its turn. *)
Inductive answer :=
  | NoResponse
  | Response (status : Z) (released : bool).

(** [send_event(session, event)]: the value returned and the counters.
    An exception raised on the way out of the [async with] replaces the
    value being returned and is caught by the same [except]. *)
Definition send_event (a : answer) (c : client) : bool * client :=
  match a with
  | NoResponse => (false, count_failed c)
  | Response status released =>
      let c1 := count_total c in
      let '(r, c2) :=
        if status =? 200 then (true, count_successful c1)
        else (false, count_failed c1) in
      if released then (r, c2) else (false, count_failed c2)
  end.

(** [asyncio.gather] over coroutines that each get their answer: the
    values in the order of the tasks.  The coroutines touch the counters
    only by [+= 1], with no [await] inside an increment, so the order in
    which the answers arrive does not matter to the counters. *)
Fixpoint gather (answers : list answer) (c : client) : list bool * client :=
  match answers with
  | [] => ([], c)
  | a :: answers' =>
      let '(r, c1) := send_event a c in
      let '(rs, c2) := gather answers' c1 in
      (r :: rs, c2)
  end.

(** [run_batch(session, batch_size)], the [j]-th request of the batch
    being answered by [net j]; [range] of a negative number is empty. *)
Definition run_batch (net : nat -> answer) (batch_size : Z) (c : client)
  : list bool * client :=
  gather (net <$> seq 0 (Z.to_nat batch_size)) c.

(** Line 79; [//] is the floor division and raises on a zero divisor. *)
Definition num_batches (total_requests batch_size : Z) : raising Z :=
  if batch_size =? 0 then inl ZeroDivisionError
  else inr ((total_requests + batch_size - 1) / batch_size).

(** The batches [first, first + n) one after the other. *)
Fixpoint run_batches (net : nat -> nat -> answer) (batch_size : Z)
    (first n : nat) (c : client) : client :=
  match n with
  | O => c
  | S n' =>
      run_batches net batch_size (S first) n' (run_batch (net first) batch_size c).2
  end.

(** What the [GET /stats] of [get_stats] comes to: the request or the
    decoding of the response raises, with the text [str(e)] of the
    exception, or a response arrives with its status and, for use when the
    status is 200, the value [response.json()] returns. *)
Inductive stats_answer :=
  | StatsFailed (message : string)
  | StatsResponse (status : Z) (json : pyobj).

(** [get_stats()] *)
Definition get_stats (a : stats_answer) : pyobj :=
  match a with
  | StatsFailed message => PDict [("error", PStr message)]
  | StatsResponse status json =>
      if status =? 200 then json
      else PDict [("error", PStr ("HTTP " +:+ pretty status))]
  end.

(** ["error" in test_stats]: a key of a dict, an element of a list, a
    substring of a string; the other JSON values are no containers. *)
Definition has_error (test_stats : pyobj) : raising bool :=
  match test_stats with
  | PDict d => inr (bool_decide (is_Some (dict_lookup "error" d)))
  | PList l => inr (existsb (py_eq (PStr "error")) l)
  | PStr s => inr (contains (lit "error") (lit s))
  | _ => inl TypeError
  end.

(** [run_load_test(total_requests, batch_size, max_concurrent)] as far as
    the counters go.  [stats] answers the connectivity test of line 87,
    [net i j] answers request [j] of batch [i].  [asyncio.Semaphore]
    refuses a negative value; with the value 0 no batch ever gets past
    [async with semaphore] and the [gather] of line 104 never returns.
    When ["error"] is found in [test_stats], line 89 takes
    [test_stats['error']], which only a dict allows. *)
Definition run_load_test (stats : stats_answer) (net : nat -> nat -> answer)
    (total batch_size max_concurrent : Z) (c : client) : result unit * client :=
  if max_concurrent <? 0 then (Raise ValueError, c)
  else
    match num_batches total batch_size with
    | inl e => (Raise e, c)
    | inr n =>
        match has_error (get_stats stats) with
        | inl e => (Raise e, c)
        | inr true =>
            match get_stats stats with
            | PDict _ => (Ok tt, c)
            | _ => (Raise TypeError, c)
            end
        | inr false =>
            if (0 <? n) && (max_concurrent =? 0) then (Blocked, c)
            else (Ok tt, run_batches net batch_size 0 (Z.to_nat n) c)
        end
    end.

(** How many of the answers are of a kind. *)
Definition answered (a : answer) : bool :=
  match a with
  | Response _ _ => true
  | NoResponse => false
  end.

Definition raised (a : answer) : bool :=
  match a with
  | Response _ released => negb released
  | NoResponse => true
  end.

Definition accepted (a : answer) : bool :=
  match a with
  | Response status _ => status =? 200
  | NoResponse => false
  end.

Definition how_many {A} (f : A -> bool) (l : list A) : Z :=
  Z.of_nat (length (filter (fun a => f a = true) l)).

End LoadTest.

(** * Properties *)

(** ** Byte strings *)

Lemma starts_with_app (p l : bytes) : starts_with p (p ++ l) = true.
Proof.
  induction p as [|x p IH]; simpl; [done|].
  by rewrite IH, (Byte.byte_dec_lb (eq_refl x)).
Qed.

Lemma starts_with_inv (p l : bytes) :
  starts_with p l = true -> l = p ++ drop (length p) l.
Proof.
  revert l. induction p as [|x p IH]; intros [|y l]; simpl; try done.
  intros [Hxy Hp]%andb_prop. apply Byte.byte_dec_bl in Hxy as ->.
  f_equal. by apply IH.
Qed.

Lemma contains_app (p h t : bytes) : contains p (h ++ p ++ t) = true.
Proof.
  induction h as [|x h IH]; simpl.
  - destruct (p ++ t) eqn:Hpt; simpl.
    + destruct p; [done | discriminate].
    + rewrite <- Hpt, starts_with_app. done.
  - rewrite IH. apply orb_true_r.
Qed.

Lemma contains_inv (p l : bytes) :
  contains p l = true -> exists h t, l = h ++ p ++ t.
Proof.
  induction l as [|x l IH]; simpl.
  - rewrite orb_false_r. intros H%starts_with_inv. exists [], (drop (length p) []).
    done.
  - intros [H|H]%orb_prop.
    + apply starts_with_inv in H. exists [], (drop (length p) (x :: l)). done.
    + destruct (IH H) as (h & t & ->). by exists (x :: h), t.
Qed.

Lemma partition_Some (sep l h t : bytes) :
  partition sep l = Some (h, t) -> l = h ++ sep ++ t.
Proof.
  revert h t. induction l as [|x l IH]; intros h t; simpl.
  - destruct (starts_with sep []) eqn:Hs; [|done].
    intros [= <- <-]. by apply starts_with_inv in Hs.
  - destruct (starts_with sep (x :: l)) eqn:Hs.
    + intros [= <- <-]. by apply starts_with_inv in Hs.
    + destruct (partition sep l) as [[h' t']|] eqn:Hp; [|done].
      intros [= <- <-]. simpl. f_equal. by apply IH.
Qed.

Lemma partition_None (sep l : bytes) :
  partition sep l = None <-> contains sep l = false.
Proof.
  induction l as [|x l IH]; simpl.
  - destruct (starts_with sep []); simpl; split; congruence.
  - destruct (starts_with sep (x :: l)); simpl; [split; congruence|].
    rewrite <- IH. destruct (partition sep l) as [[??]|]; split; congruence.
Qed.

Lemma partition_nil (sep : bytes) : sep <> [] -> partition sep [] = None.
Proof. by destruct sep. Qed.

Lemma partition_shorter (sep l h t : bytes) :
  sep <> [] -> partition sep l = Some (h, t) -> (length t < length l)%nat.
Proof.
  intros Hsep ->%partition_Some. rewrite !length_app.
  destruct sep; [done|]. simpl. lia.
Qed.

(** Any fuel that covers the length of the input gives the same parts:
    [split] has run to its end. *)
Lemma split_n_enough (sep : bytes) (f1 f2 : nat) (l : bytes) :
  sep <> [] -> (length l <= f1)%nat -> (length l <= f2)%nat ->
  split_n f1 sep l = split_n f2 sep l.
Proof.
  intros Hsep. revert f2 l.
  induction f1 as [|f1 IH]; intros f2 l H1 H2.
  - destruct l; [|simpl in H1; lia].
    destruct f2; cbn [split_n]; [done|]. by rewrite partition_nil.
  - destruct f2 as [|f2].
    + destruct l; [|simpl in H2; lia].
      cbn [split_n]. by rewrite partition_nil.
    + cbn [split_n].
      destruct (partition sep l) as [[h t]|] eqn:Hp; [|done].
      pose proof (partition_shorter _ _ _ _ Hsep Hp) as Hlt.
      f_equal. apply IH; lia.
Qed.

Lemma split_unfold (sep l : bytes) :
  sep <> [] ->
  split sep l =
  match partition sep l with
  | None => [l]
  | Some (h, t) => h :: split sep t
  end.
Proof.
  intros Hsep. unfold split. destruct l as [|x l].
  - cbn [split_n length]. by rewrite partition_nil.
  - cbn [split_n length].
    destruct (partition sep (x :: l)) as [[h t]|] eqn:Hp; [|done].
    pose proof (partition_shorter _ _ _ _ Hsep Hp) as Hlt. simpl in Hlt.
    f_equal. apply split_n_enough; (done || lia).
Qed.

Lemma split_not_nil (sep l : bytes) : split sep l <> [].
Proof.
  unfold split. destruct (length l); simpl; [done|].
  by destruct (partition sep l) as [[??]|].
Qed.

Lemma split_two (sep l h t : bytes) :
  sep <> [] ->
  split sep l = [h; t] <->
  partition sep l = Some (h, t) /\ contains sep t = false.
Proof.
  intros Hsep. rewrite split_unfold by done.
  destruct (partition sep l) as [[h' t']|] eqn:Hp.
  - rewrite (split_unfold sep t') by done. rewrite <- partition_None.
    destruct (partition sep t') as [[h2 t2]|] eqn:Hp'; split.
    + intros [= _ _ H]. by apply split_not_nil in H.
    + intros [[= -> ->] ?]. congruence.
    + intros [= -> ->]. done.
    + intros [[= -> ->] _]. done.
  - split; [done|]. intros [? _]. done.
Qed.

Lemma count_one (sep l : bytes) :
  count sep l = 1%nat <-> exists h t, split sep l = [h; t].
Proof.
  unfold count. pose proof (split_not_nil sep l) as Hne.
  destruct (split sep l) as [|h [|t [|u r]]]; split; try done.
  - intros (? & ? & ?). done.
  - intros _. by exists h, t.
  - intros (? & ? & ?). done.
Qed.

(** ** Equality and hashing *)

(** Two floats compare equal exactly when both are zeros or they are the
    same number other than NaN. *)
Lemma SFeqb_true (f g : spec_float) :
  SFeqb f g = true <->
  (exists s t, f = S754_zero s /\ g = S754_zero t) \/ (f = g /\ f <> S754_nan).
Proof.
  unfold SFeqb. split.
  - destruct f as [s| s | |s m e], g as [t|t| |t n e']; simpl; try done.
    all: try (destruct s; done). all: try (destruct t; done).
    + intros _. left. by exists s, t.
    + destruct s, t; try done; intros _; right; done.
    + assert (e = e' -> m = n -> s = t ->
              S754_finite s m e = S754_finite t n e' /\
              S754_finite s m e <> S754_nan) as Hfin by (by intros -> -> ->).
      destruct s, t; try done;
        (destruct (e ?= e') eqn:He; try done;
         apply Z.compare_eq in He;
         change (PosDef.Pos.compare_cont Eq m n) with (m ?= n)%positive;
         destruct (m ?= n)%positive eqn:Hm; try done;
         apply Pos.compare_eq in Hm; intros _; right; by apply Hfin).
  - intros [(s & t & -> & ->)|[<- Hn]]; [done|].
    destruct f as [s|s| |s m e]; simpl; try done.
    + by destruct s.
    + change (PosDef.Pos.compare_cont Eq m m) with (m ?= m)%positive.
      destruct s; by rewrite Z.compare_refl, Pos.compare_refl.
Qed.

Lemma SFeqb_sym (f g : spec_float) : SFeqb f g = SFeqb g f.
Proof.
  apply eq_true_iff_eq. rewrite !SFeqb_true. split.
  - intros [(s & t & -> & ->)|[-> Hn]]; [left; by exists t, s | by right].
  - intros [(s & t & -> & ->)|[-> Hn]]; [left; by exists t, s | by right].
Qed.

Lemma num_eq_sym (a b : Z + spec_float) : num_eq a b = num_eq b a.
Proof.
  destruct a as [x|f], b as [y|g]; simpl; try done.
  - apply Z.eqb_sym.
  - apply SFeqb_sym.
Qed.

Lemma py_eq_sym (a b : pyobj) : py_eq a b = py_eq b a.
Proof.
  unfold py_eq. destruct a, b; cbn [num_of]; try done; try apply num_eq_sym.
  apply String.eqb_sym.
Qed.

Lemma hash_float_eq (f g : spec_float) :
  SFeqb f g = true -> hash_float f = hash_float g.
Proof. intros [(s & t & -> & ->)|[-> _]]%SFeqb_true; done. Qed.

Lemma hash_num_eq (a b : Z + spec_float) :
  num_eq a b = true ->
  match a with inl x => hash_int x | inr f => hash_float f end =
  match b with inl x => hash_int x | inr f => hash_float f end.
Proof.
  destruct a as [x|f], b as [y|g]; simpl.
  - by intros ->%Z.eqb_eq.
  - unfold hash_float. destruct (float_to_Z g); [|done]. by intros ->%Z.eqb_eq.
  - unfold hash_float. destruct (float_to_Z f); [|done]. by intros ->%Z.eqb_eq.
  - apply hash_float_eq.
Qed.

(** Equal values hash alike, so equal identifiers select the same shard. *)
Lemma py_hash_eq (E : env) (a b : pyobj) :
  py_eq a b = true -> py_hash E a = py_hash E b.
Proof.
  unfold py_eq, py_hash. destruct a, b; cbn [num_of]; try done;
    try (intros H; f_equal; by apply (hash_num_eq _ _ H)).
  by intros ->%String.eqb_eq.
Qed.

(** ** Running code on the module state *)

Section Facts.
Context (E : env).

Lemma bind_Ok {A B} (m : M A) (k : A -> M B) g a g' :
  m g = (Ok a, g') -> (m ≫= k) g = k a g'.
Proof. unfold mbind, M_bind. by intros ->. Qed.

Lemma bind_Raise {A B} (m : M A) (k : A -> M B) g e g' :
  m g = (Raise e, g') -> (m ≫= k) g = (Raise e, g').
Proof. unfold mbind, M_bind. by intros ->. Qed.

Lemma bind_Blocked {A B} (m : M A) (k : A -> M B) g g' :
  m g = (Blocked, g') -> (m ≫= k) g = (Blocked, g').
Proof. unfold mbind, M_bind. by intros ->. Qed.

Lemma shard_index_range (u : pyobj) (i : Z) :
  shard_index E u = inr i -> 0 <= i < NUM_SHARDS.
Proof.
  unfold shard_index. destruct (py_hash E u) as [e|h]; simpl; [done|].
  intros [= <-]. apply Z.mod_pos_bound. done.
Qed.

Lemma globals_eq (g1 g2 : globals) :
  req_total g1 = req_total g2 -> req_sum g1 = req_sum g2 ->
  shards g1 = shards g2 -> locks g1 = locks g2 -> g1 = g2.
Proof. destruct g1, g2; simpl; congruence. Qed.

(** With no lock held, [add_unique_user] never suspends: it raises when
    the identifier is unhashable and otherwise runs through, leaving the
    locks as they were. *)
Lemma add_unique_user_run (u : pyobj) (g : globals) :
  wf g ->
  add_unique_user E u g =
  match shard_index E u with
  | inl e => (Raise e, g)
  | inr _ => (Ok tt, add_user E u g)
  end.
Proof.
  intros [Hs Hl]. unfold add_unique_user, add_user.
  destruct (shard_index E u) as [e|i] eqn:Hi; [done|].
  pose proof (shard_index_range _ _ Hi) as Hr.
  assert (Z.to_nat i < Z.to_nat NUM_SHARDS)%nat as Hlt by lia.
  unfold mbind, M_bind, lift, with_lock, acquire, shard_add, release, modify.
  rewrite Hl, lookup_replicate_2 by done. cbn [set_locks shards].
  destruct (lookup_lt_is_Some_2 (shards g) (Z.to_nat i)) as [s Hsi]; [lia|].
  rewrite Hsi. cbn. f_equal. apply globals_eq; cbn; try done.
  rewrite list_insert_insert_eq, Hl. apply list_insert_id.
  by apply lookup_replicate_2.
Qed.

Lemma post_event_run (b : bytes) (g : globals) :
  wf g ->
  match body_effect E b with
  | Applied u x =>
      post_event E b g =
      (reply E (record_event x (add_user E u g)),
       record_event x (add_user E u g))
  | e => exists ex, post_event E b g = (Raise ex, apply_effect E e g)
  end.
Proof.
  intros Hwf. unfold post_event, body_effect.
  destruct (loads E b) as [e|body]; [by exists e|].
  rewrite (bind_Ok _ _ g body g) by done.
  destruct (py_get body "userId" PNone) as [e|u]; [by exists e|].
  rewrite (bind_Ok _ _ g u g) by done.
  pose proof (add_unique_user_run u g Hwf) as Hadd.
  unfold shard_index in Hadd at 1.
  destruct (py_hash E u) as [e|h] eqn:Hh; simpl in Hadd.
  { exists e. by rewrite (bind_Raise _ _ g e g). }
  rewrite (bind_Ok _ _ g tt (add_user E u g)) by done.
  destruct (py_get body "value" (PInt 0)) as [e|v]; simpl.
  { exists e. by rewrite (bind_Raise _ _ _ e (add_user E u g)). }
  rewrite (bind_Ok _ _ _ v (add_user E u g)) by done.
  destruct (py_float E v) as [e|x]; simpl.
  { exists e. by rewrite (bind_Raise _ _ _ e (add_user E u g)). }
  rewrite (bind_Ok _ _ _ x (add_user E u g)) by done.
  unfold mbind at 1, M_bind at 1, modify at 1.
  unfold mbind at 1, M_bind at 1, modify at 1.
  unfold mbind at 1, M_bind at 1, get at 1.
  fold (record_event x (add_user E u g)).
  unfold reply, mbind, M_bind, lift.
  by destruct (truediv _ _).
Qed.

(** The [GET /stats] branch only reads, and never divides by zero. *)
Lemma get_stats_run (g : globals) :
  get_stats E g =
  (Ok (stats_response E g
         (if req_total g =? 0 then f64_zero
          else f64_div (c_float_get (req_sum g)) (f64_of_Z (req_total g)))),
   g).
Proof.
  unfold get_stats, mbind, M_bind, get, lift, truediv.
  by destruct (req_total g =? 0).
Qed.

(** [handle] with its two [try] blocks resolved. *)
Lemma handle_run (rd : reader) (g : globals) :
  handle E rd g =
  match read 2048 rd with
  | (inl _, _) => (Ok HTTP_500, g)
  | (inr data_bin, _) =>
      if contains GET_STATS data_bin then get_stats E g
      else if contains POST_EVENT data_bin then
        match request_body rd with
        | None => (Ok HTTP_500, g)
        | Some b =>
            match post_event E b g with
            | (Raise _, g') => (Ok HTTP_500, g')
            | r => r
            end
        end
      else (Ok HTTP_404, g)
  end.
Proof.
  unfold handle, request_body.
  destruct (read 2048 rd) as [[e|data_bin] rd1]; [done|].
  unfold try_except at 1. rewrite (bind_Ok _ _ g data_bin g) by done.
  destruct (contains GET_STATS data_bin).
  { by rewrite get_stats_run. }
  destruct (contains POST_EVENT data_bin); [|done].
  unfold try_except.
  destruct (parse_event data_bin) as [e|[body_sofar remaining]].
  { by rewrite (bind_Raise _ _ g e g). }
  rewrite (bind_Ok _ _ g (body_sofar, remaining) g) by done.
  destruct (0 <? remaining).
  - destruct (read (Z.to_nat remaining) rd1) as [[e|more] rd2]; cbn [fst].
    + by rewrite (bind_Raise _ _ g e g) by (by rewrite (bind_Raise _ _ g e g)).
    + rewrite (bind_Ok _ _ g (body_sofar ++ more) g)
        by (by rewrite (bind_Ok _ _ g more g)).
      by destruct (post_event E (body_sofar ++ more) g) as [[]].
  - rewrite (bind_Ok _ _ g body_sofar g) by done.
    by destruct (post_event E body_sofar g) as [[]].
Qed.

(** What a connection leaves behind is its [effect_of], and with no lock
    held the handler always comes back with a response. *)
Lemma handle_effect (rd : reader) (g : globals) :
  wf g ->
  exists response,
    handle E rd g = (Ok response, apply_effect E (effect_of E rd) g).
Proof.
  intros Hwf. rewrite handle_run. unfold effect_of.
  destruct (read 2048 rd) as [[e|data_bin] rd1] eqn:Hrd.
  { unfold request_body. rewrite Hrd. by eexists. }
  destruct (contains GET_STATS data_bin) eqn:Hget.
  { unfold request_body. rewrite Hrd, Hget, get_stats_run. by eexists. }
  destruct (contains POST_EVENT data_bin) eqn:Hpost.
  2: { unfold request_body. rewrite Hrd, Hget, Hpost. by eexists. }
  destruct (request_body rd) as [b|]; [|by eexists].
  pose proof (post_event_run b g Hwf) as Hrun.
  destruct (body_effect E b) as [|u|u x].
  - destruct Hrun as [ex ->]. by eexists.
  - destruct Hrun as [ex ->]. by eexists.
  - rewrite Hrun. cbn [apply_effect]. unfold reply.
    destruct (truediv _ _); by eexists.
Qed.

Lemma request_body_route (rd : reader) (b : bytes) :
  request_body rd = Some b ->
  exists data rd1,
    read 2048 rd = (inr data, rd1) /\
    contains GET_STATS data = false /\ contains POST_EVENT data = true.
Proof.
  unfold request_body.
  destruct (read 2048 rd) as [[e|data] rd1]; [done|].
  destruct (contains GET_STATS data) eqn:Hget; [done|].
  destruct (contains POST_EVENT data) eqn:Hpost; [|done].
  intros _. by exists data, rd1.
Qed.

(** An event request, once its body is assembled, is [post_event] on that
    body under the inner [try]. *)
Lemma handle_event (rd : reader) (b : bytes) (g : globals) :
  request_body rd = Some b ->
  handle E rd g =
  match post_event E b g with
  | (Raise _, g') => (Ok HTTP_500, g')
  | r => r
  end.
Proof.
  intros Hb. destruct (request_body_route rd b Hb) as (data & rd1 & Hrd & Hg & Hp).
  by rewrite handle_run, Hrd, Hg, Hp, Hb.
Qed.

Lemma effect_of_body (rd : reader) (e : effect) :
  effect_of E rd = e -> e <> Untouched ->
  exists b, request_body rd = Some b /\ body_effect E b = e.
Proof.
  unfold effect_of. destruct (request_body rd) as [b|]; [|congruence].
  intros <- _. by exists b.
Qed.

(** The update went through: the aggregates are updated and the reply is
    built from them. *)
Lemma handle_applied (rd : reader) (g : globals) (u : pyobj) (x : spec_float) :
  wf g -> effect_of E rd = Applied u x ->
  handle E rd g =
  (match reply E (record_event x (add_user E u g)) with
   | Raise _ => Ok HTTP_500
   | r => r
   end, record_event x (add_user E u g)).
Proof.
  intros Hwf He. destruct (effect_of_body rd _ He) as (b & Hb & Hbe); [done|].
  rewrite (handle_event rd b g Hb).
  pose proof (post_event_run b g Hwf) as Hrun. rewrite Hbe in Hrun.
  rewrite Hrun. by destruct (reply E _).
Qed.

(** The update broke off after [add_unique_user]: the response is 500 and
    the identifier stays in its shard. *)
Lemma handle_user_only (rd : reader) (g : globals) (u : pyobj) :
  wf g -> effect_of E rd = UserOnly u ->
  handle E rd g = (Ok HTTP_500, add_user E u g).
Proof.
  intros Hwf He. destruct (effect_of_body rd _ He) as (b & Hb & Hbe); [done|].
  rewrite (handle_event rd b g Hb).
  pose proof (post_event_run b g Hwf) as Hrun. rewrite Hbe in Hrun.
  by destruct Hrun as [ex ->].
Qed.

(** ** Invariants *)

Lemma wf_initial : wf initial.
Proof. split; [apply length_replicate | done]. Qed.

Lemma wf_add_user (u : pyobj) (g : globals) : wf g -> wf (add_user E u g).
Proof.
  intros [Hs Hl]. unfold add_user.
  destruct (shard_index E u) as [e|i]; [done|].
  destruct (shards g !! Z.to_nat i); [|done].
  split; cbn; [by rewrite length_insert | done].
Qed.

Lemma wf_apply_effect (e : effect) (g : globals) :
  wf g -> wf (apply_effect E e g).
Proof.
  intros Hwf. destruct e as [|u|u x]; cbn [apply_effect]; [done|..].
  - by apply wf_add_user.
  - destruct (wf_add_user u g Hwf) as [Hs Hl]. by split.
Qed.

Lemma wf_handle (rd : reader) (g : globals) :
  wf g -> wf (handle E rd g).2.
Proof.
  intros Hwf. destruct (handle_effect rd g Hwf) as [resp ->].
  by apply wf_apply_effect.
Qed.

Lemma reachable_wf (g : globals) : reachable E g -> wf g.
Proof.
  induction 1 as [|g rd r g' _ IH Hh]; [apply wf_initial|].
  pose proof (wf_handle rd g IH) as Hwf. by rewrite Hh in Hwf.
Qed.

(** The states reached are those that effects of connections build. *)
Lemma reachable_effects (g : globals) :
  reachable E g <->
  exists rds, g = fold_left (fun g rd => apply_effect E (effect_of E rd) g) rds initial.
Proof.
  split.
  - induction 1 as [|g rd r g' Hg [rds ->] Hh].
    + by exists [].
    + exists (rds ++ [rd]). rewrite fold_left_app. cbn [fold_left].
      destruct (handle_effect rd _ (reachable_wf _ Hg)) as [resp Hr].
      rewrite Hr in Hh. by injection Hh as _ <-.
  - intros [rds ->]. induction rds as [|rd rds IH] using rev_ind.
    + constructor.
    + rewrite fold_left_app. cbn [fold_left].
      destruct (handle_effect rd _ (reachable_wf _ IH)) as [resp Hr].
      by eapply reachable_handle.
Qed.
End Facts.

(** ** The fixed responses *)

(** What a client reads off a response: the body after the blank line and
    the number its [Content-Length] header states, found with the
    service's own header scanner. *)
Lemma fixed_response_framing :
  split (CRLF ++ CRLF) HTTP_404 =
    [lit "HTTP/1.1 404 Not Found" ++ CRLF ++ lit "Connection: close" ++ CRLF ++
     lit "Content-Length: 9"; lit "Not Found"] /\
  split (CRLF ++ CRLF) HTTP_500 =
    [lit "HTTP/1.1 500 Internal Server Error" ++ CRLF ++
     lit "Connection: close" ++ CRLF ++ lit "Content-Length: 21";
     lit "Internal Server Error"] /\
  option_map int_of_digits (REQ_RE_LEN_search HTTP_404) =
    Some (Z.of_nat (length (lit "Not Found"))) /\
  option_map int_of_digits (REQ_RE_LEN_search HTTP_500) =
    Some (Z.of_nat (length (lit "Internal Server Error"))) /\
  length (lit "Not Found") = 9%nat /\
  length (lit "Internal Server Error") = 21%nat.
Proof. vm_compute. tauto. Qed.

(** C9. A request buffer with neither route marker is answered with the
    fixed 404 response and the module state is left as it was; a failed
    initial read, a failed header/body split or body read, and any
    exception while the event is decoded and applied are each answered with
    the fixed 500 response; the handler never lets an exception out.  The
    404 body is the 9 bytes [Not Found], the 500 body the 21 bytes
    [Internal Server Error], and each [Content-Length] header states the
    length of its body. *)
Theorem fixed_error_responses (E : env) (rd : reader) (g : globals) :
  (forall data rd1,
     read 2048 rd = (inr data, rd1) ->
     contains GET_STATS data = false -> contains POST_EVENT data = false ->
     handle E rd g = (Ok HTTP_404, g)) /\
  (forall e rd1,
     read 2048 rd = (inl e, rd1) -> handle E rd g = (Ok HTTP_500, g)) /\
  (forall data rd1,
     read 2048 rd = (inr data, rd1) ->
     contains GET_STATS data = false -> contains POST_EVENT data = true ->
     (request_body rd = None -> handle E rd g = (Ok HTTP_500, g)) /\
     (forall b e g',
        request_body rd = Some b -> post_event E b g = (Raise e, g') ->
        handle E rd g = (Ok HTTP_500, g'))) /\
  (forall e g', handle E rd g <> (Raise e, g')) /\
  (exists head, split (CRLF ++ CRLF) HTTP_404 = [head; lit "Not Found"]) /\
  (exists head,
     split (CRLF ++ CRLF) HTTP_500 = [head; lit "Internal Server Error"]) /\
  length (lit "Not Found") = 9%nat /\
  length (lit "Internal Server Error") = 21%nat /\
  option_map int_of_digits (REQ_RE_LEN_search HTTP_404) = Some 9 /\
  option_map int_of_digits (REQ_RE_LEN_search HTTP_500) = Some 21.
Proof.
  pose proof fixed_response_framing as (H404 & H500 & L404 & L500 & N404 & N500).
  split; [|split; [|split; [|split]]].
  - intros data rd1 Hrd Hget Hpost. by rewrite handle_run, Hrd, Hget, Hpost.
  - intros e rd1 Hrd. by rewrite handle_run, Hrd.
  - intros data rd1 Hrd Hget Hpost. split.
    + intros Hb. by rewrite handle_run, Hrd, Hget, Hpost, Hb.
    + intros b e g' Hb Hp. by rewrite handle_run, Hrd, Hget, Hpost, Hb, Hp.
  - intros e g'. rewrite handle_run.
    destruct (read 2048 rd) as [[?|data] ?]; [done|].
    destruct (contains GET_STATS data); [by rewrite get_stats_run|].
    destruct (contains POST_EVENT data); [|done].
    destruct (request_body rd) as [b|]; [|done].
    by destruct (post_event E b g) as [[]].
  - repeat split; try done; by eexists.
Qed.

Lemma fixed_error_responses_witness :
  handle Runtime.cpython Scenario.unknown initial = (Ok HTTP_404, initial) /\
  handle Runtime.cpython Scenario.broken initial = (Ok HTTP_500, initial).
Proof.
  pose proof (fixed_error_responses Runtime.cpython Scenario.unknown initial)
    as [H404 _].
  pose proof (fixed_error_responses Runtime.cpython Scenario.broken initial)
    as (_ & H500 & _).
  split.
  - eapply H404; vm_compute; reflexivity.
  - eapply H500; vm_compute; reflexivity.
Defined.

(** ** The header/body split *)

Lemma blank_line_not_nil : CRLF ++ CRLF <> [].
Proof. done. Qed.

Lemma parse_event_split (data body_sofar : bytes) (remaining : Z) :
  parse_event data = inr (body_sofar, remaining) ->
  exists head, split (CRLF ++ CRLF) data = [head; body_sofar].
Proof.
  unfold parse_event.
  destruct (split (CRLF ++ CRLF) data) as [|head [|b [|? ?]]]; try done.
  intros [= <- _]. by exists head.
Qed.

Lemma parse_event_fails (data : bytes) :
  count (CRLF ++ CRLF) data <> 1%nat -> parse_event data = inl ValueError.
Proof.
  intros Hc. unfold parse_event.
  destruct (split (CRLF ++ CRLF) data) as [|head [|b [|? ?]]] eqn:Hs; try done.
  destruct Hc. apply count_one. by exists head, b.
Qed.

(** C10. A request routed to the event branch is answered with anything
    but the 500 response only if the bytes of the initial read hold the
    blank line [\r\n\r\n] exactly once, counted as [bytes.split] and
    [bytes.count] find occurrences (from the left, each search resuming
    after the previous occurrence).  If the blank line has not arrived in
    the first read, or if the bytes after the first blank line hold another
    one, the split fails, the response is 500 and the module state is
    untouched. *)
Theorem event_needs_single_blank_line
    (E : env) (rd rd1 : reader) (data : bytes) (g : globals) :
  read 2048 rd = (inr data, rd1) ->
  contains GET_STATS data = false ->
  contains POST_EVENT data = true ->
  (forall response g',
     handle E rd g = (Ok response, g') -> response <> HTTP_500 ->
     count (CRLF ++ CRLF) data = 1%nat /\
     exists head body,
       data = head ++ (CRLF ++ CRLF) ++ body /\
       partition (CRLF ++ CRLF) data = Some (head, body) /\
       contains (CRLF ++ CRLF) body = false) /\
  (contains (CRLF ++ CRLF) data = false ->
   handle E rd g = (Ok HTTP_500, g)) /\
  (forall head body,
     partition (CRLF ++ CRLF) data = Some (head, body) ->
     contains (CRLF ++ CRLF) body = true ->
     handle E rd g = (Ok HTTP_500, g)).
Proof.
  intros Hrd Hget Hpost.
  assert (count (CRLF ++ CRLF) data <> 1%nat ->
          handle E rd g = (Ok HTTP_500, g)) as Hfail.
  { intros Hc. rewrite handle_run, Hrd, Hget, Hpost.
    unfold request_body. by rewrite Hrd, Hget, Hpost, parse_event_fails. }
  split; [|split].
  - intros response g' Hh Hne.
    destruct (decide (count (CRLF ++ CRLF) data = 1%nat)) as [Hc|Hc].
    + split; [done|]. apply count_one in Hc as (head & body & Hs).
      apply split_two in Hs as [Hp Hb]; [|apply blank_line_not_nil].
      exists head, body. split; [by apply partition_Some | done].
    + rewrite (Hfail Hc) in Hh. by injection Hh as <- _.
  - intros Hno. apply Hfail. intros (head & body & Hs)%count_one.
    apply split_two in Hs as [Hp _]; [|apply blank_line_not_nil].
    apply partition_None in Hno. congruence.
  - intros head body Hp Hb. apply Hfail.
    intros (head' & body' & Hs)%count_one.
    apply split_two in Hs as [Hp' Hb']; [|apply blank_line_not_nil].
    congruence.
Qed.

Lemma event_needs_single_blank_line_witness :
  read 2048 Scenario.blank_line =
    (inr (Client.post Scenario.blank_line_body), []) /\
  contains GET_STATS (Client.post Scenario.blank_line_body) = false /\
  contains POST_EVENT (Client.post Scenario.blank_line_body) = true /\
  (forall head body,
     partition (CRLF ++ CRLF) (Client.post Scenario.blank_line_body) =
       Some (head, body) ->
     contains (CRLF ++ CRLF) body = true ->
     handle Runtime.cpython Scenario.blank_line initial = (Ok HTTP_500, initial)).
Proof.
  pose proof (event_needs_single_blank_line Runtime.cpython
                Scenario.blank_line []
                (Client.post Scenario.blank_line_body) initial) as H.
  assert (read 2048 Scenario.blank_line =
            (inr (Client.post Scenario.blank_line_body), [])) as Hrd
    by (vm_compute; reflexivity).
  assert (contains GET_STATS (Client.post Scenario.blank_line_body) = false)
    as Hget by (vm_compute; reflexivity).
  assert (contains POST_EVENT (Client.post Scenario.blank_line_body) = true)
    as Hpost by (vm_compute; reflexivity).
  destruct (H Hrd Hget Hpost) as (_ & _ & Hbody).
  exact (conj Hrd (conj Hget (conj Hpost Hbody))).
Defined.

(** The body of [Scenario.blank_line] is valid JSON with both fields, and
    the request is still answered with 500. *)
Example blank_line_in_json_is_refused :
  Runtime.json_loads Scenario.blank_line_body =
    inr (PDict [("userId", PStr "alice"); ("value", PInt 10)]) /\
  handle Runtime.cpython Scenario.blank_line initial = (Ok HTTP_500, initial).
Proof. split; vm_compute; reflexivity. Qed.

(** Three line breaks in a row hold the blank line [\r\n\r\n] at two
    overlapping places; [split] finds one, and the request goes through. *)
Example overlapping_blank_lines :
  count (CRLF ++ CRLF) (CRLF ++ CRLF ++ CRLF) = 1%nat /\
  contains (CRLF ++ CRLF) (drop 2 (CRLF ++ CRLF ++ CRLF)) = true /\
  is_200 (handle Runtime.cpython Scenario.leading_break initial).1 = true.
Proof. repeat split; vm_compute; reflexivity. Qed.

(** ** The scenario of three writes

    [alice] 10, [alice] 5, [bob] 1, then the statistics: three requests,
    two users, sum 16, average 5.333333333333333. *)
Example three_writes :
  (serial Runtime.cpython
     [Scenario.write "alice" "10"; Scenario.write "alice" "5";
      Scenario.write "bob" "1"; Scenario.stats] initial).1 !! 3%nat =
  Some (Ok (ok_response
              (format_stats Runtime.cpython 3 2 (f64_of_Z 16)
                 (f64_div (f64_of_Z 16) (f64_of_Z 3))))) /\
  repr_float Runtime.cpython (f64_of_Z 16) = lit "16.0" /\
  repr_float Runtime.cpython (f64_div (f64_of_Z 16) (f64_of_Z 3)) =
    lit "5.333333333333333".
Proof. repeat split; vm_compute; reflexivity. Qed.

(** ** Failed writes and the shard store *)

(** C1 (the code departs from the claim).  The write
    [{"userId":"carol","value":null}] is valid JSON whose [value] is not a
    number: [float(None)] raises after [add_unique_user] has already run.
    The response is 500, [req_total] and [req_sum] are untouched, but
    [carol] has been added to a shard and the distinct count has gone from
    0 to 1. *)
Theorem failed_write_keeps_user :
  Runtime.json_loads (Client.event "carol" (lit "null")) =
    inr (PDict [("userId", PStr "carol"); ("value", PNone)]) /\
  handle Runtime.cpython Scenario.bad_value initial =
    (Ok HTTP_500, add_user Runtime.cpython (PStr "carol") initial) /\
  req_total (add_user Runtime.cpython (PStr "carol") initial) = 0 /\
  req_sum (add_user Runtime.cpython (PStr "carol") initial) = S754_zero false /\
  unique_count initial = 0%nat /\
  unique_count (add_user Runtime.cpython (PStr "carol") initial) = 1%nat /\
  shard_index Runtime.cpython (PStr "carol") = inr 114 /\
  shards initial !! 114%nat = Some [] /\
  shards (add_user Runtime.cpython (PStr "carol") initial) !! 114%nat =
    Some [PStr "carol"].
Proof. repeat split; vm_compute; reflexivity. Qed.

(** Likewise when [value] is a string that [float] refuses. *)
Example failed_write_text_value :
  handle Runtime.cpython Scenario.text_value initial =
    (Ok HTTP_500, add_user Runtime.cpython (PStr "dave") initial) /\
  unique_count (add_user Runtime.cpython (PStr "dave") initial) = 1%nat.
Proof. split; vm_compute; reflexivity. Qed.

(** The same for every environment and state: whenever a write breaks off
    between [add_unique_user] and the counters, the 500 response goes out
    with the identifier added. *)
Lemma failed_write_effect (E : env) (rd : reader) (g : globals) (u : pyobj) :
  wf g -> effect_of E rd = UserOnly u ->
  handle E rd g = (Ok HTTP_500, add_user E u g) /\
  req_total (add_user E u g) = req_total g /\
  req_sum (add_user E u g) = req_sum g.
Proof.
  intros Hwf He. split; [by apply handle_user_only|].
  unfold add_user. destruct (shard_index E u); [done|].
  by destruct (shards g !! _).
Qed.

(** ** Completing the body *)

(** C3 (the code departs from the claim).  The body of this write is 29
    bytes and [Content-Length] says so; 10 of them arrive with the headers,
    so 19 are owed.  The one [reader.read(19)] returns the 10 bytes of the
    second delivery; the handler does not read again, although the last 9
    bytes are still to come on the open connection, and hands 20 bytes to
    the JSON decoder.  The request fails with 500.  When the 19 bytes come
    in one delivery, the same request succeeds. *)
Theorem short_body_is_decoded :
  parse_event (Client.post_head 29 ++ take 10 Scenario.alice_10) =
    inr (take 10 Scenario.alice_10, 19) /\
  request_body Scenario.three_deliveries = Some (take 20 Scenario.alice_10) /\
  length (take 20 Scenario.alice_10) = 20%nat /\
  (read 19 (read 2048 Scenario.three_deliveries).2).2 =
    [Data (drop 20 Scenario.alice_10)] /\
  handle Runtime.cpython Scenario.three_deliveries initial =
    (Ok HTTP_500, initial) /\
  request_body Scenario.two_deliveries = Some Scenario.alice_10 /\
  is_200 (handle Runtime.cpython Scenario.two_deliveries initial).1 = true.
Proof. repeat split; vm_compute; reflexivity. Qed.

(** In general the decoder gets the bytes of the first read after the
    blank line and whatever one further read returns, which may be fewer
    than the bytes owed. *)
Lemma request_body_one_read (rd rd1 : reader) (data body_sofar : bytes) (remaining : Z) :
  read 2048 rd = (inr data, rd1) ->
  contains GET_STATS data = false -> contains POST_EVENT data = true ->
  parse_event data = inr (body_sofar, remaining) -> 0 < remaining ->
  request_body rd =
  match (read (Z.to_nat remaining) rd1).1 with
  | inl _ => None
  | inr more => Some (body_sofar ++ more)
  end.
Proof.
  intros Hrd Hget Hpost Hparse Hrem. unfold request_body.
  rewrite Hrd, Hget, Hpost, Hparse.
  by destruct (Z.ltb_spec 0 remaining); [|lia].
Qed.

(** ** Missing fields *)

Lemma reply_Ok (E : env) (g : globals) :
  req_total g <> 0 ->
  reply E g =
  Ok (stats_response E g
        (f64_div (c_float_get (req_sum g)) (f64_of_Z (req_total g)))).
Proof.
  intros Hne. unfold reply, truediv.
  by destruct (Z.eqb_spec (req_total g) 0).
Qed.

Lemma body_effect_no_user_id (E : env) (b : bytes) (d : list (string * pyobj)) :
  loads E b = inr (PDict d) -> dict_lookup "userId" d = None ->
  body_effect E b =
  match py_get (PDict d) "value" (PInt 0) ≫= py_float E with
  | inl _ => UserOnly PNone
  | inr x => Applied PNone x
  end.
Proof. intros Hl Hu. unfold body_effect. by rewrite Hl; cbn; rewrite Hu. Qed.

(** C5 as the code has it.  For an event request whose body decodes as a
    JSON object without [userId], the handler does not fail: it takes
    [None] as the identifier and adds it to its shard; when the value
    converts to a float it updates the counters and replies with the
    statistics (the reply is 500 only if the incremented counter is 0).  An
    absent [value] is not an error either and counts as 0. *)
Theorem missing_user_id_is_none
    (E : env) (rd : reader) (g : globals) (b : bytes) (d : list (string * pyobj)) :
  wf g ->
  request_body rd = Some b ->
  loads E b = inr (PDict d) ->
  dict_lookup "userId" d = None ->
  (forall x,
     py_get (PDict d) "value" (PInt 0) ≫= py_float E = inr x ->
     let g' := record_event x (add_user E PNone g) in
     (handle E rd g).2 = g' /\
     (req_total g' <> 0 ->
      handle E rd g =
      (Ok (stats_response E g'
             (f64_div (c_float_get (req_sum g')) (f64_of_Z (req_total g')))),
       g'))) /\
  (dict_lookup "value" d = None ->
   py_get (PDict d) "value" (PInt 0) ≫= py_float E = inr f64_zero).
Proof.
  intros Hwf Hb Hl Hu. split.
  - intros x Hx g'.
    assert (effect_of E rd = Applied PNone x) as He.
    { unfold effect_of. rewrite Hb, (body_effect_no_user_id E b d Hl Hu).
      by rewrite Hx. }
    rewrite (handle_applied E rd g PNone x Hwf He). fold g'.
    split; [done|]. intros Hne. by rewrite (reply_Ok E g' Hne).
  - intros Hv. cbn. by rewrite Hv.
Qed.

Lemma missing_user_id_is_none_witness :
  wf initial /\
  request_body Scenario.no_fields = Some (lit "{}") /\
  loads Runtime.cpython (lit "{}") = inr (PDict []) /\
  (handle Runtime.cpython Scenario.no_fields initial).2 =
    record_event f64_zero (add_user Runtime.cpython PNone initial).
Proof.
  assert (request_body Scenario.no_fields = Some (lit "{}")) as Hb
    by (vm_compute; reflexivity).
  assert (loads Runtime.cpython (lit "{}") = inr (PDict [])) as Hl
    by (vm_compute; reflexivity).
  destruct (missing_user_id_is_none Runtime.cpython Scenario.no_fields initial
              (lit "{}") [] wf_initial Hb Hl eq_refl) as [Hrun Hzero].
  destruct (Hrun f64_zero (Hzero eq_refl)) as [Hstate _].
  exact (conj wf_initial (conj Hb (conj Hl Hstate))).
Defined.

(** C5 as stated fails on the empty object: it decodes, it has no
    [userId], and the handler answers 200 after counting the event and
    adding [None] as a user. *)
Lemma missing_user_id_accepted :
  Runtime.json_loads (lit "{}") = inr (PDict []) /\
  is_200 (handle Runtime.cpython Scenario.no_fields initial).1 = true /\
  (handle Runtime.cpython Scenario.no_fields initial).1 <> Ok HTTP_500 /\
  req_total (handle Runtime.cpython Scenario.no_fields initial).2 = 1 /\
  unique_count (handle Runtime.cpython Scenario.no_fields initial).2 = 1%nat /\
  shard_index Runtime.cpython PNone = inr 32 /\
  shards (handle Runtime.cpython Scenario.no_fields initial).2 !! 32%nat =
    Some [PNone].
Proof. repeat split; try (vm_compute; reflexivity). vm_compute. discriminate. Qed.

(** ** The shard store *)

Section Shards.
Context (E : env).

(** Invariants are checked on the state at start-up and across the effect
    of one connection. *)
Lemma reachable_invariant (P : globals -> Prop) :
  P initial ->
  (forall g e, wf g -> P g -> P (apply_effect E e g)) ->
  forall g, reachable E g -> P g.
Proof.
  intros Hinit Hstep g Hg.
  induction Hg as [|g rd r g' Hg IH Hh]; [done|].
  pose proof (reachable_wf E g Hg) as Hwf.
  destruct (handle_effect E rd g Hwf) as [resp Hr].
  rewrite Hr in Hh. injection Hh as _ <-. by apply Hstep.
Qed.

Lemma shard_index_eq (u v : pyobj) :
  py_eq u v = true -> shard_index E u = shard_index E v.
Proof. intros H. unfold shard_index. by rewrite (py_hash_eq E u v H). Qed.

Lemma member_app (u : pyobj) (s t : list pyobj) :
  member u (s ++ t) = member u s || member u t.
Proof. apply existsb_app. Qed.

Lemma member_In (u : pyobj) (s : list pyobj) :
  member u s = true <-> exists v, In v s /\ py_eq u v = true.
Proof. apply existsb_exists. Qed.

Lemma distinct_snoc (s : list pyobj) (u : pyobj) :
  distinct s -> member u s = false -> distinct (s ++ [u]).
Proof.
  induction s as [|v s IH]; simpl; [done|].
  intros [Hv Hs] [Huv Hus]%orb_false_elim. split; [|by apply IH].
  rewrite member_app, Hv. simpl. by rewrite py_eq_sym, Huv.
Qed.

Lemma distinct_set_add (s : list pyobj) (u : pyobj) :
  distinct s -> distinct (set_add u s).
Proof.
  intros Hs. unfold set_add. fold (member u s).
  destruct (member u s) eqn:Hm; [done|]. by apply distinct_snoc.
Qed.

Lemma In_set_add (s : list pyobj) (u v : pyobj) :
  In v (set_add u s) -> In v s \/ v = u.
Proof.
  unfold set_add. destruct (existsb (py_eq u) s); [by left|].
  rewrite in_app_iff. intros [?|[<-|[]]]; [by left | by right].
Qed.

(** The shards after an effect: one shard has had [set_add], or nothing
    has changed. *)
Lemma shards_apply_effect (e : effect) (g : globals) :
  shards (apply_effect E e g) = shards g \/
  exists u i s,
    shard_index E u = inr i /\ shards g !! Z.to_nat i = Some s /\
    shards (apply_effect E e g) = <[Z.to_nat i := set_add u s]> (shards g).
Proof.
  assert (forall u,
            shards (add_user E u g) = shards g \/
            exists i s,
              shard_index E u = inr i /\ shards g !! Z.to_nat i = Some s /\
              shards (add_user E u g) = <[Z.to_nat i := set_add u s]> (shards g))
    as Hadd.
  { intros u. unfold add_user.
    destruct (shard_index E u) as [?|i] eqn:Hi; [by left|].
    destruct (shards g !! Z.to_nat i) as [s|] eqn:Hs; [|by left].
    right. by exists i, s. }
  destruct e as [|u|u x]; cbn [apply_effect]; [by left|..].
  - destruct (Hadd u) as [?|(i & s & ?)]; [by left|]. right. by exists u, i, s.
  - cbn. destruct (Hadd u) as [?|(i & s & ?)]; [by left|]. right. by exists u, i, s.
Qed.

Lemma placed_reachable : forall g, reachable E g -> placed E g.
Proof.
  apply reachable_invariant.
  - intros i s u Hs Hu. apply lookup_replicate in Hs as [-> _]. done.
  - intros g e Hwf IH i s u Hs Hu.
    destruct (shards_apply_effect e g) as [Heq|(v & j & t & Hj & Ht & Heq)];
      rewrite Heq in Hs; [by eapply IH|].
    destruct (decide (Z.to_nat j = i)) as [<-|Hne].
    + rewrite list_lookup_insert_eq in Hs by (by eapply lookup_lt_Some).
      injection Hs as <-. apply In_set_add in Hu as [Hu| ->].
      * by eapply IH.
      * rewrite Hj. f_equal. pose proof (shard_index_range E _ _ Hj). lia.
    + rewrite list_lookup_insert_ne in Hs by done. by eapply IH.
Qed.

Lemma distinct_reachable :
  forall g, reachable E g -> forall i s, shards g !! i = Some s -> distinct s.
Proof.
  apply (reachable_invariant
           (fun g => forall i s, shards g !! i = Some s -> distinct s)).
  - intros i s Hs. apply lookup_replicate in Hs as [-> _]. done.
  - intros g e Hwf IH i s Hs.
    destruct (shards_apply_effect e g) as [Heq|(v & j & t & Hj & Ht & Heq)];
      rewrite Heq in Hs; [by eapply IH|].
    destruct (decide (Z.to_nat j = i)) as [<-|Hne].
    + rewrite list_lookup_insert_eq in Hs by (by eapply lookup_lt_Some).
      injection Hs as <-. apply distinct_set_add. by eapply IH.
    + rewrite list_lookup_insert_ne in Hs by done. by eapply IH.
Qed.

End Shards.

(** C8. In every reachable state an identifier is a member of at most one
    shard, and of that shard only once; the distinct count is the sum of
    the sizes of the [NUM_SHARDS] member sets; and [shard_index] is a
    function of the identifier alone: equal identifiers get the same index,
    which lies in [0, NUM_SHARDS). *)
Theorem shards_partition_users (E : env) (g : globals) :
  reachable E g ->
  (forall u i j s t,
     shards g !! i = Some s -> shards g !! j = Some t ->
     member u s = true -> member u t = true -> i = j) /\
  (forall i s, shards g !! i = Some s -> distinct s) /\
  unique_count g = sum_list (map length (shards g)) /\
  length (shards g) = Z.to_nat NUM_SHARDS /\
  (forall u v, py_eq u v = true -> shard_index E u = shard_index E v) /\
  (forall u i, shard_index E u = inr i -> 0 <= i < NUM_SHARDS).
Proof.
  intros Hg. split; [|split; [|split; [|split; [|split]]]].
  - intros u i j s t Hs Ht [v [Hv Huv]]%member_In [w [Hw Huw]]%member_In.
    pose proof (placed_reachable E g Hg i s v Hs Hv) as Hi.
    pose proof (placed_reachable E g Hg j t w Ht Hw) as Hj.
    rewrite <- (shard_index_eq E u v Huv), (shard_index_eq E u w Huw) in Hi.
    rewrite Hj in Hi. injection Hi as Hi. lia.
  - apply (distinct_reachable E g Hg).
  - done.
  - by destruct (reachable_wf E g Hg).
  - apply shard_index_eq.
  - apply shard_index_range.
Qed.

Lemma shards_partition_users_witness :
  reachable Runtime.cpython
    (handle Runtime.cpython (Scenario.write "alice" "10") initial).2 /\
  unique_count
    (handle Runtime.cpython (Scenario.write "alice" "10") initial).2 =
  sum_list
    (map length
       (shards (handle Runtime.cpython (Scenario.write "alice" "10") initial).2)).
Proof.
  assert (reachable Runtime.cpython
            (handle Runtime.cpython (Scenario.write "alice" "10") initial).2)
    as Hg.
  { eapply reachable_handle; [apply reachable_initial|].
    apply surjective_pairing. }
  split; [done|].
  by destruct (shards_partition_users Runtime.cpython _ Hg) as (_ & _ & ? & _).
Defined.

(** ** Adding an identifier twice *)

Lemma sum_fmap_insert {A} (f : A -> nat) (l : list A) (i : nat) (x y : A) :
  l !! i = Some x ->
  (sum_list (f <$> <[i := y]> l) + f x = sum_list (f <$> l) + f y)%nat.
Proof.
  revert i. induction l as [|z l IH]; intros [|i] Hi; try done.
  - injection Hi as ->. csimpl. clear IH. lia.
  - csimpl. specialize (IH i Hi). clear Hi. lia.
Qed.

Lemma length_set_add (u : pyobj) (s : list pyobj) :
  length (set_add u s) = if member u s then length s else S (length s).
Proof.
  unfold set_add, member. destruct (existsb (py_eq u) s); [done|].
  rewrite length_app. simpl. lia.
Qed.

Lemma member_set_add (u : pyobj) (s : list pyobj) :
  py_eq u u = true -> member u (set_add u s) = true.
Proof.
  intros Hu. unfold set_add. fold (member u s).
  destruct (member u s) eqn:Hm; [done|].
  rewrite member_app. simpl. by rewrite Hu, orb_true_r.
Qed.

(** [add_unique_user] in terms of the shard it selects: it grows that
    shard, and with it the distinct count, by one when the identifier is
    not yet a member, and changes nothing when it is. *)
Lemma add_user_count (E : env) (u : pyobj) (g : globals) (i : Z) (s : list pyobj) :
  shard_index E u = inr i -> shards g !! Z.to_nat i = Some s ->
  (member u s = false -> unique_count (add_user E u g) = S (unique_count g)) /\
  (member u s = true -> add_user E u g = g).
Proof.
  intros Hi Hs. unfold add_user, unique_count. rewrite Hi, Hs. cbn [shards set_shards].
  pose proof (sum_fmap_insert length (shards g) (Z.to_nat i) s (set_add u s) Hs)
    as Hsum.
  rewrite length_set_add in Hsum. split; intros Hm; rewrite Hm in Hsum.
  - lia.
  - unfold set_add. fold (member u s). rewrite Hm.
    rewrite list_insert_id by done. by destruct g.
Qed.

(** Adding the same identifier (any value other than NaN) a second time
    changes nothing. *)
Lemma add_user_idempotent (E : env) (u : pyobj) (g : globals) :
  wf g -> py_eq u u = true ->
  add_user E u (add_user E u g) = add_user E u g.
Proof.
  intros [Hlen _] Hu.
  destruct (shard_index E u) as [e|i] eqn:Hi.
  { unfold add_user. by rewrite Hi. }
  pose proof (shard_index_range E u i Hi) as Hr.
  destruct (lookup_lt_is_Some_2 (shards g) (Z.to_nat i)) as [s Hs]; [lia|].
  assert (shards (add_user E u g) !! Z.to_nat i = Some (set_add u s)) as Hs'.
  { unfold add_user. rewrite Hi, Hs. cbn.
    apply list_lookup_insert_eq. by eapply lookup_lt_Some. }
  apply (add_user_count E u (add_user E u g) i (set_add u s) Hi Hs').
  by apply member_set_add.
Qed.

(** C7 (the code departs from the claim).  After the failed write of C1,
    which has left [carol] in her shard, the first successful write
    containing [carol] is answered with 200 and leaves the distinct count
    at 1: it does not increase it. *)
Theorem first_successful_write_not_counted :
  (handle Runtime.cpython Scenario.bad_value initial).1 = Ok HTTP_500 /\
  unique_count (handle Runtime.cpython Scenario.bad_value initial).2 = 1%nat /\
  is_200
    (handle Runtime.cpython (Scenario.write "carol" "1")
       (handle Runtime.cpython Scenario.bad_value initial).2).1 = true /\
  unique_count
    (handle Runtime.cpython (Scenario.write "carol" "1")
       (handle Runtime.cpython Scenario.bad_value initial).2).2 = 1%nat.
Proof. repeat split; vm_compute; reflexivity. Qed.

(** ** The reported average *)

(** Whatever the request, a response is the 404, the 500, or the
    statistics of the state the handler leaves, with the average computed
    as [sum / totalRequests], or [0.0] when the counter is 0; a write is
    never answered with statistics whose counter is 0. *)
Lemma avg_reported (E : env) (rd : reader) (g : globals) :
  wf g ->
  exists response g',
    handle E rd g = (Ok response, g') /\
    (response = HTTP_404 \/ response = HTTP_500 \/
     response =
       stats_response E g'
         (if req_total g' =? 0 then f64_zero
          else f64_div (c_float_get (req_sum g')) (f64_of_Z (req_total g')))).
Proof.
  intros Hwf.
  destruct (effect_of E rd) as [|u|u x] eqn:He.
  - rewrite handle_run. unfold effect_of in He.
    destruct (read 2048 rd) as [[e|data] rd1]; [by eauto 6|].
    destruct (contains GET_STATS data).
    { rewrite get_stats_run. eauto 6. }
    destruct (contains POST_EVENT data); [|by eauto 6].
    destruct (request_body rd) as [b|]; [|by eauto 6].
    pose proof (post_event_run E b g Hwf) as Hrun. rewrite He in Hrun.
    destruct Hrun as [ex ->]. eauto 6.
  - rewrite (handle_user_only E rd g u Hwf He). eauto 6.
  - rewrite (handle_applied E rd g u x Hwf He). unfold reply, truediv.
    destruct (req_total (record_event x (add_user E u g)) =? 0) eqn:Hz.
    + eauto 6.
    + do 2 eexists. split; [done|]. right. right. by rewrite Hz.
Qed.

(** C6 (the code departs from the claim).  After the failed write of C1
    no write has succeeded, yet [GET /stats] reports one distinct user: the
    body is the statistics of a state with [totalRequests = 0],
    [uniqueUsers = 1], [sum = 0.0] and [avg = 0.0]. *)
Theorem stats_before_any_successful_write :
  (handle Runtime.cpython Scenario.bad_value initial).1 = Ok HTTP_500 /\
  (handle Runtime.cpython Scenario.stats
     (handle Runtime.cpython Scenario.bad_value initial).2).1 =
  Ok (ok_response
        (format_stats Runtime.cpython 0 1 (S754_zero false) (S754_zero false))).
Proof. split; vm_compute; reflexivity. Qed.

(** On the state at start-up the statistics are all zero, whatever the
    environment. *)
Lemma stats_at_start (E : env) :
  handle E Scenario.stats initial =
  (Ok (ok_response (format_stats E 0 0 (S754_zero false) (S754_zero false))),
   initial).
Proof.
  rewrite handle_run.
  replace (read 2048 Scenario.stats)
    with (@inr exn bytes (Client.get "/stats"), @nil delivery)
    by (vm_compute; reflexivity).
  replace (contains GET_STATS (Client.get "/stats")) with true
    by (vm_compute; reflexivity).
  by rewrite get_stats_run.
Qed.

(** ** Rounding to a float format

    [binary_round prec emax] always lands on a number of the format: the
    mantissa and exponent it returns are canonical and in range.  This is
    what makes a value stored in a [c_float] a binary32 number. *)

Section Rounding.
Variables prec emax : Z.
Hypothesis prec_pos : 0 < prec.

#[local] Abbreviation fexp := (SpecFloat.fexp prec emax).

Lemma fexp_mono (x y : Z) : x <= y -> fexp x <= fexp y.
Proof. unfold SpecFloat.fexp. lia. Qed.

Lemma fexp_emin (x : Z) : x <= fexp x -> fexp x = emin prec emax.
Proof. unfold SpecFloat.fexp. lia. Qed.

Lemma Zdigits2_log2 (p : positive) : Zdigits2 (Zpos p) = Z.log2 (Zpos p) + 1.
Proof.
  cbn [Zdigits2]. induction p as [p IH|p IH|].
  - cbn [digits2_pos]. rewrite Pos2Z.inj_succ, IH.
    change (Zpos p~1) with (2 * Zpos p + 1).
    rewrite Z.log2_succ_double by lia. lia.
  - cbn [digits2_pos]. rewrite Pos2Z.inj_succ, IH.
    change (Zpos p~0) with (2 * Zpos p).
    rewrite Z.log2_double by lia. lia.
  - done.
Qed.

Lemma Zdigits2_nonneg (m : Z) : 0 <= Zdigits2 m.
Proof. destruct m; simpl; lia. Qed.

Lemma Zdigits2_mono (a b : Z) : 0 <= a <= b -> Zdigits2 a <= Zdigits2 b.
Proof.
  intros [Ha Hab]. destruct a as [|a|a]; [apply Zdigits2_nonneg| |lia].
  destruct b as [|b|b]; try lia.
  rewrite !Zdigits2_log2. pose proof (Z.log2_le_mono _ _ Hab). lia.
Qed.

Lemma shr_1_m (mrs : shr_record) :
  0 <= shr_m mrs ->
  0 <= shr_m (shr_1 mrs) /\
  Zdigits2 (shr_m (shr_1 mrs)) = Z.max 0 (Zdigits2 (shr_m mrs) - 1).
Proof.
  destruct mrs as [m r s]. cbn [shr_m]. intros Hm.
  destruct m as [|[p|p|]|p]; cbn [shr_1 shr_m Zdigits2 digits2_pos]; lia.
Qed.

Lemma shr_iter_m (p : positive) (mrs : shr_record) :
  0 <= shr_m mrs ->
  0 <= shr_m (SpecFloat.iter_pos shr_1 p mrs) /\
  Zdigits2 (shr_m (SpecFloat.iter_pos shr_1 p mrs)) =
    Z.max 0 (Zdigits2 (shr_m mrs) - Zpos p).
Proof.
  revert mrs. induction p as [p IH|p IH|]; intros mrs Hm; cbn [SpecFloat.iter_pos].
  - destruct (shr_1_m mrs Hm) as [H1 D1].
    destruct (IH _ H1) as [H2 D2]. destruct (IH _ H2) as [H3 D3].
    split; [done|]. rewrite D3, D2, D1. lia.
  - destruct (IH _ Hm) as [H2 D2]. destruct (IH _ H2) as [H3 D3].
    split; [done|]. rewrite D3, D2. lia.
  - apply shr_1_m, Hm.
Qed.

Lemma shr_record_of_loc_m (m : Z) (l : location) :
  shr_m (shr_record_of_loc m l) = m.
Proof. by destruct l as [|[]]. Qed.

(** Shifting a mantissa that is not too short for its exponent leaves one
    that is exactly right for it, or zero. *)
Lemma shr_fexp_canonical (m e : Z) (l : location) :
  0 <= m -> e <= fexp (Zdigits2 m + e) ->
  0 <= shr_m (shr_fexp prec emax m e l).1 /\
  (shr_fexp prec emax m e l).2 <=
    fexp (Zdigits2 (shr_m (shr_fexp prec emax m e l).1)
          + (shr_fexp prec emax m e l).2) /\
  (0 < shr_m (shr_fexp prec emax m e l).1 ->
   fexp (Zdigits2 (shr_m (shr_fexp prec emax m e l).1)
         + (shr_fexp prec emax m e l).2)
   = (shr_fexp prec emax m e l).2).
Proof.
  intros Hm He. unfold shr_fexp, shr.
  destruct (fexp (Zdigits2 m + e) - e) as [|n|n] eqn:Hn; cbn [fst snd].
  - rewrite shr_record_of_loc_m. split; [done|]. split; [done|]. lia.
  - destruct (shr_iter_m n (shr_record_of_loc m l)) as [H0 D].
    { by rewrite shr_record_of_loc_m. }
    rewrite shr_record_of_loc_m in D. split; [done|].
    set (m' := shr_m (SpecFloat.iter_pos shr_1 n (shr_record_of_loc m l))) in *.
    assert (e + Zpos n = fexp (Zdigits2 m + e)) as He' by lia.
    destruct (Z.le_gt_cases (Zdigits2 m) (Zpos n)) as [Hle|Hgt].
    + assert (Zdigits2 m' = 0) as D0 by lia.
      assert (fexp (Zdigits2 m + e) = emin prec emax) as Hemin
        by (apply fexp_emin; lia).
      split.
      * rewrite D0, He', Hemin. unfold SpecFloat.fexp. lia.
      * intros Hpos. destruct m'; try lia. simpl in D0. lia.
    + assert (Zdigits2 m' + (e + Zpos n) = Zdigits2 m + e) as -> by lia.
      split; [lia|]. intros _. lia.
  - lia.
Qed.

Lemma round_nearest_even_ge (m : Z) (l : location) :
  m <= round_nearest_even m l.
Proof. destruct l as [|[]]; simpl; try lia. destruct (Z.even m); lia. Qed.

Lemma binary_round_aux_valid (s : bool) (m e : Z) (l : location) :
  0 <= m -> e <= fexp (Zdigits2 m + e) ->
  valid_binary prec emax (binary_round_aux prec emax s m e l) = true.
Proof.
  intros Hm He. unfold binary_round_aux.
  destruct (shr_fexp_canonical m e l Hm He) as (H1 & L1 & _).
  destruct (shr_fexp prec emax m e l) as [mrs1 e1]. cbn [fst snd] in *.
  set (m2 := round_nearest_even (shr_m mrs1) (loc_of_shr_record mrs1)).
  pose proof (round_nearest_even_ge (shr_m mrs1) (loc_of_shr_record mrs1)) as Hge.
  fold m2 in Hge.
  assert (e1 <= fexp (Zdigits2 m2 + e1)) as L2.
  { etransitivity; [exact L1|]. apply fexp_mono.
    pose proof (Zdigits2_mono (shr_m mrs1) m2). lia. }
  destruct (shr_fexp_canonical m2 e1 loc_Exact) as (H3 & _ & C3); [lia|done|].
  destruct (shr_fexp prec emax m2 e1 loc_Exact) as [mrs3 e3]. cbn [fst snd] in *.
  destruct (shr_m mrs3) as [|m3|m3]; [done| |lia].
  destruct (e3 <=? emax - prec) eqn:Hb; [|done].
  cbn [valid_binary]. unfold bounded, canonical_mantissa.
  rewrite Hb, andb_true_r. apply Z.eqb_eq. apply C3. lia.
Qed.

Lemma digits2_shl (m d : positive) :
  Zpos (digits2_pos (Pos.iter xO m d)) = Zpos (digits2_pos m) + Zpos d.
Proof.
  induction d as [|d IH] using Pos.peano_ind.
  - simpl. lia.
  - rewrite Pos.iter_succ. cbn [digits2_pos]. lia.
Qed.

Theorem binary_round_valid (s : bool) (m : positive) (e : Z) :
  valid_binary prec emax (binary_round prec emax s m e) = true.
Proof.
  unfold binary_round, shl_align.
  destruct (fexp (Zpos (digits2_pos m) + e) - e) as [|d|d] eqn:Hd.
  - apply binary_round_aux_valid; [lia|]. cbn [Zdigits2]. lia.
  - apply binary_round_aux_valid; [lia|]. cbn [Zdigits2]. lia.
  - apply binary_round_aux_valid; [lia|]. cbn [Zdigits2].
    rewrite digits2_shl.
    assert (Zpos (digits2_pos m) + Zpos d + fexp (Zpos (digits2_pos m) + e)
            = Zpos (digits2_pos m) + e) as -> by lia.
    lia.
Qed.

End Rounding.

(** What a [c_float] holds is a binary32 number, what is read from it a
    binary64 number. *)
Lemma c_float_set_valid (x : spec_float) :
  valid_binary 24 128 (c_float_set x) = true.
Proof. destruct x; try done. by apply binary_round_valid. Qed.

Lemma c_float_get_valid (x : spec_float) :
  valid_binary 53 1024 (c_float_get x) = true.
Proof. destruct x; try done. by apply binary_round_valid. Qed.

(** ** The two counters *)

Lemma c_int_set_add (a b : Z) : c_int_set (c_int_set a + b) = c_int_set (a + b).
Proof.
  unfold c_int_set. f_equal.
  replace ((a + 2 ^ 31) mod 2 ^ 32 - 2 ^ 31 + b + 2 ^ 31)
    with ((a + 2 ^ 31) mod 2 ^ 32 + b) by lia.
  rewrite Zplus_mod_idemp_l. f_equal. lia.
Qed.

Lemma c_int_set_int32 (v : Z) : int32 (c_int_set v).
Proof.
  unfold int32, c_int_set.
  pose proof (Z.mod_pos_bound (v + 2 ^ 31) (2 ^ 32)). lia.
Qed.

Lemma c_int_set_small (v : Z) : int32 v -> c_int_set v = v.
Proof.
  unfold int32, c_int_set. intros Hv. rewrite Z.mod_small by lia. lia.
Qed.

Lemma c_int_set_nonzero (k : Z) : 0 < k < 2 ^ 32 -> c_int_set k <> 0.
Proof.
  unfold c_int_set. intros Hk.
  destruct (Z.lt_ge_cases k (2 ^ 31)).
  - rewrite Z.mod_small by lia. lia.
  - replace (k + 2 ^ 31) with (k - 2 ^ 31 + 1 * 2 ^ 32) by lia.
    rewrite Z.mod_add by lia. rewrite Z.mod_small by lia. lia.
Qed.

Section Counters.
Context (E : env).

Lemma serial_effects (rds : list reader) (g : globals) :
  wf g ->
  (serial E rds g).2 =
  fold_left (fun g rd => apply_effect E (effect_of E rd) g) rds g.
Proof.
  revert g. induction rds as [|rd rds IH]; intros g Hwf; [done|].
  cbn [serial fold_left].
  destruct (handle_effect E rd g Hwf) as [resp ->].
  specialize (IH _ (wf_apply_effect E (effect_of E rd) g Hwf)).
  by destruct (serial E rds _).
Qed.

Lemma req_total_add_user (u : pyobj) (g : globals) :
  req_total (add_user E u g) = req_total g /\
  req_sum (add_user E u g) = req_sum g.
Proof.
  unfold add_user. destruct (shard_index E u); [done|].
  by destruct (shards g !! _).
Qed.

Lemma req_total_apply_effect (e : effect) (g : globals) :
  req_total (apply_effect E e g) =
  if is_applied e then c_int_set (req_total g + 1) else req_total g.
Proof.
  destruct e as [|u|u x]; cbn; [done|..];
    by destruct (req_total_add_user u g) as [-> _].
Qed.

Lemma req_sum_apply_effect (e : effect) (g : globals) :
  req_sum (apply_effect E e g) = req_sum g \/
  exists y, req_sum (apply_effect E e g) = c_float_set y.
Proof.
  destruct e as [|u|u x]; cbn; [by left|..].
  - left. by destruct (req_total_add_user u g) as [_ ->].
  - right. by eexists.
Qed.

Lemma applied_count_snoc (rds : list reader) (rd : reader) :
  Z.of_nat (applied_count E (rds ++ [rd])) =
  Z.of_nat (applied_count E rds) + (if is_applied (effect_of E rd) then 1 else 0).
Proof.
  unfold applied_count. rewrite filter_app, length_app.
  assert (length (filter (fun rd => is_applied (effect_of E rd) = true) [rd])
          = if is_applied (effect_of E rd) then 1%nat else 0%nat) as ->.
  { unfold filter, list_filter. cbn.
    destruct (decide _) as [->|Hn]; [done|].
    by destruct (is_applied (effect_of E rd)). }
  destruct (is_applied (effect_of E rd)); lia.
Qed.

Lemma counters_after_effects (rds : list reader) :
  let g := fold_left (fun g rd => apply_effect E (effect_of E rd) g) rds initial in
  req_total g = c_int_set (Z.of_nat (applied_count E rds)) /\
  valid_binary 24 128 (req_sum g) = true.
Proof.
  induction rds as [|rd rds IH] using rev_ind; [done|].
  rewrite fold_left_app. cbn [fold_left]. cbn zeta in IH.
  destruct IH as [Ht Hs].
  set (g := fold_left _ rds initial) in *. split.
  - rewrite req_total_apply_effect, applied_count_snoc, Ht.
    destruct (is_applied (effect_of E rd)).
    + apply c_int_set_add.
    + f_equal. lia.
  - destruct (req_sum_apply_effect (effect_of E rd) g) as [->|[y ->]]; [done|].
    apply c_float_set_valid.
Qed.

End Counters.


Lemma is_200_stats (E : env) (g : globals) (avg : spec_float) :
  is_200 (Ok (stats_response E g avg)) = true.
Proof. unfold is_200, stats_response, ok_response. apply starts_with_app. Qed.

(** [n] connections sending the same applied event, fewer than [2^32] of
    them: every one is answered with 200 and the counter ends at [n]
    reduced to 32 bits. *)
Lemma writes_run (E : env) (rd : reader) (u : pyobj) (x : spec_float) :
  effect_of E rd = Applied u x ->
  forall n : N,
    Z.of_N n < 2 ^ 32 ->
    (writes E rd n).1 = true /\
    reachable E (writes E rd n).2 /\
    req_total (writes E rd n).2 = c_int_set (Z.of_N n).
Proof.
  intros He n. induction n as [|n IH] using N.peano_ind; intros Hn.
  - repeat split. apply reachable_initial.
  - destruct IH as (Hok & Hreach & Htot); [lia|].
    unfold writes in *. rewrite N.iter_succ.
    set (st := N.iter n (again E rd) (true, initial)) in *.
    unfold again.
    pose proof (reachable_wf E _ Hreach) as Hwf.
    pose proof (handle_applied E rd st.2 u x Hwf He) as Hh.
    set (g' := record_event x (add_user E u st.2)) in *.
    assert (req_total g' = c_int_set (Z.of_N (N.succ n))) as Hg'.
    { unfold g', record_event. cbn [req_total set_req_total].
      destruct (req_total_add_user E u st.2) as [-> _].
      rewrite Htot, c_int_set_add. f_equal. lia. }
    assert (req_total g' <> 0) as Hnz.
    { rewrite Hg'. apply c_int_set_nonzero. lia. }
    rewrite (reply_Ok E g' Hnz) in Hh.
    assert (reachable E g') as Hreach'.
    { eapply reachable_handle; [exact Hreach | exact Hh]. }
    rewrite Hh. cbn [fst snd]. rewrite Hok, is_200_stats. done.
Qed.


(** ** Handlers taking turns *)

Section Schedules.
Context (E : env).

Lemma post_event_result (b : bytes) (g : globals) :
  wf g ->
  exists r g', post_event E b g = (r, g') /\ r <> Blocked.
Proof.
  intros Hwf. pose proof (post_event_run E b g Hwf) as Hrun.
  destruct (body_effect E b) as [|u|u x].
  - destruct Hrun as [ex ->]. by eexists _, _.
  - destruct Hrun as [ex ->]. by eexists _, _.
  - rewrite Hrun. eexists _, _. split; [done|].
    unfold reply. by destruct (truediv _ _).
Qed.

(** Resuming a task that has just been accepted either finishes it, with
    the response and state of [handle], or leaves it waiting for the rest
    of the body with the module state untouched. *)
Lemma resume_accepted (rd : reader) (g : globals) :
  wf g ->
  (exists data rd1 b remaining,
     read 2048 rd = (inr data, rd1) /\
     contains GET_STATS data = false /\ contains POST_EVENT data = true /\
     parse_event data = inr (b, remaining) /\ 0 < remaining /\
     resume E (Accepted rd) g = (ReadingBody rd1 b remaining, g)) \/
  (exists response g',
     handle E rd g = (Ok response, g') /\
     resume E (Accepted rd) g = (Finished response, g')).
Proof.
  intros Hwf. rewrite handle_run. unfold resume, request_body.
  destruct (read 2048 rd) as [[e|data] rd1] eqn:Hrd.
  { right. by eexists _, _. }
  cbv [try_except mbind M_bind lift fmap M_fmap].
  destruct (contains GET_STATS data) eqn:Hget.
  { right. rewrite get_stats_run. by eexists _, _. }
  destruct (contains POST_EVENT data) eqn:Hpost.
  2: { right. by eexists _, _. }
  destruct (parse_event data) as [e|[b remaining]] eqn:Hparse.
  { right. by eexists _, _. }
  destruct (Z.ltb_spec 0 remaining) as [Hrem|Hrem].
  - left. by exists data, rd1, b, remaining.
  - right. destruct (post_event_result b g Hwf) as (r & g' & Hp & Hr).
    rewrite Hp. destruct r as [resp|ex|]; [| |done]; by eexists _, _.
Qed.

(** Resuming a task that waits for the rest of its body finishes it, with
    the response and state [handle] gives for the whole connection. *)
Lemma resume_reading (rd rd1 : reader) (data b : bytes) (remaining : Z) (g : globals) :
  wf g ->
  read 2048 rd = (inr data, rd1) ->
  contains GET_STATS data = false -> contains POST_EVENT data = true ->
  parse_event data = inr (b, remaining) -> 0 < remaining ->
  exists response g',
    handle E rd g = (Ok response, g') /\
    resume E (ReadingBody rd1 b remaining) g = (Finished response, g').
Proof.
  intros Hwf Hrd Hget Hpost Hparse Hrem.
  rewrite handle_run, Hrd, Hget, Hpost.
  rewrite (request_body_one_read rd rd1 data b remaining) by done.
  unfold resume. cbv [try_except mbind M_bind lift fmap M_fmap].
  destruct (read (Z.to_nat remaining) rd1) as [[e|more] rd2]; cbn [fst].
  { by eexists _, _. }
  destruct (post_event_result (b ++ more) g Hwf) as (r & g' & Hp & Hr).
  rewrite Hp. destruct r as [resp|ex|]; [| |done]; by eexists _, _.
Qed.

Lemma serial_app (rds1 rds2 : list reader) (g : globals) :
  serial E (rds1 ++ rds2) g =
  ((serial E rds1 g).1 ++ (serial E rds2 (serial E rds1 g).2).1,
   (serial E rds2 (serial E rds1 g).2).2).
Proof.
  revert g. induction rds1 as [|rd rds1 IH]; intros g; cbn [serial app].
  - cbn. by destruct (serial E rds2 g).
  - destruct (handle E rd g) as [r g1]. rewrite IH.
    by destruct (serial E rds1 g1).
Qed.

Lemma serial_length (rds : list reader) (g : globals) :
  length (serial E rds g).1 = length rds.
Proof.
  revert g. induction rds as [|rd rds IH]; intros g; cbn [serial]; [done|].
  destruct (handle E rd g) as [r g1]. specialize (IH g1).
  destruct (serial E rds g1). cbn in *. by rewrite IH.
Qed.

Lemma serialised_initial (rds : list reader) (g0 : globals) :
  wf g0 -> serialised E rds g0 (g0, Accepted <$> rds) [].
Proof.
  intros Hwf. split; cbn [fst snd]; try done.
  - constructor.
  - by rewrite length_fmap.
  - intros i rd t Hrd Ht. rewrite list_lookup_fmap, Hrd in Ht.
    injection Ht as <-. split; [done|]. cbn. split; [done|].
    by intros ?%not_elem_of_nil.
Qed.

(** A task that takes a turn without finishing. *)
Lemma serialised_wait (rds : list reader) (g0 g : globals) (ts : list task)
    (order : list nat) (i : nat) (rd : reader) (t t' : task) :
  serialised E rds g0 (g, ts) order ->
  rds !! i = Some rd -> ts !! i = Some t -> finished t = false ->
  task_of rd t' -> finished t' = false ->
  serialised E rds g0 (g, <[i := t']> ts) order.
Proof.
  intros [Hnd Hwf Hst Hlen Htasks Hresp] Hrd Ht Hunf Htask' Hunf'.
  cbn [fst snd] in *.
  assert (i ∉ order) as Hi.
  { intros Hin. apply (Htasks i rd t Hrd Ht) in Hin. congruence. }
  split; cbn [fst snd]; try done.
  - by rewrite length_insert.
  - intros j rd' tj Hrd' Htj.
    destruct (decide (i = j)) as [<-|Hne].
    + rewrite list_lookup_insert_eq in Htj by (by eapply lookup_lt_Some).
      injection Htj as <-. replace rd' with rd by congruence.
      split; [done|]. rewrite Hunf'. split; [done|]. by intros ?%Hi.
    + rewrite list_lookup_insert_ne in Htj by done. by apply Htasks.
  - intros k j Hk. destruct (Hresp k j Hk) as (resp & Hj & Hr).
    exists resp. split; [|done].
    rewrite list_lookup_insert_ne; [done|].
    intros ->. apply Hi. by eapply list_elem_of_lookup_2.
Qed.

(** A task that takes its last turn: what it does is what [handle] does
    on the state it finds, and it goes to the end of the order. *)
Lemma serialised_finish (rds : list reader) (g0 g g' : globals) (ts : list task)
    (order : list nat) (i : nat) (rd : reader) (t : task) (response : bytes) :
  serialised E rds g0 (g, ts) order ->
  rds !! i = Some rd -> ts !! i = Some t -> finished t = false ->
  handle E rd g = (Ok response, g') ->
  serialised E rds g0 (g', <[i := Finished response]> ts) (order ++ [i]).
Proof.
  intros [Hnd Hwf Hst Hlen Htasks Hresp] Hrd Ht Hunf Hh.
  cbn [fst snd] in *.
  assert (i ∉ order) as Hi.
  { intros Hin. apply (Htasks i rd t Hrd Ht) in Hin. congruence. }
  assert (serial E (pick rds <$> order ++ [i]) g0 =
          ((serial E (pick rds <$> order) g0).1 ++ [Ok response], g')) as Hser.
  { rewrite fmap_app, serial_app, Hst. cbn [fmap list_fmap serial].
    assert (pick rds i = rd) as -> by (unfold pick; by rewrite Hrd).
    by rewrite Hh. }
  split; cbn [fst snd].
  - apply NoDup_app. split; [done|]. split; [|apply NoDup_singleton].
    intros x Hx ->%list_elem_of_singleton. done.
  - pose proof (wf_handle E rd g Hwf) as Hwf'. by rewrite Hh in Hwf'.
  - by rewrite Hser.
  - by rewrite length_insert.
  - intros j rd' tj Hrd' Htj.
    destruct (decide (i = j)) as [<-|Hne].
    + rewrite list_lookup_insert_eq in Htj by (by eapply lookup_lt_Some).
      injection Htj as <-. split; [done|]. cbn. split; [|done].
      intros _. apply elem_of_app. right. by apply list_elem_of_singleton.
    + rewrite list_lookup_insert_ne in Htj by done.
      destruct (Htasks j rd' tj Hrd' Htj) as [Htask Hfin]. split; [done|].
      rewrite Hfin, elem_of_app, list_elem_of_singleton.
      split; [by left | by intros [?|?]].
  - intros k j Hk. rewrite Hser. cbn [fst].
    pose proof (serial_length (pick rds <$> order) g0) as Hlen'.
    rewrite length_fmap in Hlen'.
    destruct (decide (k < length order)%nat) as [Hlt|Hge].
    + rewrite lookup_app_l in Hk by done.
      destruct (Hresp k j Hk) as (resp & Hj & Hr). exists resp. split.
      * rewrite list_lookup_insert_ne; [done|].
        intros ->. apply Hi. by eapply list_elem_of_lookup_2.
      * rewrite lookup_app_l by lia. done.
    + rewrite lookup_app_r in Hk by lia.
      destruct (k - length order)%nat as [|n] eqn:Hk'; [|by destruct n].
      injection Hk as <-. exists response. split.
      * apply list_lookup_insert_eq. by eapply lookup_lt_Some.
      * rewrite lookup_app_r by lia. by rewrite Hlen', Hk'.
Qed.

(** Every turn keeps the handlers serialised: no interleaving gets
    between the reads and writes of one update. *)
Lemma serialised_turn (rds : list reader) (g0 : globals)
    (sys sys' : globals * list task) (order : list nat) :
  serialised E rds g0 sys order -> turn E sys sys' ->
  exists order', serialised E rds g0 sys' order'.
Proof.
  intros Hser Hturn. destruct Hturn as [g ts i t t' g' Ht Hsusp Hres].
  pose proof (ser_wf _ _ _ _ _ Hser) as Hwf.
  pose proof (ser_length _ _ _ _ _ Hser) as Hlen. cbn [fst snd] in *.
  destruct (lookup_lt_is_Some_2 rds i) as [rd Hrd].
  { rewrite <- Hlen. by eapply lookup_lt_Some. }
  destruct (ser_tasks _ _ _ _ _ Hser i rd t Hrd Ht) as [Htask _].
  destruct t as [rd'|rd1 b remaining| |resp]; try done.
  - cbn in Htask. subst rd'.
    destruct (resume_accepted rd g Hwf)
      as [(data & rd1 & b & remaining & Hread & Hget & Hpost & Hparse & Hrem & Hr)
         |(resp & g1 & Hh & Hr)];
      rewrite Hr in Hres; injection Hres as <- <-.
    + exists order. eapply serialised_wait; try done. by exists data.
    + exists (order ++ [i]). by eapply serialised_finish.
  - destruct Htask as (data & Hread & Hget & Hpost & Hparse & Hrem).
    destruct (resume_reading rd rd1 data b remaining g Hwf Hread Hget Hpost Hparse Hrem)
      as (resp & g1 & Hh & Hr).
    rewrite Hr in Hres. injection Hres as <- <-.
    exists (order ++ [i]). by eapply serialised_finish.
Qed.

Lemma serialised_run (rds : list reader) (g0 : globals) (sys : globals * list task) :
  wf g0 -> rtc (turn E) (g0, Accepted <$> rds) sys ->
  exists order, serialised E rds g0 sys order.
Proof.
  intros Hwf Hrun. revert sys Hrun. apply rtc_ind_r.
  - exists []. by apply serialised_initial.
  - intros sys sys' Hrun Hturn [order Hser]. by eapply serialised_turn.
Qed.

(** Once every task is finished, the order is an ordering of all the
    connections. *)
Lemma serialised_all (rds : list reader) (g0 : globals) (sys : globals * list task)
    (order : list nat) :
  serialised E rds g0 sys order ->
  Forall (fun t => finished t = true) sys.2 ->
  order ≡ₚ seq 0 (length rds).
Proof.
  intros [Hnd Hwf Hst Hlen Htasks Hresp] Hall.
  apply NoDup_Permutation; [done|apply NoDup_seq|].
  intros i. rewrite elem_of_seq. split.
  - intros [k Hk]%list_elem_of_lookup_1.
    destruct (Hresp k i Hk) as (resp & Hi & _).
    apply lookup_lt_Some in Hi. lia.
  - intros [_ Hi].
    destruct (lookup_lt_is_Some_2 rds i) as [rd Hrd]; [lia|].
    destruct (lookup_lt_is_Some_2 sys.2 i) as [t Ht]; [lia|].
    apply (Htasks i rd t Hrd Ht).
    by apply (proj1 (Forall_lookup _ _) Hall i t).
Qed.

(** No task waits for another task: an unfinished one takes a turn as
    soon as the read it awaits returns. *)
Lemma turn_enabled (rds : list reader) (g0 : globals) (sys : globals * list task)
    (order : list nat) (i : nat) (t : task) :
  serialised E rds g0 sys order ->
  sys.2 !! i = Some t -> finished t = false ->
  exists sys', turn E sys sys'.
Proof.
  intros Hser Ht Hunf. destruct sys as [g ts]. cbn [snd] in Ht.
  pose proof (ser_length _ _ _ _ _ Hser) as Hlen. cbn [snd] in Hlen.
  destruct (lookup_lt_is_Some_2 rds i) as [rd Hrd].
  { rewrite <- Hlen. by eapply lookup_lt_Some. }
  destruct (ser_tasks _ _ _ _ _ Hser i rd t Hrd Ht) as [Htask _].
  exists ((resume E t g).2, <[i := (resume E t g).1]> ts).
  eapply turn_resume; [done| |by destruct (resume E t g)].
  by destruct t.
Qed.

(** Every turn uses up one of the at most two turns of some task. *)
Lemma turn_decreases (rds : list reader) (g0 : globals)
    (sys sys' : globals * list task) (order : list nat) :
  serialised E rds g0 sys order -> turn E sys sys' ->
  (sum_list (turns_left <$> sys'.2) < sum_list (turns_left <$> sys.2))%nat.
Proof.
  intros Hser Hturn. destruct Hturn as [g ts i t t' g' Ht Hsusp Hres].
  pose proof (ser_wf _ _ _ _ _ Hser) as Hwf.
  pose proof (ser_length _ _ _ _ _ Hser) as Hlen. cbn [fst snd] in *.
  destruct (lookup_lt_is_Some_2 rds i) as [rd Hrd].
  { rewrite <- Hlen. by eapply lookup_lt_Some. }
  destruct (ser_tasks _ _ _ _ _ Hser i rd t Hrd Ht) as [Htask _].
  pose proof (sum_fmap_insert turns_left ts i t t' Ht) as Hsum.
  assert (turns_left t' < turns_left t)%nat as Hlt; [|clear Ht; lia].
  destruct t as [rd'|rd1 b remaining| |resp]; try done.
  - cbn in Htask. subst rd'.
    destruct (resume_accepted rd g Hwf)
      as [(data & rd1 & b & remaining & _ & _ & _ & _ & _ & Hr)
         |(resp & g1 & _ & Hr)];
      rewrite Hr in Hres; injection Hres as <- <-; cbn; lia.
  - destruct Htask as (data & Hread & Hget & Hpost & Hparse & Hrem).
    destruct (resume_reading rd rd1 data b remaining g Hwf Hread Hget Hpost Hparse Hrem)
      as (resp & g1 & _ & Hr).
    rewrite Hr in Hres. injection Hres as <- <-. cbn. lia.
Qed.

(** A task takes at most two turns, one per read. *)
Lemma turns_bounded (rds : list reader) (g0 : globals) (k : nat)
    (sys : globals * list task) :
  wf g0 -> nsteps (turn E) k (g0, Accepted <$> rds) sys ->
  (k <= 2 * length rds)%nat.
Proof.
  intros Hwf Hrun.
  assert (forall k sys sys',
            (exists order, serialised E rds g0 sys order) ->
            nsteps (turn E) k sys sys' ->
            (k + sum_list (turns_left <$> sys'.2) <= sum_list (turns_left <$> sys.2))%nat)
    as Hgen.
  { clear. intros k sys sys' Hser Hrun.
    induction Hrun as [sys|k sys sys1 sys' Hturn Hrun IH]; [lia|].
    destruct Hser as [order Hser].
    pose proof (turn_decreases rds g0 sys sys1 order Hser Hturn).
    specialize (IH (serialised_turn rds g0 sys sys1 order Hser Hturn)). lia. }
  specialize (Hgen k _ sys (ex_intro _ [] (serialised_initial rds g0 Hwf)) Hrun).
  cbn [snd] in Hgen.
  assert (sum_list (turns_left <$> (Accepted <$> rds)) = 2 * length rds)%nat as Hinit.
  { clear. induction rds as [|rd rds IH]; [done|]. csimpl. lia. }
  lia.
Qed.

Lemma run_to_end (rds : list reader) (g0 : globals) (sys : globals * list task)
    (order : list nat) :
  serialised E rds g0 sys order ->
  exists sys',
    rtc (turn E) sys sys' /\ Forall (fun t => finished t = true) sys'.2.
Proof.
  remember (sum_list (turns_left <$> sys.2)) as m eqn:Hm.
  revert sys order Hm.
  induction m as [m IH] using lt_wf_ind. intros sys order Hm Hser.
  destruct (decide (Forall (fun t => finished t = true) sys.2)) as [Hall|Hnot].
  { by exists sys. }
  apply not_Forall_Exists in Hnot; [|intros t; apply _].
  apply Exists_exists in Hnot as (t & [i Hi]%list_elem_of_lookup_1 & Hunf).
  cbn in Hunf. apply not_true_is_false in Hunf.
  destruct (turn_enabled rds g0 sys order i t Hser Hi Hunf) as [sys1 Hturn].
  destruct (serialised_turn rds g0 sys sys1 order Hser Hturn) as [order1 Hser1].
  pose proof (turn_decreases rds g0 sys sys1 order Hser Hturn) as Hlt.
  destruct (IH _ ltac:(subst m; exact Hlt) sys1 order1 eq_refl Hser1)
    as (sys' & Hrun & Hall).
  exists sys'. split; [|done]. by eapply rtc_l.
Qed.

Lemma pick_seq (rds : list reader) : pick rds <$> seq 0 (length rds) = rds.
Proof.
  apply list_eq. intros i. rewrite list_lookup_fmap.
  destruct (decide (i < length rds)%nat) as [Hlt|Hge].
  - rewrite lookup_seq_lt by done. cbn. unfold pick.
    by destruct (lookup_lt_is_Some_2 rds i Hlt) as [rd ->].
  - rewrite lookup_seq_ge by lia. cbn. symmetry. apply lookup_ge_None. lia.
Qed.

Lemma applied_count_order (rds : list reader) (order : list nat) :
  order ≡ₚ seq 0 (length rds) ->
  applied_count E (pick rds <$> order) = applied_count E rds.
Proof.
  intros Hperm. unfold applied_count.
  rewrite <- (pick_seq rds) at 2. by rewrite Hperm.
Qed.

(** The module state seen between any two turns is one the handlers
    finished so far would have left running one after the other. *)
Lemma schedule_reachable (rds : list reader) (sys : globals * list task) :
  rtc (turn E) (initial, Accepted <$> rds) sys -> reachable E sys.1.
Proof.
  intros Hrun.
  destruct (serialised_run rds initial sys wf_initial Hrun) as [order Hser].
  rewrite <- (ser_state _ _ _ _ _ Hser).
  rewrite (serial_effects E _ initial wf_initial).
  apply reachable_effects. by eexists.
Qed.

(** The state a finished schedule leaves: that of the handlers run one
    after the other in their order of completion, whatever the turns in
    between were. *)
Lemma schedule_serial (rds : list reader) (g : globals) (ts : list task) :
  rtc (turn E) (initial, Accepted <$> rds) (g, ts) ->
  Forall (fun t => finished t = true) ts ->
  exists order,
    order ≡ₚ seq 0 (length rds) /\
    (serial E (pick rds <$> order) initial).2 = g /\
    (forall k i,
       order !! k = Some i ->
       exists response,
         ts !! i = Some (Finished response) /\
         (serial E (pick rds <$> order) initial).1 !! k = Some (Ok response)) /\
    req_total g = c_int_set (Z.of_nat (applied_count E rds)).
Proof.
  intros Hrun Hall.
  destruct (serialised_run rds initial (g, ts) wf_initial Hrun) as [order Hser].
  pose proof (serialised_all rds initial (g, ts) order Hser Hall) as Hperm.
  exists order. split; [done|].
  split; [apply (ser_state _ _ _ _ _ Hser)|].
  split; [apply (ser_responses _ _ _ _ _ Hser)|].
  pose proof (ser_state _ _ _ _ _ Hser) as Hst. cbn [fst] in Hst.
  rewrite <- Hst, (serial_effects E _ initial wf_initial).
  destruct (counters_after_effects E (pick rds <$> order)) as [-> _].
  by rewrite applied_count_order.
Qed.
End Schedules.

Lemma turn_at_turn (E : env) (i : nat) (sys sys' : globals * list task) :
  turn_at E i sys = Some sys' -> turn E sys sys'.
Proof.
  unfold turn_at. destruct sys as [g ts]. cbn [fst snd].
  destruct (ts !! i) as [t|] eqn:Ht; [|done].
  destruct (suspended t) eqn:Hs; [|done]. intros [= <-].
  eapply turn_resume; [done..|]. by destruct (resume E t g).
Qed.

Lemma schedule_run (E : env) (turns : list nat) (sys sys' : globals * list task) :
  schedule E turns sys = Some sys' -> rtc (turn E) sys sys'.
Proof.
  revert sys. induction turns as [|i turns IH]; intros sys; cbn [schedule].
  - by intros [= <-].
  - destruct (turn_at E i sys) as [sys1|] eqn:Hturn; [|done].
    intros Hrest. eapply rtc_l; [by eapply turn_at_turn | by apply IH].
Qed.

Lemma applied_count_replicate (E : env) (rd : reader) (n : nat) :
  is_applied (effect_of E rd) = true ->
  applied_count E (replicate n rd) = n.
Proof.
  intros Ha. unfold applied_count.
  induction n as [|n IH]; [done|].
  cbn [replicate]. rewrite filter_cons_True by done. cbn. by rewrite IH.
Qed.

(** C2 as the code has it.  Handlers started together on the state at
    start-up are run by the event loop in any interleaving of their turns.
    Once they have all finished, the state they leave is the state the same
    handlers leave when run one after the other in their order of
    completion: every applied event has added its value to [req_sum] and 1
    to [req_total] exactly once.  So [totalRequests] is the number of
    applied writes, reduced to the signed 32 bits of its C [int]: equal to
    that number while it is below [2^31]. *)
Theorem interleaving_loses_no_update
    (E : env) (rds : list reader) (g : globals) (ts : list task) :
  rtc (turn E) (initial, Accepted <$> rds) (g, ts) ->
  Forall (fun t => finished t = true) ts ->
  (exists order,
     order ≡ₚ seq 0 (length rds) /\
     (serial E (pick rds <$> order) initial).2 = g /\
     (forall k i,
        order !! k = Some i ->
        exists response,
          ts !! i = Some (Finished response) /\
          (serial E (pick rds <$> order) initial).1 !! k = Some (Ok response))) /\
  req_total g = c_int_set (Z.of_nat (applied_count E rds)) /\
  (Z.of_nat (applied_count E rds) < 2 ^ 31 ->
   req_total g = Z.of_nat (applied_count E rds)).
Proof.
  intros Hrun Hall.
  destruct (schedule_serial E rds g ts Hrun Hall)
    as (order & Hperm & Hst & Hresp & Htot).
  split; [by exists order|]. split; [done|].
  intros Hlt. rewrite Htot. apply c_int_set_small. unfold int32. lia.
Qed.

Lemma interleaving_loses_no_update_witness :
  rtc (turn Runtime.cpython) (initial, Accepted <$> Concurrent.two_clients)
    (Concurrent.interleaved.1, Concurrent.interleaved.2) /\
  Forall (fun t => finished t = true) Concurrent.interleaved.2 /\
  req_total Concurrent.interleaved.1 = 2.
Proof.
  assert (schedule Runtime.cpython [0; 1; 0]%nat
            (initial, Accepted <$> Concurrent.two_clients)
          = Some (Concurrent.interleaved.1, Concurrent.interleaved.2)) as Hs
    by (vm_compute; reflexivity).
  pose proof (schedule_run _ _ _ _ Hs) as Hrun.
  assert (Forall (fun t => finished t = true) Concurrent.interleaved.2) as Hall.
  { apply Forall_lookup. intros [|[|i]] t Ht; vm_compute in Ht; [..|done];
      by injection Ht as <-. }
  destruct (interleaving_loses_no_update Runtime.cpython Concurrent.two_clients
              _ _ Hrun Hall) as (_ & _ & Hsmall).
  split; [exact Hrun|]. split; [exact Hall|].
  rewrite Hsmall; vm_compute; reflexivity.
Defined.

(** With [n] connections all sending the same applied event, some
    schedule runs them all to the end, and the counter is then [n] reduced
    to 32 bits. *)
Lemma same_writes_together (E : env) (rd : reader) (n : nat) :
  is_applied (effect_of E rd) = true ->
  exists g ts,
    rtc (turn E) (initial, Accepted <$> replicate n rd) (g, ts) /\
    Forall (fun t => finished t = true) ts /\
    applied_count E (replicate n rd) = n /\
    req_total g = c_int_set (Z.of_nat n).
Proof.
  intros Ha.
  destruct (run_to_end E (replicate n rd) initial _ []
              (serialised_initial E _ initial wf_initial))
    as ([g ts] & Hrun & Hall).
  exists g, ts. split; [exact Hrun|]. split; [exact Hall|].
  split; [by apply applied_count_replicate|].
  destruct (schedule_serial E _ g ts Hrun Hall) as (_ & _ & _ & _ & ->).
  by rewrite applied_count_replicate.
Qed.

(** C2 as stated fails for [2^31] concurrent writes: all of them are
    applied, and the final [totalRequests] is [-2^31], not their number. *)
Lemma interleaved_counter_wraps :
  exists g ts,
    rtc (turn Runtime.cpython)
      (initial,
       Accepted <$> replicate (N.to_nat (2 ^ 31)) (Scenario.write "alice" "1"))
      (g, ts) /\
    Forall (fun t => finished t = true) ts /\
    Z.of_nat
      (applied_count Runtime.cpython
         (replicate (N.to_nat (2 ^ 31)) (Scenario.write "alice" "1")))
    = 2 ^ 31 /\
    req_total g = - 2 ^ 31.
Proof.
  assert (is_applied (effect_of Runtime.cpython (Scenario.write "alice" "1"))
          = true) as Ha by (vm_compute; reflexivity).
  destruct (same_writes_together Runtime.cpython _ (N.to_nat (2 ^ 31)) Ha)
    as (g & ts & Hrun & Hall & Hcount & Htot).
  exists g, ts. split; [exact Hrun|]. split; [exact Hall|].
  rewrite Hcount, N_nat_Z in *. split; [reflexivity|].
  rewrite Htot. reflexivity.
Qed.

(** * More of the handler *)

(** ** The length header *)

(** [take_while] and [drop_while] cut a list in two. *)
Lemma take_drop_while (f : byte -> bool) (l : bytes) :
  l = take_while f l ++ drop_while f l.
Proof.
  induction l as [|c l IH]; [reflexivity|]. simpl.
  destruct (f c); [simpl; congruence | reflexivity].
Qed.

Lemma take_while_all (f : byte -> bool) (l : bytes) :
  forallb f (take_while f l) = true.
Proof.
  induction l as [|c l IH]; [reflexivity|]. simpl.
  destruct (f c) eqn:Hc; [simpl; rewrite Hc; exact IH | reflexivity].
Qed.

Lemma drop_while_stop (f : byte -> bool) (l : bytes) (c : byte) (l' : bytes) :
  drop_while f l = c :: l' -> f c = false.
Proof.
  induction l as [|x l IH]; simpl; [discriminate|].
  destruct (f x) eqn:Hx; [exact IH|]. intros [= -> _]. exact Hx.
Qed.

Lemma istarts_with_inv (p l : bytes) :
  istarts_with p l = true ->
  lower <$> take (length p) l = lower <$> p /\ length (take (length p) l) = length p.
Proof.
  revert l. induction p as [|x p IH]; intros [|y l]; simpl; try discriminate.
  - done.
  - done.
  - intros [Hxy Hl]%andb_true_iff.
    apply Byte.byte_dec_bl in Hxy. destruct (IH l Hl) as [IH1 IH2].
    split; [|simpl in *; by rewrite IH2].
    change (lower y :: (lower <$> take (length p) l) = lower x :: (lower <$> p)).
    by rewrite Hxy, IH1.
Qed.

(** [int_of_digits] reads the digits in base ten. *)
Lemma int_of_digits_from (ds : bytes) (acc : Z) :
  fold_left (fun acc c => 10 * acc + digit_val c) ds acc =
  acc * 10 ^ Z.of_nat (length ds) + int_of_digits ds.
Proof.
  unfold int_of_digits. revert acc.
  induction ds as [|d ds IH]; intros acc; simpl fold_left.
  - simpl. lia.
  - rewrite IH, (IH (10 * 0 + digit_val d)).
    rewrite length_cons, Nat2Z.inj_succ, Z.pow_succ_r by lia. ring.
Qed.

Lemma int_of_digits_cons (d : byte) (ds : bytes) :
  int_of_digits (d :: ds) = digit_val d * 10 ^ Z.of_nat (length ds) + int_of_digits ds.
Proof.
  unfold int_of_digits at 1. simpl fold_left. rewrite int_of_digits_from. ring.
Qed.

Lemma is_digit_val (c : byte) : is_digit c = true -> 0 <= digit_val c <= 9.
Proof.
  unfold is_digit, byte_in, digit_val. intros [H1 H2]%andb_true_iff.
  apply N.leb_le in H1, H2. change (Byte.to_N "0") with 48%N in H1.
  change (Byte.to_N "9") with 57%N in H2. lia.
Qed.

Lemma int_of_digits_nonneg (ds : bytes) :
  forallb is_digit ds = true -> 0 <= int_of_digits ds.
Proof.
  induction ds as [|d ds IH]; [intros _; unfold int_of_digits; simpl; lia|].
  simpl. intros [Hd Hds]%andb_true_iff. rewrite int_of_digits_cons.
  pose proof (is_digit_val d Hd). specialize (IH Hds).
  assert (0 <= 10 ^ Z.of_nat (length ds)) by (apply Z.pow_nonneg; lia). nia.
Qed.

(** The shape of a match at one position. *)
Lemma match_here_inv (l ds : bytes) :
  match_here l = Some ds ->
  exists name ws rest,
    l = name ++ ws ++ ds ++ rest /\
    lower <$> name = lower <$> CONTENT_LENGTH /\
    forallb is_space ws = true /\
    ds <> [] /\ forallb is_digit ds = true /\
    (forall c rest', rest = c :: rest' -> is_digit c = false).
Proof.
  unfold match_here. destruct (istarts_with CONTENT_LENGTH l) eqn:Hn; [|discriminate].
  apply istarts_with_inv in Hn as [Hn _].
  set (n := length CONTENT_LENGTH) in *.
  set (t := drop n l).
  pose proof (take_drop_while is_space t) as Ht.
  pose proof (take_drop_while is_digit (drop_while is_space t)) as Hd.
  pose proof (take_while_all is_space t) as Hws.
  pose proof (take_while_all is_digit (drop_while is_space t)) as Hds.
  destruct (take_while is_digit (drop_while is_space t)) as [|d ds'] eqn:Hg;
    [discriminate|].
  intros [= <-].
  exists (take n l), (take_while is_space t),
    (drop_while is_digit (drop_while is_space t)).
  split.
  { rewrite <- (take_drop n l) at 1. f_equal. fold t. rewrite Ht at 1. f_equal.
    exact Hd. }
  split; [exact Hn|]. split; [exact Hws|]. split; [discriminate|].
  split; [exact Hds|].
  intros c rest' Hrest. exact (drop_while_stop _ _ _ _ Hrest).
Qed.

(** A match is found at the start of the buffer or behind a line feed. *)
Lemma search_from_inv (b : bool) (l ds : bytes) :
  search_from b l = Some ds ->
  exists pre l',
    l = pre ++ l' /\ match_here l' = Some ds /\
    (pre = [] /\ b = true \/ last pre = Some x0a).
Proof.
  revert b. induction l as [|c l IH]; intros b.
  - simpl. destruct b; [|discriminate].
    destruct (match_here []) eqn:Hm; [|discriminate].
    intros [= ->]. exists [], []. auto.
  - simpl.
    destruct (if b then match_here (c :: l) else None) as [g|] eqn:Hm.
    + intros [= ->]. destruct b; [|discriminate].
      exists [], (c :: l). auto.
    + intros (pre & l' & -> & Hl' & Hpre)%IH.
      exists (c :: pre), l'. split; [reflexivity|]. split; [exact Hl'|]. right.
      destruct Hpre as [[-> Hc]|Hpre].
      * apply Byte.byte_dec_bl in Hc. by subst.
      * destruct pre; [discriminate|]. exact Hpre.
Qed.

(** X1.  What [REQ_RE_LEN.search] returns is sound: the captured group is
    a non-empty run of ASCII digits that stands, after any white space,
    behind the header name [Content-Length:] written in any case at the
    start of the buffer or right after a line feed, and the run is not
    followed by another digit.  The number the handler takes from it
    (line 72) is therefore never negative. *)
Theorem content_length_match_sound (data ds : bytes) :
  REQ_RE_LEN_search data = Some ds ->
  exists pre name ws rest,
    data = pre ++ name ++ ws ++ ds ++ rest /\
    (pre = [] \/ last pre = Some x0a) /\
    lower <$> name = lower <$> CONTENT_LENGTH /\
    forallb is_space ws = true /\
    ds <> [] /\ forallb is_digit ds = true /\
    (forall c rest', rest = c :: rest' -> is_digit c = false) /\
    0 <= int_of_digits ds.
Proof.
  intros (pre & l' & -> & Hm & Hpre)%search_from_inv.
  apply match_here_inv in Hm as (name & ws & rest & -> & Hn & Hws & Hne & Hds & Hrest).
  exists pre, name, ws, rest. split; [reflexivity|].
  split; [destruct Hpre as [[-> _]|Hpre]; auto|].
  repeat (split; [assumption|]). by apply int_of_digits_nonneg.
Qed.

Lemma content_length_match_sound_witness :
  REQ_RE_LEN_search (Client.post_head 29) = Some (lit "29") /\
  0 <= int_of_digits (lit "29").
Proof.
  assert (REQ_RE_LEN_search (Client.post_head 29) = Some (lit "29")) as H
    by (vm_compute; reflexivity).
  destruct (content_length_match_sound _ _ H)
    as (pre & name & ws & rest & _ & _ & _ & _ & _ & _ & _ & Hn).
  exact (conj H Hn).
Defined.

(** A stretch that differs from the header name cannot start a match,
    whatever follows it. *)
Lemma imismatch_istarts (p l t : bytes) :
  imismatch p l = true -> istarts_with p (l ++ t) = false.
Proof.
  revert l. induction p as [|x p IH]; intros [|y l]; simpl; try discriminate.
  destruct (Byte.eqb (lower x) (lower y)); simpl; [apply IH | reflexivity].
Qed.

Lemma istarts_with_lower (p name t : bytes) :
  lower <$> name = lower <$> p -> istarts_with p (name ++ t) = true.
Proof.
  revert name. induction p as [|x p IH]; intros [|y name]; try discriminate.
  - reflexivity.
  - intros [= Hy Hname]. simpl. rewrite Hy, (Byte.byte_dec_lb (eq_refl (lower x))).
    apply IH, Hname.
Qed.

Lemma digit_not_space (c : byte) : is_digit c = true -> is_space c = false.
Proof. destruct c; (discriminate || reflexivity). Qed.

Lemma drop_while_app (f : byte -> bool) (ws l : bytes) :
  forallb f ws = true -> drop_while f (ws ++ l) = drop_while f l.
Proof.
  induction ws as [|c ws IH]; [reflexivity|]. simpl.
  intros [Hc Hws]%andb_true_iff. rewrite Hc. apply IH, Hws.
Qed.

Lemma take_while_app (f : byte -> bool) (ds rest : bytes) :
  forallb f ds = true ->
  (forall c rest', rest = c :: rest' -> f c = false) ->
  take_while f (ds ++ rest) = ds.
Proof.
  intros Hds Hrest. induction ds as [|c ds IH].
  - destruct rest as [|c rest']; [reflexivity|]. simpl.
    by rewrite (Hrest c rest' eq_refl).
  - simpl in *. apply andb_true_iff in Hds as [Hc Hds]. rewrite Hc.
    f_equal. apply IH, Hds.
Qed.

(** The pattern matches a header line written in any case. *)
Lemma match_here_header (name ws ds rest : bytes) :
  lower <$> name = lower <$> CONTENT_LENGTH ->
  forallb is_space ws = true ->
  ds <> [] -> forallb is_digit ds = true ->
  (forall c rest', rest = c :: rest' -> is_digit c = false) ->
  match_here (name ++ ws ++ ds ++ rest) = Some ds.
Proof.
  intros Hn Hws Hne Hds Hrest. unfold match_here.
  rewrite (istarts_with_lower _ _ _ Hn).
  assert (length name = length CONTENT_LENGTH) as <-.
  { apply (f_equal length) in Hn. by rewrite !length_fmap in Hn. }
  rewrite drop_app_length, (drop_while_app _ _ _ Hws).
  destruct ds as [|d ds]; [done|].
  assert (is_space d = false) as Hd.
  { apply digit_not_space. simpl in Hds. by apply andb_true_iff in Hds as [-> _]. }
  change ((d :: ds) ++ rest) with (d :: (ds ++ rest)).
  cbn [drop_while]. rewrite Hd.
  change (d :: (ds ++ rest)) with ((d :: ds) ++ rest).
  by rewrite (take_while_app _ _ _ Hds Hrest).
Qed.

(** The search passes over a stretch that is [header_free]. *)
Lemma search_from_skip (b : bool) (p t : bytes) :
  header_free b p = true ->
  search_from b (p ++ t) =
  search_from (match last p with Some c => Byte.eqb c x0a | None => b end) t.
Proof.
  revert b. induction p as [|c p IH]; intros b; [reflexivity|].
  cbn [header_free]. intros [Hb Hp]%andb_true_iff.
  change ((c :: p) ++ t) with (c :: (p ++ t)). cbn [search_from].
  assert ((if b then match_here (c :: p ++ t) else None) = None) as ->.
  { destruct b; [|reflexivity]. unfold match_here.
    change (c :: p ++ t) with ((c :: p) ++ t).
    by rewrite (imismatch_istarts _ _ _ Hb). }
  rewrite (IH _ Hp). destruct p as [|c' p]; [reflexivity|].
  rewrite last_cons_cons. destruct (last (c' :: p)) eqn:Hl; [reflexivity|].
  by apply last_None in Hl.
Qed.

Lemma search_header (pre name ws ds rest : bytes) :
  header_free true pre = true ->
  (pre = [] \/ last pre = Some x0a) ->
  lower <$> name = lower <$> CONTENT_LENGTH ->
  forallb is_space ws = true ->
  ds <> [] -> forallb is_digit ds = true ->
  (forall c rest', rest = c :: rest' -> is_digit c = false) ->
  REQ_RE_LEN_search (pre ++ name ++ ws ++ ds ++ rest) = Some ds.
Proof.
  intros Hfree Hpre Hn Hws Hne Hds Hrest. unfold REQ_RE_LEN_search.
  rewrite (search_from_skip _ _ _ Hfree).
  assert (match last pre with Some c => Byte.eqb c x0a | None => true end = true)
    as ->.
  { destruct Hpre as [->| ->]; reflexivity. }
  pose proof (match_here_header _ _ _ _ Hn Hws Hne Hds Hrest) as Hm.
  revert Hm. generalize (name ++ ws ++ ds ++ rest). intros l Hm.
  destruct l; cbn [search_from]; by rewrite Hm.
Qed.

(** X2.  The length header is found however it is cased and spaced: when
    no earlier line begins with the header name, the search returns the
    digits of a line made of the name in any case, any white space, and a
    digit run that no digit follows. *)
Theorem content_length_match_complete (pre name ws ds rest : bytes) :
  header_free true pre = true ->
  (pre = [] \/ last pre = Some x0a) ->
  lower <$> name = lower <$> CONTENT_LENGTH ->
  forallb is_space ws = true ->
  ds <> [] -> forallb is_digit ds = true ->
  (forall c rest', rest = c :: rest' -> is_digit c = false) ->
  REQ_RE_LEN_search (pre ++ name ++ ws ++ ds ++ rest) = Some ds /\
  match_here (name ++ ws ++ ds ++ rest) = Some ds.
Proof.
  intros Hfree Hpre Hn Hws Hne Hds Hrest.
  split; [by apply search_header | by apply match_here_header].
Qed.

Lemma content_length_match_complete_witness :
  REQ_RE_LEN_search Edge.loose_header = Some (lit "12").
Proof.
  apply (content_length_match_complete
           (lit "POST /event HTTP/1.1" ++ CRLF) (lit "content-LENGTH:")
           (lit "   ") (lit "12") CRLF);
    try (vm_compute; reflexivity).
  - right. vm_compute. reflexivity.
  - discriminate.
  - intros c rest' [= <- _]. reflexivity.
Defined.

(** ** The number a response announces *)

Lemma pretty_N_char_digit (k : N) :
  (k < 10)%N ->
  is_digit (Ascii.byte_of_ascii (pretty_N_char k)) = true /\
  digit_val (Ascii.byte_of_ascii (pretty_N_char k)) = Z.of_N k.
Proof.
  intros Hk.
  assert (k = 0 \/ k = 1 \/ k = 2 \/ k = 3 \/ k = 4 \/ k = 5 \/ k = 6 \/
          k = 7 \/ k = 8 \/ k = 9)%N as Hc by lia.
  repeat (destruct Hc as [-> | Hc]; [split; reflexivity|]). subst. split; reflexivity.
Qed.

Lemma lit_String (a : Ascii.ascii) (s : string) :
  lit (String a s) = Ascii.byte_of_ascii a :: lit s.
Proof. reflexivity. Qed.

(** The decimal text of a number is made of digits and reads back as the
    number. *)
Lemma pretty_N_go_digits (x : N) (s : string) :
  forallb is_digit (lit s) = true ->
  forallb is_digit (lit (pretty_N_go x s)) = true /\
  int_of_digits (lit (pretty_N_go x s)) =
    Z.of_N x * 10 ^ Z.of_nat (length (lit s)) + int_of_digits (lit s).
Proof.
  revert s. induction (N.lt_wf_0 x) as [x _ IH]. intros s Hs.
  assert (x = 0 \/ 0 < x)%N as [-> | Hx] by lia.
  - rewrite pretty_N_go_0. split; [exact Hs | lia].
  - rewrite pretty_N_go_step by exact Hx.
    assert (x `mod` 10 < 10)%N as Hm by (apply N.mod_lt; lia).
    destruct (pretty_N_char_digit _ Hm) as [Hd Hv].
    destruct (IH (x `div` 10)%N (N.div_lt x 10 Hx eq_refl)
                (String (pretty_N_char (x `mod` 10)) s)) as [IH1 IH2].
    { rewrite lit_String. cbn [forallb]. by rewrite Hd, Hs. }
    split; [exact IH1|]. rewrite IH2, lit_String.
    rewrite int_of_digits_cons, Hv, length_cons, Nat2Z.inj_succ, Z.pow_succ_r by lia.
    pose proof (N.div_mod x 10 ltac:(lia)) as Hdm.
    rewrite Hdm at 3. rewrite N2Z.inj_add, N2Z.inj_mul. ring.
Qed.

Lemma str_of_Z_digits (n : nat) :
  str_of_Z (Z.of_nat n) <> [] /\
  forallb is_digit (str_of_Z (Z.of_nat n)) = true /\
  int_of_digits (str_of_Z (Z.of_nat n)) = Z.of_nat n.
Proof.
  unfold str_of_Z. destruct (Z.of_nat n) as [|p|p] eqn:Hn; [| |lia].
  - by split.
  - unfold pretty, pretty_Z, pretty, pretty_positive, pretty, pretty_N.
    destruct (decide (N.pos p = 0%N)) as [|_]; [discriminate|].
    destruct (pretty_N_go_digits (N.pos p) "" eq_refl) as [H1 H2].
    split; [|split; [exact H1|]].
    + intros Hnil. rewrite Hnil in H2. unfold int_of_digits in H2. simpl in H2. lia.
    + rewrite H2. unfold int_of_digits. simpl. lia.
Qed.

(** ** The framing of a success response *)

Lemma starts_with_take (p l : bytes) :
  starts_with p l = starts_with p (take (length p) l).
Proof.
  revert l. induction p as [|x p IH]; intros [|y l]; simpl; try reflexivity.
  by rewrite IH.
Qed.

(** [partition] cuts at a separator that does not occur earlier. *)
Lemma partition_first (s : bytes) (z : byte) (h t : bytes) :
  contains (s ++ [z]) (h ++ s) = false ->
  partition (s ++ [z]) (h ++ (s ++ [z]) ++ t) = Some (h, t).
Proof.
  induction h as [|x h IH].
  - intros _. rewrite app_nil_l.
    destruct (s ++ [z]) as [|y sep] eqn:Hsep; [by destruct s|].
    rewrite <- Hsep. cbn [partition]. unfold partition.
    destruct ((s ++ [z]) ++ t) eqn:Hl.
    + by rewrite Hsep in Hl.
    + rewrite <- Hl, starts_with_app, drop_app_length. reflexivity.
  - change ((x :: h) ++ s) with (x :: (h ++ s)).
    cbn [contains]. intros [Hs Hc]%orb_false_iff.
    change ((x :: h) ++ (s ++ [z]) ++ t) with (x :: (h ++ (s ++ [z]) ++ t)).
    cbn [partition]. rewrite (IH Hc).
    assert (starts_with (s ++ [z]) (x :: h ++ (s ++ [z]) ++ t) = false) as ->;
      [|reflexivity].
    rewrite starts_with_take in Hs |- *.
    rewrite <- Hs. f_equal.
    change (x :: h ++ (s ++ [z]) ++ t) with ((x :: h) ++ (s ++ [z]) ++ t).
    change (x :: h ++ s) with ((x :: h) ++ s).
    rewrite <- !app_assoc, (app_assoc (x :: h) s).
    rewrite take_app_le; [reflexivity|].
    rewrite !length_app. simpl. lia.
Qed.

(** A byte that is not in [p] ends every attempt to match [p] across it. *)
Lemma starts_with_cut (p a b : bytes) (c : byte) :
  forallb (fun x => negb (Byte.eqb x c)) p = true ->
  starts_with p (a ++ c :: b) = starts_with p a.
Proof.
  revert a. induction p as [|x p IH]; intros a Hp; [by destruct a|].
  simpl in Hp. apply andb_true_iff in Hp as [Hx Hp].
  destruct a as [|y a]; simpl.
  - by apply negb_true_iff in Hx as ->.
  - by rewrite (IH a Hp).
Qed.

Lemma contains_cut (p a b : bytes) (c : byte) :
  p <> [] -> forallb (fun x => negb (Byte.eqb x c)) p = true ->
  contains p (a ++ c :: b) = contains p a || contains p b.
Proof.
  intros Hne Hp. induction a as [|y a IH].
  - rewrite app_nil_l. cbn [contains].
    pose proof (starts_with_cut p [] b c Hp) as H0. rewrite app_nil_l in H0.
    rewrite H0. by destruct p.
  - change ((y :: a) ++ c :: b) with (y :: (a ++ c :: b)). cbn [contains].
    rewrite IH. change (y :: a ++ c :: b) with ((y :: a) ++ c :: b).
    rewrite (starts_with_cut p (y :: a) b c Hp). by rewrite orb_assoc.
Qed.

(** [p] does not occur across a run of bytes none of which is in [p]. *)
Lemma contains_cut_run (p a ds b : bytes) :
  p <> [] -> ds <> [] ->
  forallb (fun c => forallb (fun x => negb (Byte.eqb x c)) p) ds = true ->
  contains p (a ++ ds ++ b) = contains p a || contains p b.
Proof.
  intros Hne Hds Hall. revert a. induction ds as [|d ds IH]; intros a; [done|].
  simpl in Hall. apply andb_true_iff in Hall as [Hd Hall].
  change ((d :: ds) ++ b) with (d :: (ds ++ b)).
  rewrite (contains_cut p a _ d Hne Hd).
  destruct ds as [|d' ds]; [reflexivity|].
  f_equal. rewrite <- (app_nil_l ((d' :: ds) ++ b)), (IH ltac:(done) Hall []).
  by destruct p.
Qed.

Lemma digits_not_break (ds : bytes) :
  forallb is_digit ds = true ->
  forallb (fun c => forallb (fun x => negb (Byte.eqb x c)) (CRLF ++ CRLF)) ds = true.
Proof.
  induction ds as [|d ds IH]; [reflexivity|]. cbn [forallb].
  intros [Hd Hds]%andb_true_iff. rewrite (IH Hds), andb_true_r.
  clear -Hd. destruct d; (discriminate || reflexivity).
Qed.

(** The first blank line of a success response is the one the handler
    writes after the length. *)
Lemma ok_response_partition (body_response : bytes) :
  partition (CRLF ++ CRLF) (ok_response body_response) =
    Some (HTTP_200_PREF ++ str_of_Z (Z.of_nat (length body_response)),
          body_response).
Proof.
  destruct (str_of_Z_digits (length body_response)) as (Hne & Hds & _).
  unfold ok_response. set (n := str_of_Z (Z.of_nat (length body_response))) in *.
  change (CRLF ++ CRLF) with ([x0d; x0a; x0d] ++ [x0a]) at 1.
  replace (HTTP_200_PREF ++ n ++ CRLF ++ CRLF ++ body_response)
    with ((HTTP_200_PREF ++ n) ++ ([x0d; x0a; x0d] ++ [x0a]) ++ body_response)
    by (by rewrite <- !app_assoc).
  apply partition_first. rewrite <- app_assoc.
  change ([x0d; x0a; x0d] ++ [x0a]) with (CRLF ++ CRLF).
  rewrite (contains_cut_run _ _ _ _ blank_line_not_nil Hne (digits_not_break _ Hds)).
  reflexivity.
Qed.

(** The length a success response announces is the length of its body. *)
Lemma ok_response_length (body_response : bytes) :
  option_map int_of_digits (REQ_RE_LEN_search (ok_response body_response)) =
    Some (Z.of_nat (length body_response)).
Proof.
  destruct (str_of_Z_digits (length body_response)) as (Hne & Hds & Hint).
  unfold ok_response. set (n := str_of_Z (Z.of_nat (length body_response))) in *.
  pose proof (search_header
      (lit "HTTP/1.1 200 OK" ++ CRLF ++ lit "Content-Type: application/json" ++
       CRLF ++ lit "Connection: close" ++ CRLF)
      CONTENT_LENGTH (lit " ") n (CRLF ++ CRLF ++ body_response)
      eq_refl (or_intror eq_refl) eq_refl eq_refl Hne Hds) as Hs.
  assert (REQ_RE_LEN_search (HTTP_200_PREF ++ n ++ CRLF ++ CRLF ++ body_response)
          = Some n) as ->.
  { apply Hs. by intros c rest' [= <- _]. }
  cbn [option_map]. by rewrite Hint.
Qed.

(** X3.  A success response is framed so that it can be taken apart
    again: for any body, the first blank line of the response ends the
    head and is followed by exactly the body, the length header the
    response carries decodes to the byte length of the body, and a body
    without a blank line is the second of the two parts [split] gives. *)
Theorem success_response_framing (body_response : bytes) :
  partition (CRLF ++ CRLF) (ok_response body_response) =
    Some (HTTP_200_PREF ++ str_of_Z (Z.of_nat (length body_response)),
          body_response) /\
  option_map int_of_digits (REQ_RE_LEN_search (ok_response body_response)) =
    Some (Z.of_nat (length body_response)) /\
  (contains (CRLF ++ CRLF) body_response = false ->
   split (CRLF ++ CRLF) (ok_response body_response) =
     [HTTP_200_PREF ++ str_of_Z (Z.of_nat (length body_response));
      body_response]) /\
  is_200 (Ok (ok_response body_response)) = true.
Proof.
  pose proof (ok_response_partition body_response) as Hpart.
  split; [exact Hpart|]. split; [apply ok_response_length|]. split.
  - intros Hbody. apply split_two; [exact blank_line_not_nil|]. by split.
  - cbn [is_200]. unfold ok_response. apply starts_with_app.
Qed.

Lemma success_response_framing_witness :
  contains (CRLF ++ CRLF) (lit "{}") = false /\
  split (CRLF ++ CRLF) (ok_response (lit "{}")) =
    [HTTP_200_PREF ++ str_of_Z (Z.of_nat (length (lit "{}"))); lit "{}"].
Proof.
  assert (contains (CRLF ++ CRLF) (lit "{}") = false) as H
    by (vm_compute; reflexivity).
  destruct (success_response_framing (lit "{}")) as (_ & _ & Hsplit & _).
  exact (conj H (Hsplit H)).
Defined.

(** ** The body handed to the decoder *)

(** [read n] returns at most [n] bytes. *)
Lemma read_length (n : nat) (rd rd1 : reader) (bs : bytes) :
  read n rd = (inr bs, rd1) -> (length bs <= n)%nat.
Proof.
  induction rd as [|[[|c l]|] rd IH]; cbn [read].
  - intros [= <- _]. simpl. lia.
  - exact IH.
  - intros [= <- _]. rewrite length_take. lia.
  - discriminate.
Qed.

Lemma read_eof (n : nat) : read n [] = (inr [], []).
Proof. reflexivity. Qed.

(** X4.  When the peer has closed after the first delivery, or the
    declared length is absent or already covered by the bytes behind the
    blank line, the handler decodes exactly those bytes: it does not wait
    for more, whatever is still to come on the connection, and reading at
    end of file is no error.  The response is the one [post_event] gives on
    them. *)
Theorem body_is_what_first_read_holds
    (E : env) (rd rd1 : reader) (data head body : bytes) (g : globals) :
  read 2048 rd = (inr data, rd1) ->
  contains GET_STATS data = false -> contains POST_EVENT data = true ->
  split (CRLF ++ CRLF) data = [head; body] ->
  rd1 = [] \/
  match REQ_RE_LEN_search data with
  | Some ds => int_of_digits ds <= Z.of_nat (length body)
  | None => True
  end ->
  request_body rd = Some body /\
  handle E rd g =
  match post_event E body g with
  | (Raise _, g') => (Ok HTTP_500, g')
  | r => r
  end.
Proof.
  intros Hread Hget Hpost Hsplit Hcase.
  assert (request_body rd = Some body) as Hb;
    [|split; [exact Hb | exact (handle_event E rd body g Hb)]].
  unfold request_body, parse_event.
  rewrite Hread, Hget, Hpost, Hsplit. cbn [mret raising_ret].
  set (content_length := match REQ_RE_LEN_search data with
                         | Some ds => int_of_digits ds
                         | None => 0
                         end) in *.
  destruct (0 <? content_length - Z.of_nat (length body)) eqn:Hrem;
    [|reflexivity].
  apply Z.ltb_lt in Hrem. destruct Hcase as [-> | Hcov].
  - rewrite read_eof. cbn [fst]. by rewrite app_nil_r.
  - exfalso. subst content_length.
    destruct (REQ_RE_LEN_search data); lia.
Qed.

Lemma body_is_what_first_read_holds_witness :
  read 2048 (Scenario.write "alice" "10") = (inr (Client.post Scenario.alice_10), []) /\
  request_body (Scenario.write "alice" "10") = Some Scenario.alice_10.
Proof.
  assert (read 2048 (Scenario.write "alice" "10")
          = (inr (Client.post Scenario.alice_10), [])) as Hread
    by (vm_compute; reflexivity).
  split; [exact Hread|].
  apply (body_is_what_first_read_holds Runtime.cpython
           (Scenario.write "alice" "10") [] (Client.post Scenario.alice_10)
           (take 94 (Client.post Scenario.alice_10)) Scenario.alice_10 initial
           Hread);
    [vm_compute; reflexivity ..|].
  left. reflexivity.
Defined.

(** X5.  The body handed to the decoder starts with the bytes that
    followed the blank line in the first read of at most 2048 bytes, and is
    never longer than the larger of that part and the declared length:
    the second read takes no byte beyond the declared length. *)
Theorem body_length_bounded (rd : reader) (b : bytes) :
  request_body rd = Some b ->
  exists data rd1 head body_sofar more,
    read 2048 rd = (inr data, rd1) /\ (length data <= 2048)%nat /\
    split (CRLF ++ CRLF) data = [head; body_sofar] /\
    b = body_sofar ++ more /\
    Z.of_nat (length b) <=
      Z.max (Z.of_nat (length body_sofar))
        match REQ_RE_LEN_search data with
        | Some ds => int_of_digits ds
        | None => 0
        end.
Proof.
  unfold request_body.
  destruct (read 2048 rd) as [[e|data] rd1] eqn:Hread; [discriminate|].
  destruct (contains GET_STATS data); [discriminate|].
  destruct (contains POST_EVENT data); [|discriminate].
  destruct (parse_event data) as [e|[body_sofar remaining]] eqn:Hparse;
    [discriminate|].
  destruct (parse_event_split _ _ _ Hparse) as [head Hsplit].
  unfold parse_event in Hparse. rewrite Hsplit in Hparse.
  injection Hparse as Hrem.
  pose proof (read_length _ _ _ _ Hread) as Hlen.
  destruct (0 <? remaining) eqn:Hpos.
  - apply Z.ltb_lt in Hpos.
    destruct (read (Z.to_nat remaining) rd1) as [[e|more] rd2] eqn:Hmore;
      [discriminate|].
    intros [= <-]. exists data, rd1, head, body_sofar, more.
    repeat (split; [done|]).
    apply read_length in Hmore. rewrite length_app. lia.
  - intros [= <-]. exists data, rd1, head, body_sofar, [].
    repeat (split; [done|]). split; [by rewrite app_nil_r | lia].
Qed.

Lemma body_length_bounded_witness :
  request_body Scenario.three_deliveries = Some (take 20 Scenario.alice_10) /\
  exists data rd1 head body_sofar more,
    read 2048 Scenario.three_deliveries = (inr data, rd1) /\
    (length data <= 2048)%nat /\
    split (CRLF ++ CRLF) data = [head; body_sofar] /\
    take 20 Scenario.alice_10 = body_sofar ++ more /\
    Z.of_nat (length (take 20 Scenario.alice_10)) <=
      Z.max (Z.of_nat (length body_sofar))
        match REQ_RE_LEN_search data with
        | Some ds => int_of_digits ds
        | None => 0
        end.
Proof.
  assert (request_body Scenario.three_deliveries
          = Some (take 20 Scenario.alice_10)) as H by (vm_compute; reflexivity).
  exact (conj H (body_length_bounded _ _ H)).
Defined.

(** X6.  The statistics route wins: when the first read contains
    [GET /stats ] anywhere, also inside the body of a [POST /event], the
    response is the statistics of the current state, the state is left as
    it is and no event is decoded. *)
Theorem stats_marker_wins
    (E : env) (rd rd1 : reader) (data : bytes) (g : globals) :
  read 2048 rd = (inr data, rd1) ->
  contains GET_STATS data = true ->
  handle E rd g =
    (Ok (stats_response E g
           (if req_total g =? 0 then f64_zero
            else f64_div (c_float_get (req_sum g)) (f64_of_Z (req_total g)))),
     g) /\
  request_body rd = None /\
  effect_of E rd = Untouched.
Proof.
  intros Hread Hget.
  assert (request_body rd = None) as Hb.
  { unfold request_body. by rewrite Hread, Hget. }
  split; [|split; [exact Hb | unfold effect_of; by rewrite Hb]].
  rewrite handle_run, Hread, Hget. apply get_stats_run.
Qed.

Lemma stats_marker_wins_witness :
  contains POST_EVENT (Client.post (Client.event "GET /stats " (lit "1"))) = true /\
  (handle Runtime.cpython Edge.marker_in_body initial).2 = initial /\
  effect_of Runtime.cpython Edge.marker_in_body = Untouched.
Proof.
  split; [vm_compute; reflexivity|].
  destruct (stats_marker_wins Runtime.cpython Edge.marker_in_body []
              (Client.post (Client.event "GET /stats " (lit "1"))) initial)
    as (Hh & _ & He); [vm_compute; reflexivity ..|].
  split; [by rewrite Hh | exact He].
Defined.

(** X7.  A body that does not decode, that decodes to something other
    than an object, or whose [userId] is a list or an object (unhashable)
    is answered with the 500 response and leaves the whole module state,
    shards included, as it was. *)
Theorem rejected_before_any_update
    (E : env) (rd : reader) (b : bytes) (g : globals) :
  request_body rd = Some b ->
  (exists e, loads E b = inl e) \/
  (exists o, loads E b = inr o /\ forall d, o <> PDict d) \/
  (exists d v, loads E b = inr (PDict d) /\ dict_lookup "userId" d = Some v /\
               ((exists l, v = PList l) \/ (exists d', v = PDict d'))) ->
  handle E rd g = (Ok HTTP_500, g).
Proof.
  intros Hb Hcase. rewrite (handle_event E rd b g Hb).
  assert (exists e, post_event E b g = (Raise e, g)) as [e ->]; [|reflexivity].
  unfold post_event.
  destruct Hcase as [[e He]|[(o & Ho & Hd)|(d & v & Ho & Hv & Hu)]].
  - exists e. by rewrite (bind_Raise _ _ g e g) by (unfold lift; by rewrite He).
  - exists AttributeError.
    rewrite (bind_Ok _ _ g o g) by (unfold lift; by rewrite Ho).
    apply bind_Raise. unfold lift.
    destruct o; try reflexivity. by destruct (Hd d).
  - exists TypeError.
    rewrite (bind_Ok _ _ g (PDict d) g) by (unfold lift; by rewrite Ho).
    rewrite (bind_Ok _ _ g v g) by (unfold lift; cbn [py_get]; by rewrite Hv).
    apply bind_Raise. unfold add_unique_user. apply bind_Raise.
    destruct Hu as [[l ->]|[d' ->]]; reflexivity.
Qed.

Lemma rejected_before_any_update_witness :
  request_body Edge.list_user = Some Edge.list_user_body /\
  loads Runtime.cpython Edge.list_user_body =
    inr (PDict [("userId", PList [PInt 1]); ("value", PInt 1)]) /\
  handle Runtime.cpython Edge.list_user initial = (Ok HTTP_500, initial).
Proof.
  assert (request_body Edge.list_user = Some Edge.list_user_body) as Hb
    by (vm_compute; reflexivity).
  assert (loads Runtime.cpython Edge.list_user_body =
          inr (PDict [("userId", PList [PInt 1]); ("value", PInt 1)])) as Hl
    by (vm_compute; reflexivity).
  split; [exact Hb|]. split; [exact Hl|].
  apply (rejected_before_any_update Runtime.cpython _ _ initial Hb).
  right. right. exists [("userId", PList [PInt 1]); ("value", PInt 1)], (PList [PInt 1]).
  split; [exact Hl|]. split; [reflexivity|]. left. by exists [PInt 1].
Defined.

(** ** The shards under more connections *)

Lemma member_set_add_mono (u v : pyobj) (s : list pyobj) :
  member u s = true -> member u (set_add v s) = true.
Proof.
  intros Hu. unfold set_add. destruct (existsb (py_eq v) s); [exact Hu|].
  by rewrite member_app, Hu.
Qed.

(** X8.  [add_unique_user] on a free lock: it returns with every lock as
    it found it and both counters untouched, replaces the selected shard
    by the shard with the identifier added, raises [unique_count] by one
    exactly when the identifier was not a member, and run again with the
    same identifier changes nothing. *)
Theorem add_unique_user_free_lock
    (E : env) (u : pyobj) (g : globals) (i : Z) (s : list pyobj) :
  shard_index E u = inr i ->
  shards g !! Z.to_nat i = Some s ->
  locks g !! Z.to_nat i = Some false ->
  exists g',
    add_unique_user E u g = (Ok tt, g') /\
    locks g' = locks g /\
    req_total g' = req_total g /\ req_sum g' = req_sum g /\
    shards g' = <[Z.to_nat i := set_add u s]> (shards g) /\
    unique_count g' = (unique_count g + if member u s then 0 else 1)%nat /\
    (py_eq u u = true -> add_unique_user E u g' = (Ok tt, g')).
Proof.
  intros Hi Hs Hl.
  assert (forall g0 s0,
            shards g0 !! Z.to_nat i = Some s0 ->
            locks g0 !! Z.to_nat i = Some false ->
            add_unique_user E u g0 =
            (Ok tt, set_shards (<[Z.to_nat i := set_add u s0]> (shards g0)) g0))
    as Hrun.
  { intros g0 s0 Hs0 Hl0. unfold add_unique_user.
    rewrite (bind_Ok _ _ g0 i g0) by (unfold lift; by rewrite Hi).
    unfold with_lock, acquire. rewrite Hl0.
    unfold shard_add. cbn [shards set_locks]. rewrite Hs0.
    unfold release, modify. cbn [snd locks set_shards set_locks shards req_total req_sum].
    rewrite list_insert_insert_eq, list_insert_id by done.
    unfold set_shards. reflexivity. }
  eexists. split; [exact (Hrun g s Hs Hl)|].
  cbn [set_shards locks req_total req_sum shards].
  do 4 (split; [reflexivity|]). split.
  - unfold unique_count, set_shards. cbn [shards].
    pose proof (sum_fmap_insert length (shards g) (Z.to_nat i) s (set_add u s) Hs)
      as Hsum.
    rewrite length_set_add in Hsum. clear Hrun Hs Hl Hi.
    destruct (member u s); lia.
  - intros Hu. rewrite (Hrun _ (set_add u s)).
    + f_equal. apply globals_eq; try reflexivity.
      cbn [set_shards shards]. rewrite list_insert_insert_eq.
      unfold set_add at 1. fold (member u (set_add u s)).
      by rewrite (member_set_add u s Hu).
    + cbn [set_shards shards]. apply list_lookup_insert_eq.
      by eapply lookup_lt_Some.
    + exact Hl.
Qed.

Lemma add_unique_user_free_lock_witness :
  exists g',
    add_unique_user Runtime.cpython (PStr "alice") initial = (Ok tt, g') /\
    locks g' = locks initial /\
    unique_count g' = 1%nat.
Proof.
  edestruct (add_unique_user_free_lock Runtime.cpython (PStr "alice") initial)
    as (g' & Hrun & Hl & _ & _ & _ & Hc & _);
    [vm_compute; reflexivity ..|].
  exists g'. split; [exact Hrun|]. split; [exact Hl|].
  rewrite Hc. vm_compute. reflexivity.
Defined.

Section Growth.
Context (E : env).

(** One connection only adds to a shard. *)
Lemma apply_effect_grows (e : effect) (g : globals) (i : nat) (s : list pyobj) :
  shards g !! i = Some s ->
  exists s',
    shards (apply_effect E e g) !! i = Some s' /\
    (forall u, member u s = true -> member u s' = true).
Proof.
  intros Hs.
  destruct (shards_apply_effect E e g) as [-> | (v & j & t & _ & Ht & ->)];
    [by exists s|].
  destruct (decide (i = Z.to_nat j)) as [->|Hne].
  - exists (set_add v t). split.
    + apply list_lookup_insert_eq. by eapply lookup_lt_Some.
    + intros u Hu. rewrite Ht in Hs. injection Hs as <-.
      by apply member_set_add_mono.
  - exists s. split; [|done]. by rewrite list_lookup_insert_ne.
Qed.

(** One connection adds at most one identifier. *)
Lemma apply_effect_count (e : effect) (g : globals) :
  (unique_count g <= unique_count (apply_effect E e g) <= unique_count g + 1)%nat.
Proof.
  unfold unique_count.
  destruct (shards_apply_effect E e g) as [-> | (v & j & t & _ & Ht & ->)]; [lia|].
  pose proof (sum_fmap_insert length (shards g) (Z.to_nat j) t (set_add v t) Ht)
    as Hsum.
  rewrite length_set_add in Hsum. clear Ht. destruct (member v t); lia.
Qed.

Lemma serial_cons (rd : reader) (rds : list reader) (g : globals) :
  (serial E (rd :: rds) g).2 = (serial E rds (handle E rd g).2).2.
Proof.
  cbn [serial]. destruct (handle E rd g) as [r g1]. cbn [snd].
  destruct (serial E rds g1); reflexivity.
Qed.

(** The same over any sequence of connections. *)
Lemma serial_grows (rds : list reader) (g : globals) :
  wf g ->
  wf (serial E rds g).2 /\
  (forall i s, shards g !! i = Some s ->
     exists s', shards (serial E rds g).2 !! i = Some s' /\
                forall u, member u s = true -> member u s' = true) /\
  (unique_count g <= unique_count (serial E rds g).2
                  <= unique_count g + length rds)%nat.
Proof.
  revert g. induction rds as [|rd rds IH]; intros g Hwf.
  - cbn [serial snd length]. split; [done|]. split; [by eauto|lia].
  - rewrite serial_cons.
    destruct (handle_effect E rd g Hwf) as [response Hh].
    rewrite Hh. cbn [snd].
    pose proof (wf_apply_effect E (effect_of E rd) g Hwf) as Hwf'.
    destruct (IH _ Hwf') as (IHwf & IHm & IHc).
    split; [exact IHwf|]. split.
    + intros i s Hs.
      destruct (apply_effect_grows (effect_of E rd) g i s Hs) as (s1 & Hs1 & Hm1).
      destruct (IHm i s1 Hs1) as (s2 & Hs2 & Hm2).
      exists s2. split; [exact Hs2|]. auto.
    + pose proof (apply_effect_count (effect_of E rd) g) as Hc.
      cbn [length]. lia.
Qed.

End Growth.

(** X9.  No connection removes an identifier: a member of a shard is
    still a member of that shard after any sequence of connections. *)
Theorem users_never_removed
    (E : env) (rds : list reader) (g : globals) (i : nat) (s : list pyobj) (u : pyobj) :
  wf g -> shards g !! i = Some s -> member u s = true ->
  exists s',
    shards (serial E rds g).2 !! i = Some s' /\ member u s' = true.
Proof.
  intros Hwf Hs Hu.
  destruct (serial_grows E rds g Hwf) as (_ & Hm & _).
  destruct (Hm i s Hs) as (s' & Hs' & Hm'). exists s'. auto.
Qed.

Lemma users_never_removed_witness :
  exists s',
    shards (serial Runtime.cpython [Scenario.bad_value; Scenario.stats]
              (add_user Runtime.cpython (PStr "alice") initial)).2 !! 263%nat
      = Some s' /\
    member (PStr "alice") s' = true.
Proof.
  apply (users_never_removed Runtime.cpython _ _ 263%nat [PStr "alice"]).
  - apply wf_add_user, wf_initial.
  - vm_compute. reflexivity.
  - vm_compute. reflexivity.
Defined.

(** X10.  [unique_count] never decreases and grows by at most one per
    connection; from the state at start-up it is at most the number of
    connections handled. *)
Theorem unique_users_bounded (E : env) (rds : list reader) (g : globals) :
  wf g ->
  (unique_count g <= unique_count (serial E rds g).2
                  <= unique_count g + length rds)%nat /\
  (unique_count (serial E rds initial).2 <= length rds)%nat.
Proof.
  intros Hwf. split; [apply (serial_grows E rds g Hwf)|].
  pose proof (serial_grows E rds initial (wf_initial)) as (_ & _ & H).
  assert (unique_count initial = 0%nat) as H0 by (vm_compute; reflexivity).
  rewrite H0 in H. lia.
Qed.

Lemma unique_users_bounded_witness :
  (unique_count
     (serial Runtime.cpython
        [Scenario.write "alice" "10"; Scenario.write "alice" "5"] initial).2
   <= 2)%nat.
Proof.
  exact (proj2 (unique_users_bounded Runtime.cpython
                  [Scenario.write "alice" "10"; Scenario.write "alice" "5"]
                  initial wf_initial)).
Defined.

(** The statistics response is framed like every success response. *)
Lemma stats_response_framing (E : env) (g : globals) (avg : spec_float) :
  exists head body,
    partition (CRLF ++ CRLF) (stats_response E g avg) = Some (head, body) /\
    option_map int_of_digits (REQ_RE_LEN_search (stats_response E g avg)) =
      Some (Z.of_nat (length body)).
Proof.
  unfold stats_response. do 2 eexists.
  split; [apply ok_response_partition | apply ok_response_length].
Qed.

(** A read on a connection with nothing left returns end of file. *)
Lemma read_exhausted (n : nat) (rd : reader) :
  exhausted rd = true -> read n rd = (inr [], []).
Proof.
  induction rd as [|[[|c l]|] rd IH]; cbn [exhausted forallb read];
    try discriminate; [done|exact IH].
Qed.

(** [await_read] is [read], except on a silent peer with nothing left. *)
Lemma await_read_cases (closes : bool) (n : nat) (rd : reader) :
  await_read closes n rd =
  if negb closes && exhausted rd then (Blocked, [])
  else (match (read n rd).1 with inl e => Raise e | inr b => Ok b end,
        (read n rd).2).
Proof.
  induction rd as [|[[|c l]|] rd IH]; cbn [await_read read exhausted forallb].
  - by destruct closes.
  - exact IH.
  - by rewrite andb_false_r.
  - by rewrite andb_false_r.
Qed.

Section Whole.
Context (E : env).

(** The [try] block ends as [handle] does, unless it comes to a read that
    the silent peer never answers. *)
Lemma respond_cases (closes : bool) (rd : reader) (g : globals) :
  respond E closes rd g = handle E rd g \/
  closes = false /\ respond E closes rd g = (Blocked, g) /\
  (exhausted rd = true \/
   exists data rd1 body_sofar remaining,
     read 2048 rd = (inr data, rd1) /\
     contains GET_STATS data = false /\ contains POST_EVENT data = true /\
     parse_event data = inr (body_sofar, remaining) /\ 0 < remaining /\
     exhausted rd1 = true).
Proof.
  unfold respond, handle. rewrite await_read_cases.
  destruct (negb closes && exhausted rd) eqn:Hfirst.
  { right. apply andb_true_iff in Hfirst as [Hc Hx].
    apply negb_true_iff in Hc. split; [exact Hc|]. split; [reflexivity|by left]. }
  destruct (read 2048 rd) as [[e|data] rd1] eqn:Hread; cbn [fst snd].
  { by left. }
  cbv [try_except mbind M_bind awaited lift].
  destruct (contains GET_STATS data) eqn:Hget; [by left|].
  destruct (contains POST_EVENT data) eqn:Hpost; [|by left].
  destruct (parse_event data) as [e|[body_sofar remaining]] eqn:Hparse; [by left|].
  cbn [mret M_ret].
  destruct (0 <? remaining) eqn:Hrem; [|by left].
  rewrite await_read_cases.
  destruct (negb closes && exhausted rd1) eqn:Hsecond.
  - right. apply andb_true_iff in Hsecond as [Hc Hx].
    apply negb_true_iff in Hc. split; [exact Hc|]. split; [reflexivity|].
    right. exists data, rd1, body_sofar, remaining.
    apply Z.ltb_lt in Hrem. by repeat split.
  - left. cbn [fst]. by destruct (read (Z.to_nat remaining) rd1).1.
Qed.

Lemma respond_silent (rd : reader) (g : globals) :
  exhausted rd = true -> respond E false rd g = (Blocked, g).
Proof.
  intros Hx. unfold respond. rewrite await_read_cases, Hx. reflexivity.
Qed.

End Whole.





(** X13.  However the event loop interleaves the handlers of any
    connections, at every switch all shard locks are free and no handler
    is waiting for one, and a run has at most two turns per connection. *)
Theorem locks_never_contended
    (E : env) (rds : list reader) (k : nat) (g : globals) (ts : list task) :
  nsteps (turn E) k (initial, Accepted <$> rds) (g, ts) ->
  locks g = replicate (Z.to_nat NUM_SHARDS) false /\
  Forall (fun t => t <> WaitingLock) ts /\
  (k <= 2 * length rds)%nat.
Proof.
  intros Hk.
  assert (rtc (turn E) (initial, Accepted <$> rds) (g, ts)) as Hrun
    by (apply rtc_nsteps; eauto).
  destruct (serialised_run E rds initial (g, ts) wf_initial Hrun) as [order Hser].
  split; [exact (wf_locks _ (ser_wf _ _ _ _ _ Hser))|]. split.
  - apply Forall_lookup. intros i t Ht.
    pose proof (ser_length _ _ _ _ _ Hser) as Hlen. cbn [snd] in Hlen.
    destruct (lookup_lt_is_Some_2 rds i) as [rd Hrd].
    { rewrite <- Hlen. by eapply lookup_lt_Some. }
    destruct (ser_tasks _ _ _ _ _ Hser i rd t Hrd Ht) as [Htask _].
    intros ->. exact Htask.
  - exact (turns_bounded E rds initial k (g, ts) wf_initial Hk).
Qed.

Lemma schedule_nsteps (E : env) (turns : list nat) (sys sys' : globals * list task) :
  schedule E turns sys = Some sys' -> nsteps (turn E) (length turns) sys sys'.
Proof.
  revert sys. induction turns as [|i turns IH]; intros sys; cbn [schedule length].
  - intros [= <-]. constructor.
  - destruct (turn_at E i sys) as [sys1|] eqn:Hturn; [|done].
    intros Hrest. eapply nsteps_l; [by eapply turn_at_turn | by apply IH].
Qed.

Lemma locks_never_contended_witness :
  nsteps (turn Runtime.cpython) 3 (initial, Accepted <$> Concurrent.two_clients)
    (Concurrent.interleaved.1, Concurrent.interleaved.2) /\
  locks Concurrent.interleaved.1 = replicate (Z.to_nat NUM_SHARDS) false /\
  Forall (fun t => t <> WaitingLock) Concurrent.interleaved.2.
Proof.
  assert (schedule Runtime.cpython [0; 1; 0]%nat
            (initial, Accepted <$> Concurrent.two_clients)
          = Some (Concurrent.interleaved.1, Concurrent.interleaved.2)) as Hs
    by (vm_compute; reflexivity).
  pose proof (schedule_nsteps _ _ _ _ Hs) as Hrun. cbn [length] in Hrun.
  destruct (locks_never_contended Runtime.cpython Concurrent.two_clients
              _ _ _ Hrun) as (Hl & Hw & _).
  exact (conj Hrun (conj Hl Hw)).
Defined.

(** * The load-test client *)

Import LoadTest.

Lemma how_many_cons {A} (f : A -> bool) (a : A) (l : list A) :
  how_many f (a :: l) = (if f a then 1 else 0) + how_many f l.
Proof.
  unfold how_many. rewrite filter_cons.
  destruct (f a); destruct (decide _) as [H|H]; try done; cbn [length]; lia.
Qed.

Lemma how_many_range {A} (f : A -> bool) (l : list A) :
  0 <= how_many f l <= Z.of_nat (length l).
Proof.
  induction l as [|a l IH]; [unfold how_many; simpl; lia|].
  rewrite how_many_cons. cbn [length]. destruct (f a); lia.
Qed.

Lemma gather_cons (a : answer) (answers : list answer) (c : client) :
  gather (a :: answers) c =
  ((send_event a c).1 :: (gather answers (send_event a c).2).1,
   (gather answers (send_event a c).2).2).
Proof.
  cbn [gather]. destruct (send_event a c) as [r c1]. cbn [fst snd].
  by destruct (gather answers c1).
Qed.

(** The counters after a [gather], by kind of answer. *)
Lemma gather_counters (answers : list answer) (c : client) :
  length (gather answers c).1 = length answers /\
  total_requests (gather answers c).2 =
    total_requests c + how_many answered answers /\
  successful_requests (gather answers c).2 =
    successful_requests c + how_many accepted answers /\
  failed_requests (gather answers c).2 =
    failed_requests c + Z.of_nat (length answers) - how_many accepted answers
      + how_many (fun a => answered a && raised a) answers /\
  how_many id (gather answers c).1 =
    how_many (fun a => accepted a && negb (raised a)) answers.
Proof.
  revert c. induction answers as [|a answers IH]; intros c.
  - unfold how_many. cbn. repeat split; lia.
  - rewrite gather_cons. cbn [fst snd length].
    destruct (IH (send_event a c).2) as (IH1 & IH2 & IH3 & IH4 & IH5).
    rewrite !how_many_cons, IH1, IH2, IH3, IH4, IH5.
    split; [reflexivity|].
    destruct a as [|status released]; cbn [send_event answered accepted raised].
    + cbn. repeat split; lia.
    + destruct (status =? 200), released; cbn; repeat split; lia.
Qed.

Lemma how_many_le {A} (f g : A -> bool) (l : list A) :
  (forall a, f a = true -> g a = true) -> how_many f l <= how_many g l.
Proof.
  intros Hfg. induction l as [|a l IH]; [reflexivity|].
  rewrite !how_many_cons. specialize (Hfg a).
  destruct (f a), (g a); try lia; by specialize (Hfg eq_refl).
Qed.

Lemma how_many_all {A} (f : A -> bool) (l : list A) :
  how_many f l = Z.of_nat (length l) <-> Forall (fun a => f a = true) l.
Proof.
  induction l as [|a l IH]; [by split|].
  rewrite how_many_cons, Forall_cons. cbn [length].
  pose proof (how_many_range f l). destruct (f a); split.
  - intros H1. split; [done|]. apply IH. lia.
  - intros [_ Hl]. apply IH in Hl. lia.
  - lia.
  - by intros [? _].
Qed.

Lemma how_many_none {A} (f : A -> bool) (l : list A) :
  Forall (fun a => f a = false) l -> how_many f l = 0.
Proof.
  induction 1 as [|a l Ha _ IH]; [reflexivity|].
  by rewrite how_many_cons, Ha, IH.
Qed.

Lemma how_many_ext {A} (f g : A -> bool) (l : list A) :
  Forall (fun a => f a = g a) l -> how_many f l = how_many g l.
Proof.
  induction 1 as [|a l Ha _ IH]; [reflexivity|].
  by rewrite !how_many_cons, Ha, IH.
Qed.

Lemma how_many_perm {A} (f : A -> bool) (l l' : list A) :
  l ≡ₚ l' -> how_many f l = how_many f l'.
Proof. intros H. unfold how_many. by rewrite H. Qed.

Lemma client_eq (c1 c2 : client) :
  total_requests c1 = total_requests c2 ->
  successful_requests c1 = successful_requests c2 ->
  failed_requests c1 = failed_requests c2 -> c1 = c2.
Proof. destruct c1, c2. simpl. by intros -> -> ->. Qed.

(** X14.  The counters of the load-test client after any answers:
    [total_requests] counts the answered requests only, so it is at most
    the number of requests made and equals it exactly when every request
    got a response; [successful_requests] is at most [total_requests];
    the successful and failed counts together are at least the number of
    requests; no more [True] results than successful requests.  When no
    request raised, successful plus failed is the number of requests and
    the [True] results are the successful ones. *)
Theorem sent_counter_skips_unanswered (answers : list answer) (c : client) :
  let c' := (gather answers c).2 in
  let n := Z.of_nat (length answers) in
  let answered' := total_requests c' - total_requests c in
  let successful := successful_requests c' - successful_requests c in
  let failed := failed_requests c' - failed_requests c in
  length (gather answers c).1 = length answers /\
  0 <= how_many id (gather answers c).1 <= successful /\
  successful <= answered' <= n /\
  n <= successful + failed /\
  (answered' = n <-> Forall (fun a => answered a = true) answers) /\
  (Forall (fun a => raised a = false) answers ->
   successful + failed = n /\ answered' = n /\
   how_many id (gather answers c).1 = successful).
Proof.
  intros c' n answered' successful failed.
  destruct (gather_counters answers c) as (H1 & H2 & H3 & H4 & H5).
  fold c' in H2, H3, H4.
  pose proof (how_many_range answered answers) as Ha.
  pose proof (how_many_range (fun a => answered a && raised a) answers) as Hr.
  pose proof (how_many_range (fun a => accepted a && negb (raised a)) answers) as Hk.
  assert (how_many accepted answers <= how_many answered answers) as Hle.
  { apply how_many_le. by intros [|status released]. }
  assert (how_many (fun a => accepted a && negb (raised a)) answers
          <= how_many accepted answers) as Hle'.
  { apply how_many_le. intros a. by destruct (accepted a). }
  subst answered' successful failed n.
  split; [exact H1|]. rewrite H5.
  split; [lia|]. split; [lia|]. split; [lia|]. split.
  - rewrite <- how_many_all. lia.
  - intros Hclean.
    assert (how_many (fun a => answered a && raised a) answers = 0) as H0.
    { apply how_many_none. eapply Forall_impl; [exact Hclean|].
      intros a ->. apply andb_false_r. }
    assert (how_many answered answers = Z.of_nat (length answers)) as Hall.
    { apply how_many_all. eapply Forall_impl; [exact Hclean|].
      by intros [|status released]. }
    assert (how_many (fun a => accepted a && negb (raised a)) answers
            = how_many accepted answers) as Hsame.
    { apply how_many_ext. eapply Forall_impl; [exact Hclean|].
      intros a ->. apply andb_true_r. }
    lia.
Qed.

Lemma sent_counter_skips_unanswered_witness :
  Forall (fun a => raised a = false) [Response 200 true; Response 404 true] /\
  total_requests (gather [Response 200 true; Response 404 true] init).2
    - total_requests init = 2 /\
  how_many id (gather [Response 200 true; Response 404 true] init).1 =
    successful_requests (gather [Response 200 true; Response 404 true] init).2
    - successful_requests init.
Proof.
  assert (Forall (fun a => raised a = false)
            [Response 200 true; Response 404 true]) as H
    by (repeat constructor).
  pose proof (sent_counter_skips_unanswered
                [Response 200 true; Response 404 true] init) as Hc.
  cbn zeta in Hc. destruct Hc as (_ & _ & _ & _ & _ & Hclean).
  destruct (Hclean H) as (_ & Ht & Hs).
  exact (conj H (conj Ht Hs)).
Defined.

(** X15.  The counters after a batch do not depend on the order in
    which the requests are answered. *)
Theorem answers_order_irrelevant (answers answers' : list answer) (c : client) :
  answers ≡ₚ answers' -> (gather answers c).2 = (gather answers' c).2.
Proof.
  intros Hp.
  destruct (gather_counters answers c) as (_ & H2 & H3 & H4 & _).
  destruct (gather_counters answers' c) as (_ & H2' & H3' & H4' & _).
  apply client_eq.
  - by rewrite H2, H2', (how_many_perm _ _ _ Hp).
  - by rewrite H3, H3', (how_many_perm _ _ _ Hp).
  - rewrite H4, H4', (how_many_perm accepted _ _ Hp).
    rewrite (how_many_perm (fun a => answered a && raised a) _ _ Hp).
    by rewrite (Permutation_length Hp).
Qed.

Lemma answers_order_irrelevant_witness :
  (gather [NoResponse; Response 200 true] init).2 =
  (gather [Response 200 true; NoResponse] init).2.
Proof.
  apply (answers_order_irrelevant [NoResponse; Response 200 true]
           [Response 200 true; NoResponse] init).
  apply perm_swap.
Defined.

(** The counters after some batches. *)
Lemma run_batches_counters (net : nat -> nat -> answer) (batch_size : Z)
    (first n : nat) (c : client) :
  let c' := run_batches net batch_size first n c in
  let sent := Z.of_nat n * Z.of_nat (Z.to_nat batch_size) in
  total_requests c <= total_requests c' <= total_requests c + sent /\
  sent <= (successful_requests c' - successful_requests c)
          + (failed_requests c' - failed_requests c) /\
  ((forall i j, answered (net i j) = true) ->
   total_requests c' = total_requests c + sent).
Proof.
  revert first c. induction n as [|n IH]; intros first c; cbn zeta.
  - cbn [run_batches]. lia.
  - cbn [run_batches]. unfold run_batch.
    set (answers := net first <$> seq 0 (Z.to_nat batch_size)).
    destruct (gather_counters answers c) as (_ & H1 & H2 & H3 & _).
    pose proof (how_many_range answered answers) as Ha.
    pose proof (how_many_range (fun a => answered a && raised a) answers) as Hr.
    assert (length answers = Z.to_nat batch_size) as Hlen
      by (unfold answers; by rewrite length_fmap, length_seq).
    rewrite Hlen in *.
    destruct (IH (S first) (gather answers c).2) as (IH1 & IH2 & IH3).
    cbn zeta in IH1, IH2, IH3.
    split; [nia|]. split; [nia|].
    intros Hall. rewrite (IH3 Hall).
    assert (how_many answered answers = Z.of_nat (length answers)) as Ht.
    { apply how_many_all. unfold answers. apply Forall_fmap, Forall_forall.
      intros j _. apply Hall. }
    rewrite Hlen in Ht. nia.
Qed.

(** X16.  The batches cover the requested total and may overshoot it:
    with a positive batch size, [num_batches] is the ceiling of
    [total / batch_size], so the requests made are at least [total] and
    fewer than [total + batch_size], [total] exactly when the batch size
    divides it; the run returns, [total_requests] grows by at most that
    number and by exactly that number when every request is answered. *)
Theorem batches_cover_total (stats : stats_answer) (net : nat -> nat -> answer)
    (total batch_size max_concurrent : Z) (c : client) :
  0 <= total -> 0 < batch_size -> 0 < max_concurrent ->
  has_error (get_stats stats) = inr false ->
  exists n,
    num_batches total batch_size = inr n /\
    total <= n * batch_size < total + batch_size /\
    (n * batch_size = total <-> total mod batch_size = 0) /\
    exists c',
      run_load_test stats net total batch_size max_concurrent c = (Ok tt, c') /\
      total_requests c' - total_requests c <= n * batch_size /\
      n * batch_size <= (successful_requests c' - successful_requests c)
                        + (failed_requests c' - failed_requests c) /\
      ((forall i j, answered (net i j) = true) ->
       total_requests c' = total_requests c + n * batch_size).
Proof.
  intros Ht Hb Hm Hstats. exists ((total + batch_size - 1) / batch_size).
  pose proof (Z.div_mod (total + batch_size - 1) batch_size ltac:(lia)) as Hdm.
  pose proof (Z.mod_pos_bound (total + batch_size - 1) batch_size Hb) as Hr.
  assert (0 <= (total + batch_size - 1) / batch_size) as Hn0
    by (apply Z.div_pos; lia).
  assert (num_batches total batch_size
          = inr ((total + batch_size - 1) / batch_size)) as Hn.
  { unfold num_batches. destruct (batch_size =? 0) eqn:Hz; [lia|reflexivity]. }
  revert Hdm Hr Hn0 Hn.
  generalize ((total + batch_size - 1) / batch_size).
  generalize ((total + batch_size - 1) mod batch_size).
  intros r n Hdm Hr Hn0 Hn.
  split; [exact Hn|]. split; [nia|]. split.
  - split.
    + intros <-. apply Z.mod_mul. lia.
    + intros Hmod. apply Z.mod_divide in Hmod as [q Hq]; [|lia].
      assert (n = q); [|nia]. nia.
  - eexists. unfold run_load_test. rewrite Hn, Hstats.
    destruct (max_concurrent <? 0) eqn:H1; [lia|].
    destruct (max_concurrent =? 0) eqn:H2; [lia|].
    rewrite andb_false_r. split; [reflexivity|].
    pose proof (run_batches_counters net batch_size 0 (Z.to_nat n) c) as Hc.
    cbn zeta in Hc. rewrite !Z2Nat.id in Hc by lia. destruct Hc as (H3 & H4 & H5).
    split; [lia|]. split; [lia|exact H5].
Qed.

Lemma batches_cover_total_witness :
  exists n,
    num_batches 1001 1000 = inr n /\
    1001 <= n * 1000 < 1001 + 1000 /\
    exists c',
      run_load_test (StatsResponse 200 (PDict [])) (fun _ _ => Response 200 true)
        1001 1000 100 init = (Ok tt, c') /\
      total_requests c' = total_requests init + n * 1000.
Proof.
  destruct (batches_cover_total (StatsResponse 200 (PDict []))
              (fun _ _ => Response 200 true) 1001 1000 100 init)
    as (n & Hn & Hb & _ & c' & Hrun & _ & _ & Hall); [lia..|reflexivity|].
  exists n. split; [exact Hn|]. split; [exact Hb|].
  exists c'. split; [exact Hrun|]. apply Hall. reflexivity.
Defined.

Lemma get_stats_error (a : stats_answer) :
  (forall status json, a = StatsResponse status json -> status <> 200) ->
  has_error (get_stats a) = inr true.
Proof.
  intros Ha. destruct a as [message|status json]; [reflexivity|].
  cbn [get_stats]. destruct (status =? 200) eqn:Hs; [|reflexivity].
  apply Z.eqb_eq in Hs. by destruct (Ha status json eq_refl).
Qed.

(** X17.  [run_load_test] leaves the counters alone when the
    connectivity test fails, when the requested total or the batch size is
    not positive, and when [max_concurrent] is not positive; a batch size
    of 0 makes it raise. *)
Theorem load_test_sends_nothing (stats : stats_answer) (net : nat -> nat -> answer)
    (total batch_size max_concurrent : Z) (c : client) :
  (forall status json, stats = StatsResponse status json -> status <> 200) \/
  has_error (get_stats stats) <> inr false \/
  total <= 0 \/ batch_size <= 0 \/ max_concurrent <= 0 ->
  (run_load_test stats net total batch_size max_concurrent c).2 = c /\
  (batch_size = 0 ->
   exists e, (run_load_test stats net total batch_size max_concurrent c).1
             = Raise e).
Proof.
  assert (forall first n,
            run_batches net batch_size first n c = c \/
            0 < batch_size /\ (0 < n)%nat) as Hnone.
  { intros first n. destruct n as [|n]; [by left|].
    destruct (Z.to_nat batch_size) eqn:Hb; [left|right; lia].
    revert first. induction (S n) as [|k IH]; intros first; [done|].
    cbn [run_batches]. unfold run_batch. rewrite Hb. cbn. apply IH. }
  intros Hcase. unfold run_load_test, num_batches. split.
  - destruct (max_concurrent <? 0) eqn:H1; [reflexivity|].
    destruct (batch_size =? 0) eqn:H2; [reflexivity|].
    destruct (has_error (get_stats stats)) as [e|[|]] eqn:Hstats;
      [reflexivity|by destruct (get_stats stats)|].
    set (n := (total + batch_size - 1) / batch_size).
    destruct ((0 <? n) && (max_concurrent =? 0)) eqn:H3; [reflexivity|].
    cbn [snd].
    destruct (Hnone 0%nat (Z.to_nat n)) as [-> | [Hb Hn]]; [reflexivity|].
    exfalso.
    assert (0 < n) as Hn' by lia.
    apply andb_false_iff in H3 as [H3|H3]; [lia|].
    destruct Hcase as [Hs|[Hs|[Ht|[?|?]]]]; try (done || lia).
    { by rewrite (get_stats_error stats Hs) in Hstats. }
    assert (n < 1); [|lia].
    subst n. apply Z.div_lt_upper_bound; lia.
  - intros ->. destruct (max_concurrent <? 0); [by eexists|].
    cbn. by eexists.
Qed.

Lemma load_test_sends_nothing_witness :
  (run_load_test (StatsResponse 503 PNone) (fun _ _ => NoResponse)
     1000000 1000 100 init).2 = init.
Proof.
  apply (load_test_sends_nothing (StatsResponse 503 PNone) (fun _ _ => NoResponse)
           1000000 1000 100 init).
  left. intros status json [= <- _]. lia.
Defined.
